(** * Sentinel: the content normalisation and categorisation pipeline

    A shallow embedding of the Watchtower (categoriser, metric extractor,
    feed and page normalisers), the Mailroom sweep and the Synthesis Core
    (exchange document, rule-based fallback report), with the properties
    the specification states about them.

    Text is a sequence of code points below 256 (ASCII and Latin-1); on
    that alphabet [lower], [is_space] and [is_digit] are what Python's
    [str.lower], [\s] and [\d] compute. *)

From Stdlib Require Import Ascii String List Arith Lia Bool Sorted DecimalString.
From stdpp Require Import base strings gmap.
Import ListNotations.

Open Scope list_scope.

Set Warnings "-register-all".

(* ===================================================================== *)
(** ** Text *)
(* ===================================================================== *)

Abbreviation text := (list ascii).

Definition str (s : string) : text := list_ascii_of_string s.

Definition code (c : ascii) : nat := nat_of_ascii c.

Definition between (lo hi n : nat) : bool := (lo <=? n) && (n <=? hi).

(** [str.lower] on one code point: A-Z, and the Latin-1 capitals
    U+00C0..U+00DE except the multiplication sign U+00D7, move up by 32. *)
Definition lower (c : ascii) : ascii :=
  let n := code c in
  if between 65 90 n then ascii_of_nat (n + 32)
  else if between 192 222 n && negb (n =? 215) then ascii_of_nat (n + 32)
  else c.

Definition text_lower (s : text) : text := map lower s.

(** [\s] of a str pattern. *)
Definition is_space (c : ascii) : bool :=
  let n := code c in
  between 9 13 n || between 28 32 n || (n =? 133) || (n =? 160).

(** [\d] of a str pattern. *)
Definition is_digit (c : ascii) : bool := between 48 57 (code c).

Definition ascii_eqb (a b : ascii) : bool := Ascii.eqb a b.

Fixpoint text_eqb (a b : text) : bool :=
  match a, b with
  | [], [] => true
  | x :: a', y :: b' => ascii_eqb x y && text_eqb a' b'
  | _, _ => false
  end.

(** [s.startswith(p)] *)
Fixpoint startswith (p s : text) : bool :=
  match p, s with
  | [], _ => true
  | x :: p', y :: s' => ascii_eqb x y && startswith p' s'
  | _ :: _, [] => false
  end.

(** [s.endswith(p)] *)
Definition endswith (p s : text) : bool :=
  startswith (rev p) (rev s).

(** [kw in s]: substring search, leftmost position first. *)
Fixpoint contains (kw s : text) : bool :=
  startswith kw s ||
  match s with
  | [] => false
  | _ :: s' => contains kw s'
  end.

(* ===================================================================== *)
(** ** config.py *)
(* ===================================================================== *)

(** [CATEGORY_KEYWORDS]; a dict literal, iterated in insertion order. *)
Definition CATEGORY_KEYWORDS : list (string * list string) :=
  [ ("customer_improvement",
     [ "customer"; "case study"; "success story"; "testimonial";
       "implementation"; "deployed"; "adopted"; "integrated";
       "saved"; "reduced"; "improved"; "increased"; "roi" ]);
    ("breakthrough",
     [ "breakthrough"; "novel"; "first"; "revolutionary"; "discovery";
       "state-of-the-art"; "sota"; "unprecedented"; "groundbreaking" ]);
    ("use_case",
     [ "how to"; "tutorial"; "implementation"; "use case"; "guide";
       "example"; "demo"; "showcase"; "practical" ]);
    ("white_paper",
     [ "paper"; "research"; "study"; "arxiv"; "journal"; "pdf";
       "preprint"; "publication"; "technical report" ]) ]%string.

(* ===================================================================== *)
(** ** watchtower.py: categorize_content *)
(* ===================================================================== *)

(** The inner loop: [for keyword in keywords: if keyword in text_lower]. *)
Fixpoint any_keyword (keywords : list string) (text_lower : text) : bool :=
  match keywords with
  | [] => false
  | keyword :: more =>
      if contains (str keyword) text_lower then true
      else any_keyword more text_lower
  end.

(** The outer loop over the table's items; falls through to "general". *)
Fixpoint first_category (table : list (string * list string))
         (text_lower : text) : string :=
  match table with
  | [] => "general"%string
  | (category, keywords) :: more =>
      if any_keyword keywords text_lower then category
      else first_category more text_lower
  end.

Definition categorize_content (s : text) : string :=
  first_category CATEGORY_KEYWORDS (text_lower s).

(* ===================================================================== *)
(** ** Regular expressions as [re] runs them

    [re] is a backtracking matcher.  [paths r st] lists the states in
    which [r] can finish from [st], in the order in which the matcher
    tries them: the first alternative before the second, one more
    iteration of a greedy repetition before stopping.  The match [re]
    reports is the head of that list. *)
(* ===================================================================== *)

Inductive regex : Type :=
| Eps : regex
| Chr : (ascii -> bool) -> regex
| Seq : regex -> regex -> regex
| Alt : regex -> regex -> regex
| Star : regex -> regex
| Grp : regex -> regex.

(** What is left of the subject, and what group 1 holds. *)
Record mstate : Type := MState { ms_rest : text; ms_group : option text }.

Definition consumed (s s' : text) : text := firstn (length s - length s') s.

Definition advances (st st' : mstate) : bool :=
  length (ms_rest st') <? length (ms_rest st).

(** A greedy repetition: one more round of the body first, then the exit.
    A round that consumes nothing is not repeated. *)
Fixpoint star_loop (body : mstate -> list mstate) (fuel : nat) (st : mstate)
  : list mstate :=
  match fuel with
  | 0 => [st]
  | S fuel' =>
      flat_map (fun st' => if advances st st' then star_loop body fuel' st'
                           else [])
               (body st) ++ [st]
  end.

Fixpoint paths (r : regex) (st : mstate) : list mstate :=
  match r with
  | Eps => [st]
  | Chr p =>
      match ms_rest st with
      | c :: s' => if p c then [MState s' (ms_group st)] else []
      | [] => []
      end
  | Seq a b => flat_map (paths b) (paths a st)
  | Alt a b => paths a st ++ paths b st
  | Star a => star_loop (paths a) (length (ms_rest st)) st
  | Grp a =>
      map (fun st' => MState (ms_rest st')
                             (Some (consumed (ms_rest st) (ms_rest st'))))
          (paths a st)
  end.

Definition Opt (r : regex) : regex := Alt r Eps.
Definition Plus (r : regex) : regex := Seq r (Star r).

(** A literal under [re.IGNORECASE]. *)
Definition ci (c x : ascii) : bool := ascii_eqb (lower x) (lower c).

Fixpoint word (w : text) : regex :=
  match w with
  | [] => Eps
  | c :: w' => Seq (Chr (ci c)) (word w')
  end.

Definition lit (w : string) : regex := word (str w).

Fixpoint alts (rs : list regex) : regex :=
  match rs with
  | [] => Chr (fun _ => false)
  | [r] => r
  | r :: rs' => Alt r (alts rs')
  end.

Fixpoint seqs (rs : list regex) : regex :=
  match rs with
  | [] => Eps
  | [r] => r
  | r :: rs' => Seq r (seqs rs')
  end.

Definition start_state (s : text) : mstate := MState s None.

(** [pattern.match] at the head of [s]. *)
Definition match_at (r : regex) (s : text) : option mstate :=
  head (paths r (start_state s)).

(** The same with [must_advance]: an empty match does not count. *)
Definition match_nonempty_at (r : regex) (s : text) : option mstate :=
  find (advances (start_state s)) (paths r (start_state s)).

Record match_obj : Type :=
  Match { m_start : nat; m_end : nat; m_group1 : text }.

Definition group1 (st : mstate) : text :=
  match ms_group st with Some g => g | None => [] end.

Definition width (s : text) (st : mstate) : nat :=
  length s - length (ms_rest st).

(** [pattern.finditer]: [s] is the subject from position [pos] on; the
    next [skip] positions lie inside the match found last and are passed
    over.  After an empty match the same position is tried once more for
    a match that advances. *)
Fixpoint scan (r : regex) (s : text) (pos skip : nat) : list match_obj :=
  let next k :=
    match s with
    | [] => []
    | _ :: s' => scan r s' (S pos) k
    end in
  match skip with
  | S k => next k
  | 0 =>
      match match_at r s with
      | None => next 0
      | Some st =>
          match width s st with
          | S k => Match pos (pos + S k) (group1 st) :: next k
          | 0 =>
              Match pos pos (group1 st) ::
              match match_nonempty_at r s with
              | Some st2 =>
                  Match pos (pos + width s st2) (group1 st2)
                        :: next (width s st2 - 1)
              | None => next 0
              end
          end
      end
  end.

Definition finditer (r : regex) (s : text) : list match_obj := scan r s 0 0.

(** [re.findall] for a pattern with one group: the group of every match. *)
Definition findall (r : regex) (s : text) : list text :=
  map m_group1 (finditer r s).

(* ===================================================================== *)
(** ** config.py: METRIC_PATTERNS *)
(* ===================================================================== *)

Definition digits : regex := Plus (Chr is_digit).
Definition spaces : regex := Star (Chr is_space).
Definition spaces1 : regex := Plus (Chr is_space).

(** [\d+(?:\.\d+)?] *)
Definition number : regex := Seq digits (Opt (Seq (lit ".") digits)).

(** [saved?|reduced?] *)
Definition saved_or_reduced : regex :=
  Alt (Seq (lit "save") (Opt (lit "d")))
      (Seq (lit "reduce") (Opt (lit "d"))).

(** [(?:increased?|improved?|reduced?|saved?|grew?|boost(?:ed)?)\s+(?:by\s+)?(\d+(?:\.\d+)?)\s*%] *)
Definition percentage_re : regex :=
  seqs [ alts [ Seq (lit "increase") (Opt (lit "d"));
                Seq (lit "improve") (Opt (lit "d"));
                Seq (lit "reduce") (Opt (lit "d"));
                Seq (lit "save") (Opt (lit "d"));
                Seq (lit "gre") (Opt (lit "w"));
                Seq (lit "boost") (Opt (lit "ed")) ];
         spaces1;
         Opt (Seq (lit "by") spaces1);
         Grp number;
         spaces;
         lit "%" ].

(** [(\d+(?:\.\d+)?)\s*x\s+(?:faster|better|more efficient|improvement)] *)
Definition multiplier_re : regex :=
  seqs [ Grp number;
         spaces;
         lit "x";
         spaces1;
         alts [ lit "faster"; lit "better"; lit "more efficient";
                lit "improvement" ] ].

(** [hours?|days?|weeks?|minutes?|ms|milliseconds?] *)
Definition time_unit : regex :=
  alts [ Seq (lit "hour") (Opt (lit "s"));
         Seq (lit "day") (Opt (lit "s"));
         Seq (lit "week") (Opt (lit "s"));
         Seq (lit "minute") (Opt (lit "s"));
         lit "ms";
         Seq (lit "millisecond") (Opt (lit "s")) ].

(** [(?:saved?|reduced?)\s+(\d+(?:\.\d+)?)\s*(?:hours?|days?|weeks?|minutes?|ms|milliseconds?)] *)
Definition time_savings_re : regex :=
  Seq (Seq saved_or_reduced spaces1)
      (Seq (Grp number) (Seq spaces time_unit)).

(** [\d+(?:,\d{3})*(?:\.\d+)?] *)
Definition amount : regex :=
  Seq digits
      (Seq (Star (Seq (lit ",")
                      (Seq (Chr is_digit) (Seq (Chr is_digit) (Chr is_digit)))))
           (Opt (Seq (lit ".") digits))).

(** [(?:million|billion|k|thousand)?] *)
Definition magnitude : regex :=
  Opt (alts [ lit "million"; lit "billion"; lit "k"; lit "thousand" ]).

(** [(?:saved?|reduced?)\s+\$?(\d+(?:,\d{3})*(?:\.\d+)?)\s*(?:million|billion|k|thousand)?] *)
Definition cost_savings_re : regex :=
  Seq (Seq saved_or_reduced spaces1)
      (Seq (Opt (lit "$")) (Seq (Grp amount) (Seq spaces magnitude))).

Definition METRIC_PATTERNS : list (string * regex) :=
  [ ("percentage", percentage_re);
    ("multiplier", multiplier_re);
    ("time_savings", time_savings_re);
    ("cost_savings", cost_savings_re) ]%string.

(* ===================================================================== *)
(** ** watchtower.py: extract_metrics *)
(* ===================================================================== *)

(** The dict [{"type": ..., "value": ..., "context": ...}]. *)
Record Metric : Type :=
  mkMetric { metric_type : string; metric_value : text; metric_context : text }.

(** [for match in matches: metrics.append({...})] *)
Fixpoint append_matches (metric_type : string) (s : text)
         (matches : list text) (metrics : list Metric) : list Metric :=
  match matches with
  | [] => metrics
  | m :: more =>
      append_matches metric_type s more
                     (metrics ++ [mkMetric metric_type m (firstn 200 s)])
  end.

(** [for metric_type, pattern in METRIC_PATTERNS.items()] *)
Fixpoint scan_patterns (patterns : list (string * regex)) (s : text)
         (metrics : list Metric) : list Metric :=
  match patterns with
  | [] => metrics
  | (metric_type, pattern) :: more =>
      scan_patterns more s
                    (append_matches metric_type s (findall pattern s) metrics)
  end.

Definition extract_metrics (s : text) : list Metric :=
  scan_patterns METRIC_PATTERNS s [].

(* ===================================================================== *)
(** ** watchtower.py: the feed path and the page path *)
(* ===================================================================== *)

Record IntelligenceItem : Type :=
  mkItem { title : text;
           source : text;
           link : text;
           summary : text;
           timestamp : text;
           category : string;
           metrics : list Metric;
           raw_content : option text }.

Definition MAX_RSS_ITEMS_PER_FEED : nat := 10.
Definition MAX_DEEP_WEB_PAGES : nat := 5.

(** [d.get(key, default)] *)
Definition dict_get (d : gmap string text) (key : string) (default : text)
  : text :=
  match d !! key with
  | Some v => v
  | None => default
  end.

(** What [feedparser.parse] hands over: the bozo flag, the feed's own
    fields, its entries; an entry is what [entry.get] answers for each
    key. *)
Record parsed_feed : Type :=
  mkFeed { bozo : bool;
           feed : gmap string text;
           entries : list (gmap string text) }.

(** What the page path reads off one selected element of the page:
    the text of [select_one('h2, h3, .title')], the [href] of
    [select_one('a')] (an anchor may lack it), the text of
    [select_one('p, .description, .excerpt')]; [None] where [select_one]
    finds nothing. *)
Record fragment : Type :=
  mkFragment { title_el : option text;
               link_el : option (option text);
               summary_el : option text }.

Section Watchtower.

(** [BeautifulSoup(markup, 'html.parser').get_text()] *)
Variable get_text : text -> text.
(** [datetime.now().isoformat()] *)
Variable now : text.

(** The body of the loop over a feed's entries. *)
Definition feed_entry_item (feed_title : text) (entry : gmap string text)
  : IntelligenceItem :=
  let summary := dict_get entry "summary" (dict_get entry "description" []) in
  let summary :=
    match summary with
    | [] => summary
    | _ :: _ => firstn 500 (get_text summary)
    end in
  let combined_text := dict_get entry "title" [] ++ str " " ++ summary in
  mkItem (dict_get entry "title" (str "Untitled"))
         feed_title
         (dict_get entry "link" [])
         summary
         (dict_get entry "published" now)
         (categorize_content combined_text)
         (extract_metrics combined_text)
         None.

(** One feed: [None] when [feedparser.parse] raises. *)
Definition scan_feed (parsed : option parsed_feed) : list IntelligenceItem :=
  match parsed with
  | None => []
  | Some f =>
      if bozo f then []
      else map (feed_entry_item (dict_get (feed f) "title" (str "Unknown Feed")))
               (firstn MAX_RSS_ITEMS_PER_FEED (entries f))
  end.

Definition fetch_rss_intelligence (parse : text -> option parsed_feed)
           (RSS_FEEDS : list text) : list IntelligenceItem :=
  flat_map (fun feed_url => scan_feed (parse feed_url)) RSS_FEEDS.

(** The body of the loop over a page's articles: [None] when the article
    has no title element. *)
Definition fragment_item (url : text) (article : fragment)
  : option IntelligenceItem :=
  match title_el article with
  | None => None
  | Some title =>
      let link :=
        match link_el article with
        | Some a => match a with Some href => href | None => [] end
        | None => url
        end in
      let summary :=
        match summary_el article with
        | Some p => firstn 500 p
        | None => []
        end in
      let combined_text := title ++ str " " ++ summary in
      Some (mkItem title
                   (str "Deep Web: " ++ firstn 30 url)
                   (if startswith (str "http") link then link else url ++ link)
                   summary
                   now
                   (categorize_content combined_text)
                   (extract_metrics combined_text)
                   None)
  end.

(** [for article in articles: ...] *)
Fixpoint article_items (url : text) (articles : list fragment)
  : list IntelligenceItem :=
  match articles with
  | [] => []
  | article :: more =>
      match fragment_item url article with
      | Some item => item :: article_items url more
      | None => article_items url more
      end
  end.

(** One page: [for article in articles[:10]]. *)
Definition page_items (url : text) (articles : list fragment)
  : list IntelligenceItem :=
  article_items url (firstn 10 articles).

(** [render url] is the list [soup.select(...)] finds on the rendered
    page, [None] when rendering raises. *)
Definition fetch_deep_web_intelligence (PLAYWRIGHT_AVAILABLE : bool)
           (render : text -> option (list fragment))
           (SCRAPE_TARGETS : list text) : list IntelligenceItem :=
  if PLAYWRIGHT_AVAILABLE then
    flat_map (fun url => match render url with
                         | Some articles => page_items url articles
                         | None => []
                         end)
             (firstn MAX_DEEP_WEB_PAGES SCRAPE_TARGETS)
  else [].

End Watchtower.

(* ===================================================================== *)
(** ** mailroom.py: search_whitepapers *)
(* ===================================================================== *)

Record EmailIntelligence : Type :=
  mkEmail { subject : text;
            sender : text;
            snippet : text;
            gmail_link : text;
            email_timestamp : text;
            attachments : list text;
            pdf_content : option text }.

(** A part of a message: [part.get('filename')], and [part['body']] with
    its [attachmentId]. *)
Record part : Type :=
  mkPart { part_filename : option text;
           part_body : option (option text) }.

(** A message as [messages().get] returns it: the header list, the
    snippet, the parts of the payload. *)
Record message : Type :=
  mkMessage { msg_headers : list (text * text);
              msg_snippet : option text;
              msg_parts : option (list part) }.

(** [{h['name']: h['value'] for h in headers}.get(name, default)]: of
    two headers of one name the later one stays. *)
Fixpoint header_get (headers : list (text * text)) (name default : text)
  : text :=
  match headers with
  | [] => default
  | (n, v) :: more =>
      header_get more name (if text_eqb n name then v else default)
  end.

Definition link_of (id : string) : text :=
  str "https://mail.google.com/mail/u/0/#inbox/" ++ str id.

(** The sweep's state: the items so far, the identifiers seen, and the
    identifiers handed to [messages().get], in order. *)
Record sweep : Type :=
  mkSweep { items : list EmailIntelligence;
            seen_ids : gset string;
            fetched : list string }.

Section Mailroom.

(** [messages().list(q=query, ...)]: the identifiers of the matches, [None]
    when the call raises. *)
Variable list_messages : string -> option (list string).
(** [messages().get(id=...)]: [None] when the call raises. *)
Variable get_message : string -> option message.
(** [download_attachment]: the path of the saved file, if any. *)
Variable download_attachment : string -> text -> text -> option text.
Variable extract_pdf_text : text -> text.
Variable now : text.

(** The loop over the parts: the attachments and the text of the last
    document; [None] when a part with a document's name has no body. *)
Fixpoint scan_parts (id : string) (parts : list part)
         (attachments : list text) (pdf_content : option text)
  : option (list text * option text) :=
  match parts with
  | [] => Some (attachments, pdf_content)
  | p :: more =>
      let filename := match part_filename p with Some f => f | None => [] end in
      if endswith (str ".pdf") filename then
        match part_body p with
        | None => None
        | Some attachment_id =>
            match attachment_id with
            | Some (c :: aid) =>
                match download_attachment id (c :: aid) filename with
                | Some (d :: path) =>
                    scan_parts id more (attachments ++ [filename])
                               (Some (extract_pdf_text (d :: path)))
                | _ => scan_parts id more attachments pdf_content
                end
            | _ => scan_parts id more attachments pdf_content
            end
        end
      else scan_parts id more attachments pdf_content
  end.

(** From the fetch of a message to its item; [None] when something
    raises on the way. *)
Definition message_item (id : string) : option EmailIntelligence :=
  match get_message id with
  | None => None
  | Some msg =>
      let parts := match msg_parts msg with Some ps => ps | None => [] end in
      match scan_parts id parts [] None with
      | None => None
      | Some (attachments, pdf_content) =>
          Some (mkEmail (header_get (msg_headers msg) (str "Subject")
                                    (str "No Subject"))
                        (header_get (msg_headers msg) (str "From")
                                    (str "Unknown"))
                        (match msg_snippet msg with Some s => s | None => [] end)
                        (link_of id)
                        (header_get (msg_headers msg) (str "Date") now)
                        attachments
                        pdf_content)
      end
  end.

(** [for msg_info in messages]: an identifier already seen is passed over;
    a new one is recorded as seen before anything else is done with it.
    When something raises the loop is left (the query's [except] takes
    over) and the rest of the query's messages is not looked at. *)
Fixpoint scan_messages (messages : list string) (st : sweep) : sweep :=
  match messages with
  | [] => st
  | id :: more =>
      if decide (id ∈ seen_ids st) then scan_messages more st
      else
        let seen := {[ id ]} ∪ seen_ids st in
        let calls := fetched st ++ [id] in
        match message_item id with
        | None => mkSweep (items st) seen calls
        | Some item =>
            scan_messages more (mkSweep (items st ++ [item]) seen calls)
        end
  end.

(** [for query in GMAIL_QUERIES] *)
Fixpoint scan_queries (queries : list string) (st : sweep) : sweep :=
  match queries with
  | [] => st
  | query :: more =>
      match list_messages query with
      | None => scan_queries more st
      | Some messages => scan_queries more (scan_messages messages st)
      end
  end.

Definition sweep_queries (queries : list string) : sweep :=
  scan_queries queries (mkSweep [] ∅ []).

(** [search_whitepapers], once authenticated. *)
Definition search_whitepapers (queries : list string)
  : list EmailIntelligence :=
  items (sweep_queries queries).

End Mailroom.

(* ===================================================================== *)
(** ** The json module, as far as synthesizer.py uses it

    [json_dumps] is [json.dumps(data, indent=2)] (so with
    [ensure_ascii]); [json_loads] is [json.loads].  Numbers are kept as
    their literals.  A [\uXXXX] escape above U+00FF names text outside
    the alphabet of this development: [json_loads] then answers
    [BeyondAlphabet], which stands for no behaviour of the program.
    The scanner here has no limit on nesting: a text nested deeper than
    the interpreter's recursion limit (about a thousand levels), on which
    [json.loads] raises [RecursionError], lies outside this model. *)
(* ===================================================================== *)

Inductive json : Type :=
| JNull : json
| JBool : bool -> json
| JNum : text -> json
| JStr : text -> json
| JList : list json -> json
| JDict : list (text * json) -> json.

Inductive error : Type :=
| JSONDecodeError
| ValueError
| AttributeError
| KeyError
| TypeError
| BeyondAlphabet.

Inductive result (A : Type) : Type :=
| Ok : A -> result A
| Err : error -> result A.

Arguments Ok {A} _.
Arguments Err {A} _.

#[global] Instance result_ret : MRet result := @Ok.

#[global] Instance result_bind : MBind result :=
  fun A B f r =>
    match r with
    | Ok a => f a
    | Err e => Err e
    end.

Definition dquote : ascii := ascii_of_nat 34.
Definition backslash : ascii := ascii_of_nat 92.
Definition newline : ascii := ascii_of_nat 10.

(** *** json.dumps *)

Definition hex_digit (n : nat) : ascii :=
  if n <? 10 then ascii_of_nat (48 + n) else ascii_of_nat (87 + n).

(** One character of a string, as [ensure_ascii] writes it. *)
Definition escape (c : ascii) : text :=
  let n := code c in
  if n =? 34 then [backslash; dquote]
  else if n =? 92 then [backslash; backslash]
  else if n =? 10 then [backslash; "n"%char]
  else if n =? 13 then [backslash; "r"%char]
  else if n =? 9 then [backslash; "t"%char]
  else if n =? 8 then [backslash; "b"%char]
  else if n =? 12 then [backslash; "f"%char]
  else if between 32 126 n then [c]
  else [backslash; "u"%char; "0"%char; "0"%char;
        hex_digit (n / 16); hex_digit (n mod 16)].

Definition quote (s : text) : text :=
  dquote :: flat_map escape s ++ [dquote].

(** ['\n' + ' ' * (2 * level)] *)
Definition newline_indent (level : nat) : text :=
  newline :: repeat " "%char (2 * level).

Fixpoint render (level : nat) (v : json) : text :=
  match v with
  | JNull => str "null"
  | JBool true => str "true"
  | JBool false => str "false"
  | JNum literal => literal
  | JStr s => quote s
  | JList [] => str "[]"
  | JList (x :: xs) =>
      str "[" ++ newline_indent (S level) ++ render (S level) x ++
      flat_map (fun y => str "," ++ newline_indent (S level) ++
                         render (S level) y) xs ++
      newline_indent level ++ str "]"
  | JDict [] => str "{}"
  | JDict ((k, x) :: kvs) =>
      str "{" ++ newline_indent (S level) ++
      quote k ++ str ": " ++ render (S level) x ++
      flat_map (fun kv => str "," ++ newline_indent (S level) ++
                          quote (fst kv) ++ str ": " ++
                          render (S level) (snd kv)) kvs ++
      newline_indent level ++ str "}"
  end.

Definition json_dumps (v : json) : text := render 0 v.

(** *** json.loads *)

Definition is_json_ws (c : ascii) : bool :=
  let n := code c in (n =? 32) || (n =? 9) || (n =? 10) || (n =? 13).

Fixpoint skip_ws (s : text) : text :=
  match s with
  | c :: t => if is_json_ws c then skip_ws t else s
  | [] => []
  end.

Definition hex_value (c : ascii) : option nat :=
  let n := code c in
  if between 48 57 n then Some (n - 48)
  else if between 97 102 n then Some (n - 87)
  else if between 65 70 n then Some (n - 55)
  else None.

Definition hex4 (a b c d : ascii) : option nat :=
  match hex_value a, hex_value b, hex_value c, hex_value d with
  | Some x, Some y, Some z, Some w => Some (((x * 16 + y) * 16 + z) * 16 + w)
  | _, _, _, _ => None
  end.

(** The character a backslash escape other than [\u] stands for. *)
Definition unescape (e : ascii) : option ascii :=
  let n := code e in
  if n =? 34 then Some dquote
  else if n =? 92 then Some backslash
  else if n =? 47 then Some "/"%char
  else if n =? 98 then Some (ascii_of_nat 8)
  else if n =? 102 then Some (ascii_of_nat 12)
  else if n =? 110 then Some newline
  else if n =? 114 then Some (ascii_of_nat 13)
  else if n =? 116 then Some (ascii_of_nat 9)
  else None.

(** [scanstring], strict: from behind the opening quote to behind the
    closing one. *)
Fixpoint scan_string (s acc : text) : result (text * text) :=
  match s with
  | [] => Err JSONDecodeError
  | c :: t =>
      if code c =? 34 then Ok (acc, t)
      else if code c =? 92 then
        match t with
        | [] => Err JSONDecodeError
        | e :: t' =>
            if code e =? 117 then
              match t' with
              | h1 :: h2 :: h3 :: h4 :: t'' =>
                  match hex4 h1 h2 h3 h4 with
                  | Some n =>
                      if n <? 256 then scan_string t'' (acc ++ [ascii_of_nat n])
                      else Err BeyondAlphabet
                  | None => Err JSONDecodeError
                  end
              | _ => Err JSONDecodeError
              end
            else
              match unescape e with
              | Some ch => scan_string t' (acc ++ [ch])
              | None => Err JSONDecodeError
              end
        end
      else if code c <? 32 then Err JSONDecodeError
      else scan_string t (acc ++ [c])
  end.

Definition one_of (cs : string) : regex :=
  Chr (fun c => existsb (ascii_eqb c) (str cs)).

Definition ascii_digit : regex := one_of "0123456789".

(** [NUMBER_RE]: an optional minus, then 0 or a digit from 1 to 9 with
    any digits behind; then, each optional, a fraction (a point and
    digits) and an exponent (e or E, an optional sign, digits). *)
Definition int_re : regex :=
  Seq (Opt (one_of "-"))
      (Alt (one_of "0") (Seq (one_of "123456789") (Star ascii_digit))).
Definition frac_exp_re : regex :=
  Seq (Opt (Seq (one_of ".") (Plus ascii_digit)))
      (Opt (Seq (one_of "eE") (Seq (Opt (one_of "-+")) (Plus ascii_digit)))).

(** [int()] refuses literals of more than 4300 digits. *)
Definition MAX_STR_DIGITS : nat := 4300.

Definition scan_number (s : text) : option (result (json * text)) :=
  match match_at int_re s with
  | None => None
  | Some st =>
      let integer := consumed s (ms_rest st) in
      match match_at frac_exp_re (ms_rest st) with
      | None => None
      | Some st' =>
          let tail := consumed (ms_rest st) (ms_rest st') in
          match tail with
          | [] =>
              if MAX_STR_DIGITS <? length (List.filter is_digit integer)
              then Some (Err ValueError)
              else Some (Ok (JNum integer, ms_rest st'))
          | _ :: _ => Some (Ok (JNum (integer ++ tail), ms_rest st'))
          end
      end
  end.

(** The scanner where no string, object or array starts. *)
Definition scan_atom (s : text) : result (json * text) :=
  if startswith (str "null") s then Ok (JNull, skipn 4 s)
  else if startswith (str "true") s then Ok (JBool true, skipn 4 s)
  else if startswith (str "false") s then Ok (JBool false, skipn 5 s)
  else
    match scan_number s with
    | Some r => r
    | None =>
        if startswith (str "NaN") s then Ok (JNum (str "NaN"), skipn 3 s)
        else if startswith (str "Infinity") s
             then Ok (JNum (str "Infinity"), skipn 8 s)
        else if startswith (str "-Infinity") s
             then Ok (JNum (str "-Infinity"), skipn 9 s)
        else Err JSONDecodeError
    end.

(** [dict(pairs)], pair after pair: a key bound before keeps its place and
    takes the new value. *)
Fixpoint dict_set (d : list (text * json)) (key : text) (v : json)
  : list (text * json) :=
  match d with
  | [] => [(key, v)]
  | (k, x) :: d' =>
      if text_eqb k key then (k, v) :: d' else (k, x) :: dict_set d' key v
  end.

(** The scanner; [fuel] bounds the nesting and the number of items: with
    more than twice the length of the text the scanner never runs out of
    it. *)
Fixpoint parse_value (fuel : nat) (s : text) : result (json * text) :=
  match fuel with
  | 0 => Err JSONDecodeError
  | S fuel' =>
      match s with
      | [] => Err JSONDecodeError
      | c :: t =>
          if code c =? 34 then
            '(x, rest) ← scan_string t [];
            Ok (JStr x, rest)
          else if code c =? 123 then
            match skip_ws t with
            | c' :: t' =>
                if code c' =? 125 then Ok (JDict [], t')
                else if code c' =? 34 then parse_members fuel' t' []
                else Err JSONDecodeError
            | [] => Err JSONDecodeError
            end
          else if code c =? 91 then
            match skip_ws t with
            | c' :: t' =>
                if code c' =? 93 then Ok (JList [], t')
                else parse_items fuel' (c' :: t') []
            | [] => Err JSONDecodeError
            end
          else scan_atom s
      end
  end

with parse_items (fuel : nat) (s : text) (values : list json)
  : result (json * text) :=
  match fuel with
  | 0 => Err JSONDecodeError
  | S fuel' =>
      '(value, rest) ← parse_value fuel' s;
      match skip_ws rest with
      | c :: t =>
          if code c =? 93 then Ok (JList (values ++ [value]), t)
          else if code c =? 44
               then parse_items fuel' (skip_ws t) (values ++ [value])
          else Err JSONDecodeError
      | [] => Err JSONDecodeError
      end
  end

with parse_members (fuel : nat) (s : text) (pairs : list (text * json))
  : result (json * text) :=
  match fuel with
  | 0 => Err JSONDecodeError
  | S fuel' =>
      '(key, rest) ← scan_string s [];
      match skip_ws rest with
      | c :: t =>
          if code c =? 58 then
            '(value, rest') ← parse_value fuel' (skip_ws t);
            match skip_ws rest' with
            | c' :: t' =>
                if code c' =? 125 then Ok (JDict (dict_set pairs key value), t')
                else if code c' =? 44 then
                  match skip_ws t' with
                  | c'' :: t'' =>
                      if code c'' =? 34
                      then parse_members fuel' t'' (dict_set pairs key value)
                      else Err JSONDecodeError
                  | [] => Err JSONDecodeError
                  end
                else Err JSONDecodeError
            | [] => Err JSONDecodeError
            end
          else Err JSONDecodeError
      | [] => Err JSONDecodeError
      end
  end.

Definition json_loads (s : text) : result json :=
  '(v, rest) ← parse_value (S (2 * length s)) (skip_ws s);
  match skip_ws rest with
  | [] => Ok v
  | _ :: _ => Err JSONDecodeError
  end.

(* ===================================================================== *)
(** ** synthesizer.py: prepare_intelligence_data *)
(* ===================================================================== *)

Definition metric_json (m : Metric) : json :=
  JDict [ (str "type", JStr (str (metric_type m)));
          (str "value", JStr (metric_value m));
          (str "context", JStr (metric_context m)) ].

(** The dict appended for a web item. *)
Definition web_entry (item : IntelligenceItem) : json :=
  JDict [ (str "title", JStr (title item));
          (str "source", JStr (source item));
          (str "summary", JStr (firstn 500 (summary item)));
          (str "category", JStr (str (category item)));
          (str "metrics", JList (map metric_json (metrics item)));
          (str "link", JStr (link item)) ].

(** [item.pdf_content[:1000] if item.pdf_content else None] *)
Definition pdf_excerpt (item : EmailIntelligence) : json :=
  match pdf_content item with
  | Some (c :: s) => JStr (firstn 1000 (c :: s))
  | _ => JNull
  end.

(** The dict appended for an email item. *)
Definition email_entry (item : EmailIntelligence) : json :=
  JDict [ (str "subject", JStr (subject item));
          (str "sender", JStr (sender item));
          (str "snippet", JStr (snippet item));
          (str "attachments", JList (map JStr (attachments item)));
          (str "pdf_excerpt", pdf_excerpt item) ].

Definition intelligence_data (web_items : list IntelligenceItem)
           (email_items : list EmailIntelligence) : json :=
  JDict [ (str "web_intelligence", JList (map web_entry web_items));
          (str "email_intelligence", JList (map email_entry email_items)) ].

Definition prepare_intelligence_data (web_items : list IntelligenceItem)
           (email_items : list EmailIntelligence) : text :=
  json_dumps (intelligence_data web_items email_items).

(* ===================================================================== *)
(** ** synthesizer.py: fallback_synthesize *)
(* ===================================================================== *)

(** The decimal digits of a length. *)
Definition dec (n : nat) : text :=
  str (NilZero.string_of_uint (Nat.to_uint n)).

Fixpoint jget (d : list (text * json)) (key : text) : option json :=
  match d with
  | [] => None
  | (k, v) :: d' => if text_eqb k key then Some v else jget d' key
  end.

(** [v.get(key, default)] *)
Definition py_get (v : json) (key : text) (default : json) : result json :=
  match v with
  | JDict d => Ok (match jget d key with Some x => x | None => default end)
  | _ => Err AttributeError
  end.

(** [v[key]] for a key that is a str. *)
Definition py_item (v : json) (key : text) : result json :=
  match v with
  | JDict d => match jget d key with Some x => Ok x | None => Err KeyError end
  | _ => Err TypeError
  end.

(** [for x in v] *)
Definition py_iter (v : json) : result (list json) :=
  match v with
  | JList l => Ok l
  | JStr s => Ok (map (fun c => JStr [c]) s)
  | JDict d => Ok (map (fun kv => JStr (fst kv)) d)
  | _ => Err TypeError
  end.

(** [len(v)] *)
Definition py_len (v : json) : result nat :=
  match v with
  | JList l => Ok (length l)
  | JStr s => Ok (length s)
  | JDict d => Ok (length d)
  | _ => Err TypeError
  end.

(** [v[:n]] *)
Definition py_slice (n : nat) (v : json) : result json :=
  match v with
  | JList l => Ok (JList (firstn n l))
  | JStr s => Ok (JStr (firstn n s))
  | _ => Err TypeError
  end.

(** A number literal that denotes zero: no digit from 1 to 9 before the
    exponent.  (A literal so small that [float] rounds it to 0.0, such as
    1e-400, lies outside this model.) *)
Fixpoint zero_literal (literal : text) : bool :=
  match literal with
  | [] => true
  | c :: more =>
      if ascii_eqb (lower c) "e" then true
      else if between 49 57 (code c) then false
      else if ascii_eqb c "N" || ascii_eqb c "I" then false
      else zero_literal more
  end.

(** [if v:] *)
Definition truthy (v : json) : bool :=
  match v with
  | JNull => false
  | JBool b => b
  | JNum literal => negb (zero_literal literal)
  | JStr s => negb (length s =? 0)
  | JList l => negb (length l =? 0)
  | JDict d => negb (length d =? 0)
  end.

Definition is_str (s : text) (v : json) : bool :=
  match v with
  | JStr x => text_eqb x s
  | _ => false
  end.

(** [[i for i in items if i.get("category") == category]] *)
Fixpoint select_category (category : string) (items : list json)
  : result (list json) :=
  match items with
  | [] => Ok []
  | i :: more =>
      c ← py_get i (str "category") JNull;
      rest ← select_category category more;
      Ok (if is_str (str category) c then i :: rest else rest)
  end.

(** [', '.join(parts)] on parts that are all str. *)
Fixpoint join_strs (parts : list json) : result text :=
  match parts with
  | [] => Ok []
  | JStr s :: more =>
      match more with
      | [] => Ok s
      | _ :: _ => rest ← join_strs more; Ok (s ++ str ", " ++ rest)
      end
  | _ :: _ => Err TypeError
  end.

(** [for item in items: report += line(item)] *)
Fixpoint lines_of (line : json -> result text) (items : list json)
  : result text :=
  match items with
  | [] => Ok []
  | item :: more =>
      l ← line item;
      rest ← lines_of line more;
      Ok (l ++ rest)
  end.

Section Synthesizer.

(** Python's [repr] of a number, a list or a dict: not modelled. *)
Variable py_repr : json -> text.
(** [datetime.now().strftime("%Y-%m-%d %H:%M")] *)
Variable now : text.

(** A value inside an f-string. *)
Definition py_format (v : json) : text :=
  match v with
  | JStr s => s
  | JNull => str "None"
  | JBool true => str "True"
  | JBool false => str "False"
  | _ => py_repr v
  end.

Definition breakthrough_line (item : json) : result text :=
  t ← py_item item (str "title");
  s ← py_item item (str "source");
  m ← py_get item (str "metrics") JNull;
  let head := str "- **" ++ py_format t ++ str "** (" ++ py_format s ++
              str ")" ++ [newline] in
  if truthy m then
    m' ← py_item item (str "metrics");
    Ok (head ++ str "  - Metrics: " ++ py_format m' ++ [newline])
  else Ok head.

Definition customer_line (item : json) : result text :=
  t ← py_item item (str "title");
  s ← py_item item (str "source");
  x ← py_item item (str "summary");
  x' ← py_slice 150 x;
  Ok (str "- **" ++ py_format t ++ str "** (" ++ py_format s ++ str ")" ++
      [newline] ++
      str "  - " ++ py_format x' ++ str "..." ++ [newline]).

Definition use_case_line (item : json) : result text :=
  t ← py_item item (str "title");
  l ← py_item item (str "link");
  Ok (str "- [" ++ py_format t ++ str "](" ++ py_format l ++ str ")" ++
      [newline]).

Definition white_paper_line (item : json) : result text :=
  t ← py_item item (str "title");
  Ok (str "- **" ++ py_format t ++ str "**" ++ [newline]).

Definition email_line (item : json) : result text :=
  s ← py_item item (str "subject");
  f ← py_item item (str "sender");
  f' ← py_slice 30 f;
  a ← py_get item (str "attachments") JNull;
  let head := str "- **" ++ py_format s ++ str "** (from: " ++
              py_format f' ++ str ")" ++ [newline] in
  if truthy a then
    a' ← py_item item (str "attachments");
    parts ← py_iter a';
    joined ← join_strs parts;
    Ok (head ++ str "  - Attachments: " ++ joined ++ [newline])
  else Ok head.

(** The first f-string: title, date, totals, and the header of the
    Breakthroughs section. *)
Definition report_head (n_web n_email n_breakthroughs : nat) : text :=
  str "# Sentinel Intelligence Report" ++ [newline] ++
  str "**Date**: " ++ now ++ [newline] ++
  str "**Items Analyzed**: " ++ dec (n_web + n_email) ++ [newline] ++
  str "**Mode**: Rule-Based Fallback (AI unavailable)" ++ [newline] ++
  [newline] ++
  str "## Executive Summary" ++ [newline] ++
  str "Processed " ++ dec n_web ++ str " web intelligence items and " ++
  dec n_email ++ str " email items. " ++ [newline] ++
  str "This report was generated using keyword-based categorization." ++
  [newline] ++
  [newline] ++
  str "## Breakthroughs (" ++ dec n_breakthroughs ++ str " items)" ++
  [newline].

(** The header of a later section. *)
Definition section_header (name : string) (n : nat) : text :=
  [newline] ++ str "## " ++ str name ++ str " (" ++ dec n ++ str " items)" ++
  [newline].

(** The last f-string. *)
Definition raw_signal_count
           (n_web n_email n_breakthroughs n_customer n_use_cases
            n_white_papers : nat) : text :=
  [newline] ++
  str "## Raw Signal Count" ++ [newline] ++
  str "- Total web items: " ++ dec n_web ++ [newline] ++
  str "- Total email items: " ++ dec n_email ++ [newline] ++
  str "- Breakthroughs: " ++ dec n_breakthroughs ++ [newline] ++
  str "- Customer Improvements: " ++ dec n_customer ++ [newline] ++
  str "- Use Cases: " ++ dec n_use_cases ++ [newline] ++
  str "- White Papers: " ++ dec n_white_papers ++ [newline].

(** The report of the parsed exchange document. *)
Definition build_report (data : json) : result text :=
  web_items ← py_get data (str "web_intelligence") (JList []);
  email_items ← py_get data (str "email_intelligence") (JList []);
  web ← py_iter web_items;
  breakthroughs ← select_category "breakthrough" web;
  use_cases ← select_category "use_case" web;
  customer_items ← select_category "customer_improvement" web;
  white_papers ← select_category "white_paper" web;
  n_web ← py_len web_items;
  n_email ← py_len email_items;
  l1 ← lines_of breakthrough_line (firstn 10 breakthroughs);
  l2 ← lines_of customer_line (firstn 10 customer_items);
  l3 ← lines_of use_case_line (firstn 10 use_cases);
  l4 ← lines_of white_paper_line (firstn 5 white_papers);
  first_emails ← py_slice 5 email_items;
  emails ← py_iter first_emails;
  l5 ← lines_of email_line emails;
  Ok (report_head n_web n_email (length breakthroughs) ++ l1 ++
      section_header "Customer Improvements" (length customer_items) ++ l2 ++
      section_header "Use Cases" (length use_cases) ++ l3 ++
      section_header "White Papers" (length white_papers + n_email) ++
      l4 ++ l5 ++
      raw_signal_count n_web n_email (length breakthroughs)
                       (length customer_items) (length use_cases)
                       (length white_papers)).

(** [try: data = json.loads(...) except: data = {...}]: whatever
    [json.loads] raises, the empty document takes the place of the data. *)
Definition fallback_synthesize (intelligence_data : text) : result text :=
  match json_loads intelligence_data with
  | Ok data => build_report data
  | Err BeyondAlphabet => Err BeyondAlphabet
  | Err _ =>
      build_report (JDict [ (str "web_intelligence", JList []);
                            (str "email_intelligence", JList []) ])
  end.

End Synthesizer.

(* ===================================================================== *)
(** ** Vocabulary of the statements *)
(* ===================================================================== *)

(** [kw] occurs in [s] up to case: some factor of [s] lower-cases to the
    lower-cased keyword. *)
Definition occurs_ci (kw : string) (s : text) : Prop :=
  exists pre w post,
    s = pre ++ w ++ post /\ text_lower w = text_lower (str kw).

Definition has_keyword (keywords : list string) (s : text) : Prop :=
  exists kw, In kw keywords /\ occurs_ci kw s.

(** The keywords of a table are written in lower case. *)
Definition lowercase_table (table : list (string * list string)) : bool :=
  forallb (fun entry =>
             forallb (fun kw => text_eqb (text_lower (str kw)) (str kw))
                     (snd entry))
          table.

(** An absolute URL starts with a scheme: a letter, then letters, digits,
    plus, minus and points, up to a colon. *)
Definition is_letter (c : ascii) : bool :=
  between 65 90 (code c) || between 97 122 (code c).

Fixpoint scheme_tail (s : text) : bool :=
  match s with
  | [] => false
  | c :: s' =>
      if ascii_eqb c ":" then true
      else if is_letter c || is_digit c || ascii_eqb c "+" ||
              ascii_eqb c "-" || ascii_eqb c "."
           then scheme_tail s'
      else false
  end.

Definition has_scheme (s : text) : bool :=
  match s with
  | c :: s' => is_letter c && scheme_tail s'
  | [] => false
  end.

(** The words of a pattern. *)
Fixpoint lang (r : regex) (w : text) : Prop :=
  match r with
  | Eps => w = []
  | Chr p => exists c, w = [c] /\ p c = true
  | Seq a b => exists u v, w = u ++ v /\ lang a u /\ lang b v
  | Alt a b => lang a w \/ lang b w
  | Star a => exists ws, w = concat ws /\ Forall (lang a) ws
  | Grp a => lang a w
  end.

(** A pattern without the group. *)
Fixpoint nogrp (r : regex) : bool :=
  match r with
  | Eps | Chr _ => true
  | Seq a b | Alt a b => nogrp a && nogrp b
  | Star a => nogrp a
  | Grp _ => false
  end.

(** A lower bound on the length of a pattern's words. *)
Fixpoint minw (r : regex) : nat :=
  match r with
  | Eps => 0
  | Chr _ => 1
  | Seq a b => minw a + minw b
  | Alt a b => Nat.min (minw a) (minw b)
  | Star _ => 0
  | Grp a => minw a
  end.

(** [ms] lists the matches of [r] in [s] as [finditer] does: in order of
    occurrence and without overlap; each is the match of [r] at its start;
    and every position at which [r] matches lies inside one of them. *)
Record leftmost_nonoverlapping (r : regex) (s : text) (ms : list match_obj)
  : Prop :=
  { lno_ordered : StronglySorted (fun a b => m_end a <= m_start b) ms;
    lno_match :
      forall m, In m ms ->
        m_start m < m_end m <= length s /\
        exists st, match_at r (skipn (m_start m) s) = Some st /\
                   ms_rest st = skipn (m_end m) s /\
                   group1 st = m_group1 m;
    lno_all :
      forall p, p <= length s -> match_at r (skipn p s) <> None ->
        exists m, In m ms /\ m_start m <= p < m_end m }.

(** The metrics one pattern contributes. *)
Definition metrics_of (metric_type : string) (pattern : regex) (s : text)
  : list Metric :=
  map (fun m => mkMetric metric_type (m_group1 m) (firstn 200 s))
      (finditer pattern s).

(** What [scan] returns from position [pos] on, [skip] positions being
    inside the match found last. *)
Definition scan_ok (r : regex) (s : text) (pos skip : nat)
           (ms : list match_obj) : Prop :=
  StronglySorted (fun a b => m_end a <= m_start b) ms /\
  (forall m, In m ms ->
     pos + skip <= m_start m /\ m_start m < m_end m <= pos + length s /\
     exists st, match_at r (skipn (m_start m - pos) s) = Some st /\
                ms_rest st = skipn (m_end m - pos) s /\
                group1 st = m_group1 m) /\
  (forall i, skip <= i <= length s -> match_at r (skipn i s) <> None ->
     exists m, In m ms /\ m_start m <= pos + i < m_end m).

(** Static facts about a pattern: whether the empty word is one of its
    words, with which characters its words start, and of which characters
    they are made. *)
Fixpoint nullable (r : regex) : bool :=
  match r with
  | Eps => true
  | Chr _ => false
  | Seq a b => nullable a && nullable b
  | Alt a b => nullable a || nullable b
  | Star _ => true
  | Grp a => nullable a
  end.

Fixpoint firstset (r : regex) (c : ascii) : bool :=
  match r with
  | Eps => false
  | Chr p => p c
  | Seq a b => firstset a c || (nullable a && firstset b c)
  | Alt a b => firstset a c || firstset b c
  | Star a => firstset a c
  | Grp a => firstset a c
  end.

Fixpoint charset (r : regex) (c : ascii) : bool :=
  match r with
  | Eps => false
  | Chr p => p c
  | Seq a b | Alt a b => charset a c || charset b c
  | Star a => charset a c
  | Grp a => charset a c
  end.

(** The alphabet, for properties of characters decided by enumeration. *)
Definition all_ascii : list ascii := map ascii_of_nat (seq 0 256).

Definition for_all_ascii (P : ascii -> bool) : bool := forallb P all_ascii.

(** [first r st st']: [st'] is the path the matcher takes first. *)
Definition first (r : regex) (st st' : mstate) : Prop :=
  head (paths r st) = Some st'.

(** The subject starts, up to case, with the first three letters of
    "save" or of "reduce". *)
Definition verb3 (u : text) : bool :=
  match u with
  | c1 :: c2 :: c3 :: _ =>
      (ci "s" c1 && ci "a" c2 && ci "v" c3) ||
      (ci "r" c1 && ci "e" c2 && ci "d" c3)
  | _ => false
  end.

(** Neither an s nor an r. *)
Definition calm (c : ascii) : bool := negb (ci "s" c || ci "r" c).

(** A character at which a number ends. *)
Definition stop (c : ascii) : bool :=
  negb (is_digit c || ci "," c || ci "." c || ci "$" c).

(** The example text of the specification. *)
Definition sample_text : text :=
  str "We reduced latency by 40% and saved 3 hours".

(** What holds of the sweep's state all along: no identifier was fetched
    twice; the identifiers seen are those fetched; the items stem, in
    order, from distinct fetched identifiers. *)
Definition sweep_inv (st : sweep) : Prop :=
  NoDup (fetched st) /\
  (forall id, id ∈ seen_ids st <-> id ∈ fetched st) /\
  exists ids, map gmail_link (items st) = map link_of ids /\
              NoDup ids /\ (forall id, id ∈ ids -> id ∈ fetched st).


(** The keys of a dict literal are pairwise distinct. *)
Fixpoint distinct_keys (keys : list text) : bool :=
  match keys with
  | [] => true
  | k :: more => negb (existsb (text_eqb k) more) && distinct_keys more
  end.

(** Values as [prepare_intelligence_data] builds them: strings, [None],
    lists and dicts with distinct keys; no number. *)
Fixpoint plain (v : json) : bool :=
  match v with
  | JNum _ => false
  | JList l => forallb plain l
  | JDict d =>
      distinct_keys (map fst d) && forallb (fun kv => plain (snd kv)) d
  | _ => true
  end.

(** Enough fuel for the scanner to read a value back. *)
Fixpoint jsize (v : json) : nat :=
  match v with
  | JList l => S (list_sum (map (fun x => S (jsize x)) l))
  | JDict d => S (list_sum (map (fun kv => S (jsize (snd kv))) d))
  | _ => 1
  end.

(** The decimal numeral of a count, as the standard library prints it. *)
Definition decimal (n : nat) : text :=
  str (NilZero.string_of_uint (Nat.to_uint n)).

(** The web items of a category. *)
Definition in_category (name : string) (web_items : list IntelligenceItem)
  : list IntelligenceItem :=
  List.filter (fun item => String.eqb (category item) name) web_items.

(** What the round trip says of one value. *)
Definition reads_back (v : json) : Prop :=
  forall level rest fuel,
    plain v = true -> jsize v <= fuel ->
    parse_value fuel (render level v ++ rest) = Ok (v, rest).

(** [', '.join(parts)] *)
Fixpoint join_texts (parts : list text) : text :=
  match parts with
  | [] => []
  | [s] => s
  | s :: more => s ++ str ", " ++ join_texts more
  end.

(** An item as each section of the fallback report shows it. *)
Definition shown_breakthrough (py_repr : json -> text)
           (item : IntelligenceItem) : text :=
  str "- **" ++ title item ++ str "** (" ++ source item ++ str ")" ++
  [newline] ++
  match metrics item with
  | [] => []
  | _ :: _ =>
      str "  - Metrics: " ++ py_repr (JList (map metric_json (metrics item))) ++
      [newline]
  end.

Definition shown_customer (item : IntelligenceItem) : text :=
  str "- **" ++ title item ++ str "** (" ++ source item ++ str ")" ++
  [newline] ++
  str "  - " ++ firstn 150 (firstn 500 (summary item)) ++ str "..." ++
  [newline].

Definition shown_use_case (item : IntelligenceItem) : text :=
  str "- [" ++ title item ++ str "](" ++ link item ++ str ")" ++ [newline].

Definition shown_white_paper (item : IntelligenceItem) : text :=
  str "- **" ++ title item ++ str "**" ++ [newline].

Definition shown_email (item : EmailIntelligence) : text :=
  str "- **" ++ subject item ++ str "** (from: " ++ firstn 30 (sender item) ++
  str ")" ++ [newline] ++
  match attachments item with
  | [] => []
  | _ :: _ =>
      str "  - Attachments: " ++ join_texts (attachments item) ++ [newline]
  end.

(** The fallback report of the exchange document of these items. *)
Definition report_of (py_repr : json -> text) (now : text)
           (web_items : list IntelligenceItem)
           (email_items : list EmailIntelligence) : text :=
  let breakthroughs := in_category "breakthrough" web_items in
  let use_cases := in_category "use_case" web_items in
  let customer_items := in_category "customer_improvement" web_items in
  let white_papers := in_category "white_paper" web_items in
  report_head now (length web_items) (length email_items)
              (length breakthroughs) ++
  flat_map (shown_breakthrough py_repr) (firstn 10 breakthroughs) ++
  section_header "Customer Improvements" (length customer_items) ++
  flat_map shown_customer (firstn 10 customer_items) ++
  section_header "Use Cases" (length use_cases) ++
  flat_map shown_use_case (firstn 10 use_cases) ++
  section_header "White Papers" (length white_papers + length email_items) ++
  flat_map shown_white_paper (firstn 5 white_papers) ++
  flat_map shown_email (firstn 5 email_items) ++
  raw_signal_count (length web_items) (length email_items)
                   (length breakthroughs) (length customer_items)
                   (length use_cases) (length white_papers).

(* ===================================================================== *)
(** ** Vocabulary: what a pattern's group holds, and letter case *)
(* ===================================================================== *)

(** Every branch of the pattern goes through the group. *)
Fixpoint must_group (r : regex) : bool :=
  match r with
  | Eps | Chr _ | Star _ => false
  | Seq a b => must_group a || must_group b
  | Alt a b => must_group a && must_group b
  | Grp _ => true
  end.

(** The words of every group of the pattern are in [G]. *)
Fixpoint groups_in (G : text -> Prop) (r : regex) : Prop :=
  match r with
  | Eps | Chr _ => True
  | Seq a b | Alt a b => groups_in G a /\ groups_in G b
  | Star a => groups_in G a
  | Grp a => (forall w, lang a w -> G w) /\ groups_in G a
  end.

(** [w] occurs in [s]. *)
Definition factor (w s : text) : Prop := exists pre post, s = pre ++ w ++ post.

(** A digit, a point or a comma. *)
Definition numeral_char (c : ascii) : bool :=
  is_digit c || ascii_eqb c "." || ascii_eqb c ",".

(** What the group holds is a word of a group of the pattern, and a part
    of the subject. *)
Definition group_inv (G : text -> Prop) (s0 : text) (st : mstate) : Prop :=
  (exists pre, s0 = pre ++ ms_rest st) /\
  (forall w, ms_group st = Some w -> G w /\ factor w s0).




(* ===================================================================== *)
(** ** Vocabulary: the order of the categories, what a feed yields *)
(* ===================================================================== *)

(** The place of a name in a list of names; the length of the list for a
    name that is not in it. *)
Fixpoint rank_in (names : list string) (c : string) : nat :=
  match names with
  | [] => 0
  | n :: more => if String.eqb n c then 0 else S (rank_in more c)
  end.

(** The place of a category in the declared order; "general" comes last. *)
Definition category_rank (c : string) : nat :=
  rank_in [ "customer_improvement"; "breakthrough"; "use_case";
            "white_paper" ]%string c.


(** The five names a category can be. *)
Definition category_names : list string :=
  [ "customer_improvement"; "breakthrough"; "use_case"; "white_paper";
    "general" ]%string.

(** What holds of every item the Watchtower builds. *)
Definition wellformed_item (item : IntelligenceItem) : Prop :=
  length (summary item) <= 500 /\
  In (category item) category_names /\
  Forall (fun m => length (metric_context m) <= 200) (metrics item) /\
  raw_content item = None.
(* ===================================================================== *)
(** ** Vocabulary: saved documents, headers, first occurrences *)
(* ===================================================================== *)

(** The part of a message whose document was saved: its name ends with
    ".pdf", its body names an attachment, and the download gave a path.
    The name and the path. *)
Definition saved_document (download_attachment : string -> text -> text -> option text)
           (id : string) (p : part) : option (text * text) :=
  match part_filename p with
  | Some name =>
      if endswith (str ".pdf") name then
        match part_body p with
        | Some (Some (c :: aid)) =>
            match download_attachment id (c :: aid) name with
            | Some (d :: path) => Some (name, d :: path)
            | _ => None
            end
        | _ => None
        end
      else None
  | None => None
  end.

(** The last element of a list. *)
Fixpoint last_of {A : Type} (l : list A) : option A :=
  match l with
  | [] => None
  | [x] => Some x
  | _ :: more => last_of more
  end.

(** The value of the last header of a name. *)
Fixpoint last_header (headers : list (text * text)) (name : text)
  : option text :=
  match headers with
  | [] => None
  | (n, v) :: more =>
      match last_header more name with
      | Some v' => Some v'
      | None => if text_eqb n name then Some v else None
      end
  end.

(** The identifiers in the order in which they occur first; [seen] are
    those met before. *)
Fixpoint first_occurrences (seen ids : list string) : list string :=
  match ids with
  | [] => []
  | id :: more =>
      if existsb (String.eqb id) seen then first_occurrences seen more
      else id :: first_occurrences (id :: seen) more
  end.

(** What a query lists; nothing when the call raises. *)
Definition listed (list_messages : string -> option (list string))
           (query : string) : list string :=
  match list_messages query with
  | Some ids => ids
  | None => []
  end.

(* ===================================================================== *)
(** ** Text lemmas *)
(* ===================================================================== *)

Lemma ascii_eqb_true (a b : ascii) : ascii_eqb a b = true <-> a = b.
Proof. unfold ascii_eqb. apply Ascii.eqb_eq. Qed.

Lemma text_eqb_true (a b : text) : text_eqb a b = true <-> a = b.
Proof.
  revert b. induction a as [|x a IH]; intros [|y b]; simpl; split;
    try congruence; try reflexivity.
  - intros H. apply andb_true_iff in H as [Hx Hab].
    apply ascii_eqb_true in Hx. apply IH in Hab. congruence.
  - intros H. injection H as -> ->. apply andb_true_iff. split.
    + now apply ascii_eqb_true.
    + now apply IH.
Qed.

Lemma startswith_true (p s : text) :
  startswith p s = true <-> exists t, s = p ++ t.
Proof.
  revert s. induction p as [|x p IH]; intros s; simpl.
  - split; [intros _; now exists s | reflexivity].
  - destruct s as [|y s].
    + split; [discriminate | intros [t Ht]; discriminate].
    + rewrite andb_true_iff, ascii_eqb_true, IH. split.
      * intros [-> [t ->]]. now exists t.
      * intros [t Ht]. injection Ht as -> ->. split; [reflexivity | now exists t].
Qed.

Lemma contains_true (kw s : text) :
  contains kw s = true <-> exists pre post, s = pre ++ kw ++ post.
Proof.
  induction s as [|c s IH].
  - simpl. rewrite orb_false_r, startswith_true. split.
    + intros [t Ht]. now exists [], t.
    + intros [pre [post H]]. destruct pre; [now exists post | discriminate].
  - simpl. rewrite orb_true_iff, startswith_true, IH. split.
    + intros [[t Ht] | [pre [post Ht]]].
      * now exists [], t.
      * exists (c :: pre), post. now rewrite Ht.
    + intros [[|c' pre] [post H]].
      * left. now exists post.
      * right. injection H as _ ->. now exists pre, post.
Qed.

(* ===================================================================== *)
(** ** The categoriser *)
(* ===================================================================== *)

Lemma contains_lower_occurs (kw : string) (s : text) :
  text_lower (str kw) = str kw ->
  contains (str kw) (text_lower s) = true <-> occurs_ci kw s.
Proof.
  intros Hkw. rewrite contains_true. unfold occurs_ci, text_lower in *. split.
  - intros [pre [post H]].
    apply map_eq_app in H as [pre' [rest [-> [Hpre Hrest]]]].
    apply map_eq_app in Hrest as [w [post' [-> [Hw Hpost]]]].
    exists pre', w, post'. split; [reflexivity | congruence].
  - intros [pre [w [post [-> Hw]]]].
    exists (map lower pre), (map lower post).
    rewrite !map_app. congruence.
Qed.

Lemma any_keyword_true (keywords : list string) (s : text) :
  (forall kw, In kw keywords -> text_lower (str kw) = str kw) ->
  any_keyword keywords (text_lower s) = true <-> has_keyword keywords s.
Proof.
  unfold has_keyword. induction keywords as [|kw more IH]; intros Hlow; simpl.
  - split; [discriminate | intros [kw [[] _]]].
  - destruct (contains (str kw) (text_lower s)) eqn:Hc.
    + split; [intros _ | reflexivity].
      exists kw. split; [now left |].
      apply contains_lower_occurs; [apply Hlow; now left | assumption].
    + rewrite IH by (intros k Hk; apply Hlow; now right). split.
      * intros [k [Hin Hocc]]. exists k. split; [now right | assumption].
      * intros [k [[<- | Hin] Hocc]].
        -- apply contains_lower_occurs in Hocc; [congruence | apply Hlow; now left].
        -- now exists k.
Qed.

Lemma lowercase_table_spec (table : list (string * list string)) :
  lowercase_table table = true ->
  forall c kws kw, In (c, kws) table -> In kw kws ->
                   text_lower (str kw) = str kw.
Proof.
  unfold lowercase_table. rewrite forallb_forall. intros H c kws kw Hin Hkw.
  specialize (H _ Hin). simpl in H. rewrite forallb_forall in H.
  apply text_eqb_true. now apply H.
Qed.

(** First match wins, over any table of lower-case keywords. *)
Lemma first_category_split (table before after : list (string * list string))
      (cat : string) (kws : list string) (s : text) :
  lowercase_table table = true ->
  table = before ++ (cat, kws) :: after ->
  (forall c k, In (c, k) before -> ~ has_keyword k s) ->
  has_keyword kws s ->
  first_category table (text_lower s) = cat.
Proof.
  intros Hlow -> Hbefore Hhit.
  induction before as [|[c k] before IH]; simpl.
  - replace (any_keyword kws (text_lower s)) with true; [reflexivity |].
    symmetry. apply any_keyword_true; [| assumption].
    intros kw Hkw. eapply lowercase_table_spec; [exact Hlow | | exact Hkw].
    now left.
  - destruct (any_keyword k (text_lower s)) eqn:Hk.
    + exfalso. apply (Hbefore c k); [now left |].
      apply any_keyword_true; [| assumption].
      intros kw Hkw. eapply lowercase_table_spec; [exact Hlow | | exact Hkw].
      now left.
    + apply IH.
      * unfold lowercase_table in *. simpl in Hlow.
        now apply andb_true_iff in Hlow as [_ Hlow].
      * intros c' k' Hin. apply (Hbefore c'). now right.
Qed.

Lemma first_category_none (table : list (string * list string)) (s : text) :
  lowercase_table table = true ->
  (forall c k, In (c, k) table -> ~ has_keyword k s) ->
  first_category table (text_lower s) = "general"%string.
Proof.
  intros Hlow Hnone. induction table as [|[c k] table IH]; simpl.
  - reflexivity.
  - destruct (any_keyword k (text_lower s)) eqn:Hk.
    + exfalso. apply (Hnone c k); [now left |].
      apply any_keyword_true; [| assumption].
      intros kw Hkw. eapply lowercase_table_spec; [exact Hlow | | exact Hkw].
      now left.
    + apply IH.
      * unfold lowercase_table in *. simpl in Hlow.
        now apply andb_true_iff in Hlow as [_ Hlow].
      * intros c' k' Hin. apply (Hnone c'). now right.
Qed.

(** C2. For every text, [categorize_content] returns the first category, in
    the declared order customer_improvement, breakthrough, use_case,
    white_paper, one of whose keywords occurs in the text up to case; when no
    keyword of any category occurs it returns "general"; the empty text is
    "general". *)
Theorem categorize_content_first_match (s : text) :
  map fst CATEGORY_KEYWORDS =
    [ "customer_improvement"; "breakthrough"; "use_case"; "white_paper" ]%string
  /\ (forall before cat kws after,
         CATEGORY_KEYWORDS = before ++ (cat, kws) :: after ->
         (forall c k, In (c, k) before -> ~ has_keyword k s) ->
         has_keyword kws s ->
         categorize_content s = cat)
  /\ ((forall c k, In (c, k) CATEGORY_KEYWORDS -> ~ has_keyword k s) ->
      categorize_content s = "general"%string)
  /\ categorize_content [] = "general"%string.
Proof.
  split; [reflexivity |]. split; [| split].
  - intros before cat kws after Htab Hbefore Hhit.
    unfold categorize_content.
    eapply first_category_split; eauto.
  - intros Hnone. unfold categorize_content.
    now apply first_category_none.
  - reflexivity.
Qed.

Lemma occurs_ci_intro (kw : string) (pre w post : text) :
  text_lower w = text_lower (str kw) -> occurs_ci kw (pre ++ w ++ post).
Proof. intros H. now exists pre, w, post. Qed.

(** A text with a breakthrough keyword ("novel") and a use-case keyword
    ("tutorial") and no customer keyword is a breakthrough. *)
Lemma categorize_content_first_match_witness :
  categorize_content (str "A Tutorial on NOVEL things") = "breakthrough"%string.
Proof.
  refine (proj1 (proj2 (categorize_content_first_match
                          (str "A Tutorial on NOVEL things")))
                (firstn 1 CATEGORY_KEYWORDS) "breakthrough"%string _
                (skipn 2 CATEGORY_KEYWORDS) eq_refl _ _).
  - intros c k [Hin | []]. injection Hin as <- <-.
    intros [kw [Hkw Hocc]].
    assert (Hlow : text_lower (str kw) = str kw).
    { eapply (lowercase_table_spec CATEGORY_KEYWORDS eq_refl); [| exact Hkw].
      now left. }
    apply contains_lower_occurs in Hocc; [| exact Hlow].
    simpl in Hkw.
    repeat (destruct Hkw as [<- | Hkw]; [vm_compute in Hocc; discriminate |]).
    destruct Hkw.
  - exists "novel"%string. split; [simpl; tauto |].
    apply (occurs_ci_intro "novel" (str "A Tutorial on ") (str "NOVEL")
                           (str " things")).
    reflexivity.
Defined.

(* ===================================================================== *)
(** ** The matcher *)
(* ===================================================================== *)

Lemma consumed_app (w t : text) : consumed (w ++ t) t = w.
Proof.
  unfold consumed. rewrite length_app.
  replace (length w + length t - length t) with (length w) by lia.
  rewrite firstn_app, Nat.sub_diag, firstn_all. simpl. apply app_nil_r.
Qed.

Lemma advances_lt (st st' : mstate) :
  advances st st' = true <-> length (ms_rest st') < length (ms_rest st).
Proof. unfold advances. apply Nat.ltb_lt. Qed.

Section StarLoop.

Variable body : mstate -> list mstate.
Variable L : text -> Prop.
Hypothesis body_sound :
  forall st st', In st' (body st) ->
    exists w, ms_rest st = w ++ ms_rest st' /\ L w.

Lemma star_loop_sound (fuel : nat) :
  forall st st', In st' (star_loop body fuel st) ->
    exists ws, ms_rest st = concat ws ++ ms_rest st' /\ Forall L ws.
Proof.
  induction fuel as [|fuel IH]; intros st st' Hin; simpl in Hin.
  - destruct Hin as [<- | []]. now exists [].
  - apply in_app_or in Hin as [Hin | [<- | []]]; [| now exists []].
    apply in_flat_map in Hin as [st1 [H1 Hin]].
    destruct (advances st st1); [| destruct Hin].
    apply body_sound in H1 as [w [Hw HL]].
    apply IH in Hin as [ws [Hws HF]].
    exists (w :: ws). split; [| now constructor].
    simpl. rewrite Hw, Hws. now rewrite app_assoc.
Qed.

End StarLoop.

(** Every path consumes a word of the pattern. *)
Lemma paths_sound (r : regex) :
  forall st st', In st' (paths r st) ->
    exists w, ms_rest st = w ++ ms_rest st' /\ lang r w.
Proof.
  induction r as [|p|a IHa b IHb|a IHa b IHb|a IHa|a IHa];
    intros st st' Hin; simpl in Hin.
  - destruct Hin as [<- | []]. now exists [].
  - destruct (ms_rest st) as [|c s'] eqn:Hs; [destruct Hin |].
    destruct (p c) eqn:Hp; [| destruct Hin].
    destruct Hin as [<- | []]. exists [c]. simpl. eauto.
  - apply in_flat_map in Hin as [st1 [H1 H2]].
    apply IHa in H1 as [u [Hu Lu]]. apply IHb in H2 as [v [Hv Lv]].
    exists (u ++ v). split.
    + now rewrite Hu, Hv, app_assoc.
    + simpl. eauto.
  - apply in_app_or in Hin as [Hin | Hin].
    + apply IHa in Hin as [w [Hw Lw]]. exists w. simpl. auto.
    + apply IHb in Hin as [w [Hw Lw]]. exists w. simpl. auto.
  - apply (star_loop_sound (paths a) (lang a) IHa) in Hin as [ws [Hws HF]].
    exists (concat ws). split; [assumption |]. simpl. eauto.
  - apply in_map_iff in Hin as [st1 [<- H1]].
    apply IHa in H1 as [w [Hw Lw]]. exists w. simpl. auto.
Qed.

Lemma star_loop_group (body : mstate -> list mstate) (fuel : nat) :
  (forall st st', In st' (body st) -> ms_group st' = ms_group st) ->
  forall st st', In st' (star_loop body fuel st) -> ms_group st' = ms_group st.
Proof.
  intros Hbody. induction fuel as [|fuel IH]; intros st st' Hin; simpl in Hin.
  - now destruct Hin as [<- | []].
  - apply in_app_or in Hin as [Hin | [<- | []]]; [| reflexivity].
    apply in_flat_map in Hin as [st1 [H1 Hin]].
    destruct (advances st st1); [| destruct Hin].
    apply IH in Hin. apply Hbody in H1. congruence.
Qed.

(** A pattern without the group leaves the group as it was. *)
Lemma paths_nogrp (r : regex) :
  nogrp r = true ->
  forall st st', In st' (paths r st) -> ms_group st' = ms_group st.
Proof.
  induction r as [|p|a IHa b IHb|a IHa b IHb|a IHa|a IHa];
    simpl; intros Hng st st' Hin.
  - now destruct Hin as [<- | []].
  - destruct (ms_rest st) as [|c s']; [destruct Hin |].
    destruct (p c); [| destruct Hin]. now destruct Hin as [<- | []].
  - apply andb_true_iff in Hng as [Ha Hb].
    apply in_flat_map in Hin as [st1 [H1 H2]].
    apply IHa in H1; [| assumption]. apply IHb in H2; [| assumption].
    congruence.
  - apply andb_true_iff in Hng as [Ha Hb].
    apply in_app_or in Hin as [Hin | Hin]; auto.
  - eapply star_loop_group; eauto.
  - discriminate.
Qed.

(** The group holds the word its pattern consumed. *)
Lemma paths_grp (a : regex) (st st' : mstate) :
  In st' (paths (Grp a) st) ->
  exists w, ms_rest st = w ++ ms_rest st' /\ lang a w /\ ms_group st' = Some w.
Proof.
  simpl. intros Hin. apply in_map_iff in Hin as [st1 [<- H1]].
  apply paths_sound in H1 as [w [Hw Lw]]. exists w. simpl.
  repeat split; try assumption. rewrite Hw. now rewrite consumed_app.
Qed.

Lemma lang_minw (r : regex) (w : text) : lang r w -> minw r <= length w.
Proof.
  revert w. induction r as [|p|a IHa b IHb|a IHa b IHb|a IHa|a IHa];
    simpl; intros w H.
  - lia.
  - destruct H as [c [-> _]]. simpl. lia.
  - destruct H as [u [v [-> [Hu Hv]]]]. rewrite length_app.
    apply IHa in Hu. apply IHb in Hv. lia.
  - destruct H as [H | H]; [apply IHa in H | apply IHb in H]; lia.
  - lia.
  - auto.
Qed.

(** A match of a pattern whose words are not empty advances. *)
Lemma match_at_width (r : regex) (s : text) (st : mstate) :
  match_at r s = Some st ->
  exists w, s = w ++ ms_rest st /\ lang r w /\ width s st = length w.
Proof.
  unfold match_at. intros H.
  assert (Hin : In st (paths r (start_state s))).
  { destruct (paths r (start_state s)); [discriminate |].
    injection H as <-. now left. }
  apply paths_sound in Hin as [w [Hw Lw]]. simpl in Hw.
  exists w. repeat split; try assumption.
  unfold width. rewrite Hw at 1. rewrite length_app. lia.
Qed.

(* ===================================================================== *)
(** ** finditer *)
(* ===================================================================== *)

Lemma match_at_advances (r : regex) (s : text) (st : mstate) :
  1 <= minw r -> match_at r s = Some st ->
  exists k, width s st = S k /\ S k <= length s /\
            ms_rest st = skipn (S k) s.
Proof.
  intros Hmin H. apply match_at_width in H as [w [Hw [Lw Hwid]]].
  apply lang_minw in Lw.
  destruct (length w) as [|k] eqn:Hlen; [lia |].
  exists k. repeat split; try assumption.
  - rewrite Hw, length_app. lia.
  - rewrite Hw at 1. rewrite <- Hlen. rewrite skipn_app, skipn_all, Nat.sub_diag.
    reflexivity.
Qed.

Lemma match_at_nil (r : regex) : 1 <= minw r -> match_at r [] = None.
Proof.
  intros Hmin. destruct (match_at r []) as [st|] eqn:H; [| reflexivity].
  apply (match_at_advances _ _ _ Hmin) in H as [k [_ [Hk _]]]. simpl in Hk. lia.
Qed.

Section Scan.

Variable r : regex.
Hypothesis r_min : 1 <= minw r.

Lemma scan_skip (c : ascii) (s : text) (pos k : nat) :
  scan r (c :: s) pos (S k) = scan r s (S pos) k.
Proof. reflexivity. Qed.

Lemma scan_miss (c : ascii) (s : text) (pos : nat) :
  match_at r (c :: s) = None ->
  scan r (c :: s) pos 0 = scan r s (S pos) 0.
Proof. intros H. simpl. now rewrite H. Qed.

Lemma scan_hit (c : ascii) (s : text) (pos k : nat) (st : mstate) :
  match_at r (c :: s) = Some st -> width (c :: s) st = S k ->
  scan r (c :: s) pos 0 =
  Match pos (pos + S k) (group1 st) :: scan r s (S pos) k.
Proof. intros H Hw. simpl scan. rewrite H, Hw. reflexivity. Qed.

Lemma scan_nil (pos skip : nat) : scan r [] pos skip = [].
Proof.
  destruct skip; [| reflexivity]. simpl. now rewrite (match_at_nil r r_min).
Qed.

Lemma scan_ok_shift (c : ascii) (s : text) (pos k : nat)
      (ms : list match_obj) :
  scan_ok r s (S pos) k ms ->
  StronglySorted (fun a b => m_end a <= m_start b) ms /\
  (forall m, In m ms ->
     pos + S k <= m_start m /\ m_start m < m_end m <= pos + length (c :: s) /\
     exists st, match_at r (skipn (m_start m - pos) (c :: s)) = Some st /\
                ms_rest st = skipn (m_end m - pos) (c :: s) /\
                group1 st = m_group1 m) /\
  (forall i, S k <= i <= length (c :: s) ->
     match_at r (skipn i (c :: s)) <> None ->
     exists m, In m ms /\ m_start m <= pos + i < m_end m).
Proof.
  intros [Hsort [Hm Hall]]. split; [assumption |]. split.
  - intros m Hin. destruct (Hm m Hin) as [Hlo [Hhi [st [Hat [Hrest Hg]]]]].
    simpl length. split; [lia |]. split; [lia |].
    exists st.
    replace (m_start m - pos) with (S (m_start m - S pos)) by lia.
    replace (m_end m - pos) with (S (m_end m - S pos)) by lia.
    simpl. auto.
  - intros i Hi Hne. destruct i as [|i]; [lia |]. simpl in Hi, Hne.
    destruct (Hall i) as [m [Hin Hp]]; [lia | assumption |].
    exists m. split; [assumption | lia].
Qed.

Lemma scan_spec (s : text) :
  forall pos skip,
    skip <= length s -> scan_ok r s pos skip (scan r s pos skip).
Proof.
  induction s as [|c s IH]; intros pos skip Hskip.
  - rewrite scan_nil. simpl in Hskip. split; [constructor |]. split.
    + intros m [].
    + intros i Hi Hne. exfalso. apply Hne.
      replace i with 0 by (simpl in Hi; lia). simpl.
      apply (match_at_nil r r_min).
  - destruct skip as [|k].
    + destruct (match_at r (c :: s)) as [st|] eqn:Hat.
      * destruct (match_at_advances _ _ _ r_min Hat) as [k [Hw [Hk Hrest]]].
        rewrite (scan_hit _ _ _ _ _ Hat Hw).
        simpl in Hk.
        destruct (scan_ok_shift c s pos k _ (IH (S pos) k ltac:(lia)))
          as [Hsort [Hm Hall]].
        split; [| split].
        -- constructor; [assumption |].
           apply List.Forall_forall. intros m Hin.
           destruct (Hm m Hin) as [Hlo _]. simpl. lia.
        -- intros m [<- | Hin].
           ++ simpl m_start. simpl m_end. simpl m_group1. simpl length.
              split; [lia |]. split; [lia |].
              exists st. rewrite Nat.sub_diag.
              replace (pos + S k - pos) with (S k) by lia.
              simpl skipn at 1. auto.
           ++ destruct (Hm m Hin) as [Hlo Hrest']. split; [lia | assumption].
        -- intros i Hi Hne. destruct (Nat.lt_ge_cases i (S k)) as [Hlt | Hge].
           ++ eexists. split; [now left |]. simpl. lia.
           ++ destruct (Hall i ltac:(lia) Hne) as [m [Hin Hp]].
              exists m. split; [now right | assumption].
      * rewrite (scan_miss _ _ _ Hat).
        destruct (scan_ok_shift c s pos 0 _ (IH (S pos) 0 ltac:(lia)))
          as [Hsort [Hm Hall]].
        split; [assumption |]. split.
        -- intros m Hin. destruct (Hm m Hin) as [Hlo Hrest']. split; [lia | assumption].
        -- intros i Hi Hne. destruct i as [|i].
           ++ simpl in Hne. congruence.
           ++ apply Hall; [lia | assumption].
    + rewrite scan_skip. apply scan_ok_shift. apply IH. simpl in Hskip. lia.
Qed.

(** [finditer] lists the leftmost non-overlapping matches. *)
Lemma finditer_spec (s : text) : leftmost_nonoverlapping r s (finditer r s).
Proof.
  destruct (scan_spec s 0 0 ltac:(lia)) as [Hsort [Hm Hall]].
  unfold finditer. constructor.
  - assumption.
  - intros m Hin. destruct (Hm m Hin) as [_ [Hb [st Hst]]].
    rewrite !Nat.sub_0_r in Hst. split; [lia | eauto].
  - intros p Hp Hne. apply (Hall p); [lia | assumption].
Qed.

End Scan.

(* ===================================================================== *)
(** ** The matcher misses no word *)
(* ===================================================================== *)

Lemma star_loop_exit (body : mstate -> list mstate) (fuel : nat) (st : mstate) :
  In st (star_loop body fuel st).
Proof.
  destruct fuel; simpl; [now left |]. apply in_or_app. right. now left.
Qed.

Lemma star_loop_complete (a : regex) :
  (forall w, lang a w -> forall t g,
      exists g', In (MState t g') (paths a (MState (w ++ t) g))) ->
  forall ws, Forall (lang a) ws ->
  forall fuel t g, length (concat ws ++ t) <= fuel ->
    exists g', In (MState t g')
                  (star_loop (paths a) fuel (MState (concat ws ++ t) g)).
Proof.
  intros Ha ws HF. induction HF as [|u ws Hu HF IH]; intros fuel t g Hfuel.
  - exists g. apply star_loop_exit.
  - destruct u as [|c u].
    + simpl. now apply IH.
    + assert (Heq : concat ((c :: u) :: ws) ++ t = (c :: u) ++ (concat ws ++ t))
        by (simpl; now rewrite app_assoc).
      rewrite Heq in *.
      destruct fuel as [|fuel]; [simpl in Hfuel; lia |].
      destruct (Ha _ Hu (concat ws ++ t) g) as [g1 H1].
      destruct (IH fuel t g1) as [g' H'].
      { simpl in Hfuel. rewrite !length_app in *. lia. }
      exists g'. simpl star_loop. apply in_or_app. left.
      apply in_flat_map. exists (MState (concat ws ++ t) g1).
      split; [exact H1 |].
      replace (advances _ _) with true; [exact H' |].
      symmetry. apply advances_lt. simpl. rewrite !length_app. lia.
Qed.

Lemma paths_complete (r : regex) :
  forall w, lang r w -> forall t g,
    exists g', In (MState t g') (paths r (MState (w ++ t) g)).
Proof.
  induction r as [|p|a IHa b IHb|a IHa b IHb|a IHa|a IHa];
    simpl; intros w H t g.
  - subst w. exists g. now left.
  - destruct H as [c [-> Hp]]. simpl. rewrite Hp. exists g. now left.
  - destruct H as [u [v [-> [Hu Hv]]]]. rewrite <- app_assoc.
    destruct (IHa _ Hu (v ++ t) g) as [g1 H1].
    destruct (IHb _ Hv t g1) as [g2 H2].
    exists g2. apply in_flat_map. eauto.
  - destruct H as [H | H].
    + destruct (IHa _ H t g) as [g' H']. exists g'. apply in_or_app. auto.
    + destruct (IHb _ H t g) as [g' H']. exists g'. apply in_or_app. auto.
  - destruct H as [ws [-> HF]].
    apply (star_loop_complete a IHa ws HF). reflexivity.
  - destruct (IHa _ H t g) as [g' H']. eexists. apply in_map_iff.
    eexists. split; [| exact H']. reflexivity.
Qed.

Lemma match_at_complete (r : regex) (w t : text) :
  lang r w -> match_at r (w ++ t) <> None.
Proof.
  intros H. destruct (paths_complete r w H t None) as [g' Hin].
  unfold match_at, start_state. destruct (paths r _); [destruct Hin | discriminate].
Qed.

(* ===================================================================== *)
(** ** extract_metrics *)
(* ===================================================================== *)

Lemma append_matches_app (ty : string) (s : text) (matches : list text)
      (metrics : list Metric) :
  append_matches ty s matches metrics =
  metrics ++ map (fun v => mkMetric ty v (firstn 200 s)) matches.
Proof.
  revert metrics. induction matches as [|m more IH]; intros metrics; simpl.
  - now rewrite app_nil_r.
  - rewrite IH, <- app_assoc. reflexivity.
Qed.

Lemma scan_patterns_app (patterns : list (string * regex)) (s : text)
      (metrics : list Metric) :
  scan_patterns patterns s metrics =
  metrics ++ flat_map (fun tp => metrics_of (fst tp) (snd tp) s) patterns.
Proof.
  revert metrics. induction patterns as [|[ty pat] more IH]; intros metrics; simpl.
  - now rewrite app_nil_r.
  - rewrite IH, append_matches_app, <- app_assoc. f_equal. f_equal.
    unfold metrics_of, findall. now rewrite map_map.
Qed.

Lemma extract_metrics_by_type (s : text) :
  extract_metrics s =
  metrics_of "percentage" percentage_re s ++
  metrics_of "multiplier" multiplier_re s ++
  metrics_of "time_savings" time_savings_re s ++
  metrics_of "cost_savings" cost_savings_re s.
Proof.
  unfold extract_metrics. rewrite scan_patterns_app. simpl.
  now rewrite app_nil_r.
Qed.

Lemma METRIC_PATTERNS_advance (ty : string) (pat : regex) :
  In (ty, pat) METRIC_PATTERNS -> 1 <= minw pat.
Proof.
  simpl. intros [H | [H | [H | [H | []]]]]; injection H as _ <-;
    vm_compute; lia.
Qed.

Lemma metrics_of_nil (ty : string) (pat : regex) (s : text) :
  1 <= minw pat ->
  (forall p, p <= length s -> match_at pat (skipn p s) = None) ->
  metrics_of ty pat s = [].
Proof.
  intros Hmin Hnone. unfold metrics_of.
  destruct (finditer pat s) as [|m ms] eqn:Hms; [reflexivity |].
  destruct (finditer_spec pat Hmin s) as [_ Hm _].
  destruct (Hm m) as [Hb [st [Hat _]]]; [rewrite Hms; now left |].
  rewrite Hnone in Hat; [discriminate | lia].
Qed.

(** C3. For every text, [extract_metrics] returns, pattern type after
    pattern type in the declared order percentage, multiplier, time_savings,
    cost_savings, the group of every match that [finditer] lists; for each
    pattern these are the non-overlapping matches in order of occurrence,
    each the pattern's match at its start, and every position at which a
    word of the pattern starts lies inside one of them; every Metric's
    context is the first 200 characters of the text; and a text in which no
    pattern matches anywhere yields the empty sequence. *)
Theorem extract_metrics_all_matches (s : text) :
  map fst METRIC_PATTERNS =
    [ "percentage"; "multiplier"; "time_savings"; "cost_savings" ]%string
  /\ extract_metrics s =
       flat_map (fun tp => metrics_of (fst tp) (snd tp) s) METRIC_PATTERNS
  /\ (forall ty pat, In (ty, pat) METRIC_PATTERNS ->
        leftmost_nonoverlapping pat s (finditer pat s) /\
        forall p w t, skipn p s = w ++ t -> p <= length s -> lang pat w ->
          exists m, In m (finditer pat s) /\ m_start m <= p < m_end m)
  /\ Forall (fun m => metric_context m = firstn 200 s) (extract_metrics s)
  /\ ((forall ty pat p, In (ty, pat) METRIC_PATTERNS -> p <= length s ->
         match_at pat (skipn p s) = None) ->
      extract_metrics s = []).
Proof.
  split; [reflexivity |]. split; [| split; [| split]].
  - rewrite extract_metrics_by_type. simpl. now rewrite app_nil_r.
  - intros ty pat Hin. pose proof (METRIC_PATTERNS_advance ty pat Hin) as Hmin.
    split; [now apply finditer_spec |].
    intros p w t Hp Hlen Hw.
    destruct (finditer_spec pat Hmin s) as [_ _ Hall].
    apply Hall; [assumption |]. rewrite Hp. now apply match_at_complete.
  - rewrite extract_metrics_by_type. unfold metrics_of.
    rewrite !List.Forall_app. repeat split;
      apply List.Forall_forall; intros m Hin;
      apply in_map_iff in Hin as [x [<- _]]; reflexivity.
  - intros Hnone. rewrite extract_metrics_by_type.
    rewrite !metrics_of_nil; try reflexivity;
      try (intros p Hp; eapply Hnone; [| exact Hp]; simpl; eauto 6);
      vm_compute; lia.
Qed.

Lemma no_match_anywhere (pat : regex) (s : text) :
  forallb (fun p => match match_at pat (skipn p s) with
                    | None => true
                    | Some _ => false
                    end) (seq 0 (S (length s))) = true ->
  forall p, p <= length s -> match_at pat (skipn p s) = None.
Proof.
  intros H p Hp. rewrite forallb_forall in H.
  specialize (H p). destruct (match_at pat (skipn p s)); [| reflexivity].
  assert (false = true); [| discriminate].
  apply H. apply in_seq. lia.
Qed.

(** A text without numbers has no metric. *)
Lemma extract_metrics_all_matches_witness :
  extract_metrics (str "Nothing was measured") = [].
Proof.
  apply (proj2 (proj2 (proj2 (proj2
          (extract_metrics_all_matches (str "Nothing was measured")))))).
  intros ty pat p Hin. apply no_match_anywhere. revert ty pat Hin.
  simpl. intros ty pat [H | [H | [H | [H | []]]]]; injection H as _ <-;
    vm_compute; reflexivity.
Defined.

(* ===================================================================== *)
(** ** Static analysis of patterns *)
(* ===================================================================== *)

Lemma all_ascii_complete (c : ascii) : In c all_ascii.
Proof.
  unfold all_ascii. apply in_map_iff. exists (nat_of_ascii c). split.
  - apply ascii_nat_embedding.
  - apply in_seq. pose proof (nat_ascii_bounded c). lia.
Qed.

Lemma for_all_ascii_spec (P : ascii -> bool) :
  for_all_ascii P = true -> forall c, P c = true.
Proof.
  unfold for_all_ascii. rewrite forallb_forall. intros H c.
  apply H, all_ascii_complete.
Qed.

Lemma lang_first (r : regex) (w : text) :
  lang r w ->
  match w with
  | [] => nullable r = true
  | c :: _ => firstset r c = true
  end.
Proof.
  revert w. induction r as [|p|a IHa b IHb|a IHa b IHb|a IHa|a IHa];
    simpl; intros w H.
  - now subst w.
  - now destruct H as [c [-> Hp]].
  - destruct H as [u [v [-> [Hu Hv]]]].
    apply IHa in Hu. apply IHb in Hv.
    destruct u as [|c u]; simpl.
    + destruct v as [|c v]; rewrite Hu; simpl; [assumption |].
      rewrite Hv. apply orb_true_r.
    + now rewrite Hu.
  - destruct H as [H | H]; [apply IHa in H | apply IHb in H];
      destruct w; rewrite H; auto using orb_true_r.
  - destruct H as [ws [-> HF]]. induction HF as [|u ws Hu HF IH]; simpl.
    + reflexivity.
    + apply IHa in Hu. destruct u as [|c u]; simpl; assumption.
  - now apply IHa.
Qed.

Lemma lang_charset (r : regex) (w : text) :
  lang r w -> Forall (fun c => charset r c = true) w.
Proof.
  revert w. induction r as [|p|a IHa b IHb|a IHa b IHb|a IHa|a IHa];
    simpl; intros w H.
  - subst w. constructor.
  - destruct H as [c [-> Hp]]. now repeat constructor.
  - destruct H as [u [v [-> [Hu Hv]]]].
    apply IHa in Hu. apply IHb in Hv. apply List.Forall_app. split.
    + eapply List.Forall_impl; [| exact Hu]. simpl. intros c ->. reflexivity.
    + eapply List.Forall_impl; [| exact Hv]. simpl. intros c ->.
      apply orb_true_r.
  - destruct H as [H | H]; [apply IHa in H | apply IHb in H];
      (eapply List.Forall_impl; [| exact H]); simpl; intros c ->;
      auto using orb_true_r.
  - destruct H as [ws [-> HF]]. induction HF as [|u ws Hu HF IH]; simpl.
    + constructor.
    + apply List.Forall_app. split; [now apply IHa | assumption].
  - now apply IHa.
Qed.

(** From the characters of a pattern to any property they all have. *)
Lemma lang_chars (r : regex) (P : ascii -> bool) (w : text) :
  for_all_ascii (fun c => implb (charset r c) (P c)) = true ->
  lang r w -> Forall (fun c => P c = true) w.
Proof.
  intros Hall H. apply lang_charset in H.
  eapply List.Forall_impl; [| exact H]. simpl. intros c Hc.
  pose proof (for_all_ascii_spec _ Hall c) as Hi. simpl in Hi.
  now rewrite Hc in Hi.
Qed.

(** A pattern that accepts the empty word has a path that stays put. *)
Lemma nullable_stays (r : regex) :
  nullable r = true -> nogrp r = true -> forall st, In st (paths r st).
Proof.
  induction r as [|p|a IHa b IHb|a IHa b IHb|a IHa|a IHa];
    simpl; intros Hn Hg st.
  - now left.
  - discriminate.
  - apply andb_true_iff in Hn as [Hna Hnb].
    apply andb_true_iff in Hg as [Hga Hgb].
    apply in_flat_map. exists st. auto.
  - apply andb_true_iff in Hg as [Hga Hgb]. apply in_or_app.
    apply orb_true_iff in Hn as [Hn | Hn]; auto.
  - apply star_loop_exit.
  - discriminate.
Qed.

(* ===================================================================== *)
(** ** The path the matcher takes first *)
(* ===================================================================== *)

Lemma first_in (r : regex) (st st' : mstate) :
  first r st st' -> In st' (paths r st).
Proof.
  unfold first. destruct (paths r st); [discriminate |].
  intros H. injection H as <-. now left.
Qed.

Lemma first_exists (r : regex) (st : mstate) :
  paths r st <> [] -> exists st', first r st st'.
Proof.
  unfold first. destruct (paths r st) as [|st' l]; [congruence |]. eauto.
Qed.

Lemma first_eps (st : mstate) : first Eps st st.
Proof. reflexivity. Qed.

Lemma first_chr (p : ascii -> bool) (c : ascii) (t : text) (g : option text) :
  p c = true -> first (Chr p) (MState (c :: t) g) (MState t g).
Proof. intros H. unfold first. simpl. now rewrite H. Qed.

Lemma fail_chr (p : ascii -> bool) (c : ascii) (t : text) (g : option text) :
  p c = false -> paths (Chr p) (MState (c :: t) g) = [].
Proof. intros H. simpl. now rewrite H. Qed.

Lemma first_seq (a b : regex) (st st1 st2 : mstate) :
  first a st st1 -> first b st1 st2 -> first (Seq a b) st st2.
Proof.
  unfold first. simpl. destruct (paths a st) as [|x l]; [discriminate |].
  intros H. injection H as ->. simpl.
  destruct (paths b st1) as [|y l']; [discriminate |].
  intros H. injection H as ->. reflexivity.
Qed.

Lemma fail_seq (a b : regex) (st : mstate) :
  paths a st = [] -> paths (Seq a b) st = [].
Proof. intros H. simpl. now rewrite H. Qed.

Lemma first_alt_l (a b : regex) (st st' : mstate) :
  first a st st' -> first (Alt a b) st st'.
Proof.
  unfold first. simpl. destruct (paths a st); [discriminate |].
  intros H. injection H as ->. reflexivity.
Qed.

Lemma first_alt_r (a b : regex) (st st' : mstate) :
  paths a st = [] -> first b st st' -> first (Alt a b) st st'.
Proof. unfold first. simpl. now intros ->. Qed.

Lemma first_star_zero (a : regex) (st : mstate) :
  paths a st = [] -> first (Star a) st st.
Proof.
  unfold first. simpl. intros H.
  destruct (length (ms_rest st)); simpl; [reflexivity |]. now rewrite H.
Qed.

Lemma first_grp (a : regex) (w t : text) (g g' : option text) :
  first a (MState (w ++ t) g) (MState t g') ->
  first (Grp a) (MState (w ++ t) g) (MState t (Some w)).
Proof.
  unfold first. simpl. destruct (paths a _) as [|x l]; [discriminate |].
  intros H. injection H as ->. simpl. rewrite consumed_app. reflexivity.
Qed.

(** A greedy run over a class of characters goes to the end of the run. *)
Lemma first_star_run (p : ascii -> bool) (run t : text) (g : option text) :
  Forall (fun c => p c = true) run ->
  match t with [] => True | c :: _ => p c = false end ->
  first (Star (Chr p)) (MState (run ++ t) g) (MState t g).
Proof.
  intros Hrun Ht. unfold first. simpl paths.
  assert (Hgen : forall fuel, length (run ++ t) <= fuel ->
            head (star_loop (paths (Chr p)) fuel (MState (run ++ t) g))
            = Some (MState t g)).
  { induction Hrun as [|c run Hc Hrun IH]; intros fuel Hfuel.
    - simpl app. destruct fuel as [|fuel]; [reflexivity |].
      simpl. destruct t as [|c t]; [reflexivity |]. now rewrite Ht.
    - destruct fuel as [|fuel]; [simpl in Hfuel; lia |].
      simpl. rewrite Hc. simpl.
      replace (advances _ _) with true
        by (symmetry; apply advances_lt; simpl; lia).
      rewrite app_nil_r.
      specialize (IH fuel ltac:(simpl in Hfuel; lia)).
      destruct (star_loop _ fuel _); [discriminate |].
      simpl in *. assumption. }
  now apply Hgen.
Qed.

Lemma first_plus_run (p : ascii -> bool) (run t : text) (g : option text) :
  run <> [] ->
  Forall (fun c => p c = true) run ->
  match t with [] => True | c :: _ => p c = false end ->
  first (Plus (Chr p)) (MState (run ++ t) g) (MState t g).
Proof.
  intros Hne Hrun Ht. destruct run as [|c run]; [congruence |].
  inversion Hrun as [|? ? Hc Hrun']; subst.
  eapply first_seq.
  - simpl app. apply first_chr. exact Hc.
  - now apply first_star_run.
Qed.

Lemma lang_star_chr (p : ascii -> bool) (w : text) :
  lang (Star (Chr p)) w -> Forall (fun c => p c = true) w.
Proof.
  intros H. eapply List.Forall_impl; [| exact (lang_charset _ _ H)].
  simpl. auto.
Qed.

Lemma lang_plus_chr (p : ascii -> bool) (w : text) :
  lang (Plus (Chr p)) w -> w <> [] /\ Forall (fun c => p c = true) w.
Proof.
  intros H. split.
  - apply lang_minw in H. simpl in H. destruct w; [simpl in H; lia | discriminate].
  - eapply List.Forall_impl; [| exact (lang_charset _ _ H)].
    simpl. intros c Hc. now destruct (p c).
Qed.

(* ===================================================================== *)
(** ** Literals, and facts about characters *)
(* ===================================================================== *)

Lemma ascii_implies (P Q : ascii -> bool) :
  for_all_ascii (fun c => implb (P c) (Q c)) = true ->
  forall c, P c = true -> Q c = true.
Proof.
  intros H c Hp. pose proof (for_all_ascii_spec _ H c) as Hi. simpl in Hi.
  now rewrite Hp in Hi.
Qed.

Lemma ascii_excludes (P Q : ascii -> bool) :
  for_all_ascii (fun c => implb (P c) (negb (Q c))) = true ->
  forall c, P c = true -> Q c = false.
Proof.
  intros H c Hp. apply negb_true_iff.
  now apply (ascii_implies P (fun c => negb (Q c)) H).
Qed.

(** Closes [P c = true -> Q c = true] and [P c = true -> Q c = false] by
    going through the alphabet. *)
Ltac by_enumeration :=
  first [ apply ascii_excludes | apply ascii_implies ];
  vm_compute; reflexivity.

Lemma lang_word (w u : text) :
  lang (word w) u <-> Forall2 (fun c x => ci c x = true) w u.
Proof.
  revert u. induction w as [|c w IH]; intros u; simpl.
  - split.
    + intros ->. constructor.
    + intros H. now inversion H.
  - split.
    + intros [a [b [-> [[x [-> Hx]] Hb]]]]. simpl. constructor; [assumption |].
      now apply IH.
    + intros H. inversion H as [|? x ? u' Hx Hu]; subst.
      exists [x], u'. split; [reflexivity |]. split; [eauto |]. now apply IH.
Qed.

Lemma paths_word (w u t : text) (g : option text) :
  Forall2 (fun c x => ci c x = true) w u ->
  paths (word w) (MState (u ++ t) g) = [MState t g].
Proof.
  intros H. induction H as [|c x w u Hx Hu IH]; simpl.
  - reflexivity.
  - rewrite Hx. simpl. rewrite app_nil_r. exact IH.
Qed.

Lemma first_word (w u t : text) (g : option text) :
  lang (word w) u -> first (word w) (MState (u ++ t) g) (MState t g).
Proof.
  intros H. apply lang_word in H. unfold first. now rewrite paths_word.
Qed.

Lemma fail_word (c x : ascii) (w t : text) (g : option text) :
  ci c x = false -> paths (word (c :: w)) (MState (x :: t) g) = [].
Proof. intros H. simpl. now rewrite H. Qed.

Lemma fail_word_nil (c : ascii) (w : text) (g : option text) :
  paths (word (c :: w)) (MState [] g) = [].
Proof. reflexivity. Qed.

(** An optional literal that the subject does not start with is skipped. *)
Lemma first_opt_skip (c : ascii) (w t : text) (g : option text) :
  match t with [] => True | x :: _ => ci c x = false end ->
  first (Opt (word (c :: w))) (MState t g) (MState t g).
Proof.
  intros H. apply first_alt_r; [| apply first_eps].
  destruct t as [|x t]; [apply fail_word_nil | now apply fail_word].
Qed.

(** [saved?|reduced?] before a space stops at that space. *)
Lemma first_saved_or_reduced (vb t : text) (x : ascii) (g : option text) :
  lang saved_or_reduced vb -> is_space x = true ->
  first saved_or_reduced (MState (vb ++ x :: t) g) (MState (x :: t) g).
Proof.
  intros H Hx.
  assert (Hd : ci "d" x = false).
  { revert Hx. by_enumeration. }
  assert (Htail : forall v, lang (Opt (lit "d")) v ->
            first (Opt (lit "d")) (MState (v ++ x :: t) g) (MState (x :: t) g)).
  { intros v [Hv | Hv].
    - apply first_alt_l. now apply first_word.
    - simpl in Hv. subst v. now apply (first_opt_skip "d" []). }
  destruct H as [[u [v [-> [Hu Hv]]]] | [u [v [-> [Hu Hv]]]]];
    rewrite <- app_assoc.
  - apply first_alt_l. eapply first_seq; [now apply first_word | now apply Htail].
  - apply first_alt_r.
    + apply fail_seq. apply lang_word in Hu.
      inversion Hu as [|? c ? u' Hc Hu']; subst. apply fail_word.
      revert Hc. by_enumeration.
    + eapply first_seq; [now apply first_word | now apply Htail].
Qed.

(** [(?:saved?|reduced?)\s+] goes to the end of the white space. *)
Lemma first_verb_spaces (v t : text) (g : option text) :
  lang (Seq saved_or_reduced spaces1) v ->
  match t with [] => True | c :: _ => is_space c = false end ->
  first (Seq saved_or_reduced spaces1) (MState (v ++ t) g) (MState t g).
Proof.
  intros [vb [ws [-> [Hvb Hws]]]] Ht.
  apply lang_plus_chr in Hws as [Hne Hws].
  destruct ws as [|x ws]; [congruence |].
  rewrite <- app_assoc. eapply first_seq.
  - apply first_saved_or_reduced; [assumption |]. now inversion Hws.
  - now apply (first_plus_run is_space (x :: ws)).
Qed.

(** A match of a pattern [pre (group) post]: the three words it read, and
    what the group holds. *)
Lemma match_at_grouped (pre g post : regex) (s : text) (st : mstate) :
  nogrp post = true ->
  match_at (Seq pre (Seq (Grp g) post)) s = Some st ->
  exists v n u,
    s = v ++ n ++ u ++ ms_rest st /\
    lang pre v /\ lang g n /\ lang post u /\ group1 st = n.
Proof.
  intros Hpost H.
  apply (first_in _ (start_state s)) in H. simpl in H.
  apply in_flat_map in H as [st1 [H1 H]].
  apply in_flat_map in H as [st2 [H2 H3]].
  apply paths_sound in H1 as [v [Hv Lv]].
  apply paths_grp in H2 as [n [Hn [Ln Hg]]].
  pose proof (paths_nogrp _ Hpost _ _ H3) as Hg3.
  apply paths_sound in H3 as [u [Hu Lu]].
  exists v, n, u. simpl in Hv. split.
  - now rewrite Hv, Hn, Hu.
  - repeat split; try assumption. unfold group1. now rewrite Hg3, Hg.
Qed.

(* ===================================================================== *)
(** ** Where time_savings matches, cost_savings matches with the same
       number *)
(* ===================================================================== *)

(** After the number of a time_savings match comes white space or the unit:
    a character at which a number ends. *)
Lemma time_tail_stop (u : text) :
  lang (Seq spaces time_unit) u ->
  exists x u', u = x :: u' /\ stop x = true.
Proof.
  intros H. apply lang_first in H. destruct u as [|x u'].
  - vm_compute in H. discriminate.
  - exists x, u'. split; [reflexivity |]. revert H.
    by_enumeration.
Qed.

Lemma stop_not_digit (x : ascii) : stop x = true -> is_digit x = false.
Proof. by_enumeration. Qed.

Lemma stop_not_comma (x : ascii) : stop x = true -> ci "," x = false.
Proof. by_enumeration. Qed.

Lemma stop_not_dot (x : ascii) : stop x = true -> ci "." x = false.
Proof. by_enumeration. Qed.

Lemma dot_not_digit (x : ascii) : ci "." x = true -> is_digit x = false.
Proof. by_enumeration. Qed.

Lemma dot_not_comma (x : ascii) : ci "." x = true -> ci "," x = false.
Proof. by_enumeration. Qed.

Lemma digit_not_space (x : ascii) : is_digit x = true -> is_space x = false.
Proof. by_enumeration. Qed.

Lemma digit_not_dollar (x : ascii) : is_digit x = true -> ci "$" x = false.
Proof. by_enumeration. Qed.

(** The fraction of a number, read by [(?:\.\d+)?]. *)
Lemma first_fraction (f t : text) (x : ascii) (g : option text) :
  lang (Opt (Seq (lit ".") digits)) f -> stop x = true ->
  first (Opt (Seq (lit ".") digits)) (MState (f ++ x :: t) g)
        (MState (x :: t) g).
Proof.
  intros [[a [d2 [-> [Ha Hd2]]]] | ->] Hx.
  - apply first_alt_l. rewrite <- app_assoc. eapply first_seq.
    + now apply first_word.
    + apply lang_plus_chr in Hd2 as [Hne Hd2].
      apply first_plus_run; try assumption. now apply stop_not_digit.
  - simpl app. apply first_alt_r; [| apply first_eps].
    apply fail_seq. apply fail_word. now apply stop_not_dot.
Qed.

(** A number followed by a stop character, read as an amount. *)
Lemma first_amount (n t : text) (x : ascii) (g : option text) :
  lang number n -> stop x = true ->
  first amount (MState (n ++ x :: t) g) (MState (x :: t) g).
Proof.
  intros [d [f [-> [Hd Hf]]]] Hx. rewrite <- app_assoc.
  apply lang_plus_chr in Hd as [Hne Hd].
  assert (Hhead : exists y rest, f ++ x :: t = y :: rest /\
                                  is_digit y = false /\ ci "," y = false).
  { destruct Hf as [[a [d2 [-> [Ha _]]]] | ->].
    - apply lang_word in Ha. inversion Ha as [|? y ? a' Hy Ha']; subst.
      inversion Ha'; subst. simpl. eexists _, _. split; [reflexivity |].
      split; [now apply dot_not_digit | now apply dot_not_comma].
    - simpl. eexists _, _. split; [reflexivity |].
      split; [now apply stop_not_digit | now apply stop_not_comma]. }
  destruct Hhead as [y [rest [Heq [Hy1 Hy2]]]].
  eapply first_seq; [| eapply first_seq].
  - apply first_plus_run; try assumption. now rewrite Heq.
  - apply first_star_zero. rewrite Heq. apply fail_seq. now apply fail_word.
  - now apply first_fraction.
Qed.

Lemma number_starts_with_digit (n : text) :
  lang number n -> exists c n', n = c :: n' /\ is_digit c = true.
Proof.
  intros H. apply lang_first in H. destruct n as [|c n'].
  - vm_compute in H. discriminate.
  - exists c, n'. split; [reflexivity |]. revert H.
    by_enumeration.
Qed.

(** Where the time_savings pattern can match, the cost_savings pattern
    matches and its group holds the same number. *)
Lemma cost_after_time (v n u t : text) :
  lang (Seq saved_or_reduced spaces1) v ->
  lang number n ->
  lang (Seq spaces time_unit) u ->
  exists st, match_at cost_savings_re (v ++ n ++ u ++ t) = Some st /\
             group1 st = n.
Proof.
  intros Hv Hn Hu.
  destruct (time_tail_stop u Hu) as [x [u' [-> Hx]]].
  destruct (number_starts_with_digit n Hn) as [c [n' [Hn' Hc]]].
  set (st3 := MState ((x :: u') ++ t) (Some n)).
  assert (Htail : exists st, first (Seq spaces magnitude) st3 st /\
                             ms_group st = Some n).
  { destruct (first_exists (Seq spaces magnitude) st3) as [st Hst].
    - intros Hnil.
      pose proof (nullable_stays (Seq spaces magnitude) eq_refl eq_refl st3) as Hin.
      rewrite Hnil in Hin. destruct Hin.
    - exists st. split; [assumption |].
      apply first_in in Hst. now apply paths_nogrp in Hst. }
  destruct Htail as [st [Hst Hg]].
  exists st. split; [| unfold group1; now rewrite Hg].
  unfold match_at, start_state. fold (first cost_savings_re
    (MState (v ++ n ++ (x :: u') ++ t) None) st).
  unfold cost_savings_re.
  eapply first_seq; [| eapply first_seq; [| eapply first_seq]].
  - apply first_verb_spaces; [assumption |]. rewrite Hn'. simpl.
    now apply digit_not_space.
  - apply (first_opt_skip "$" []). rewrite Hn'. simpl.
    now apply digit_not_dollar.
  - eapply first_grp. simpl app. now apply first_amount.
  - exact Hst.
Qed.

(* ===================================================================== *)
(** ** No time_savings match starts inside a cost_savings match *)
(* ===================================================================== *)

Lemma saved_or_reduced_shape (vb : text) :
  lang saved_or_reduced vb ->
  exists c1 c2 c3 rest,
    vb = c1 :: c2 :: c3 :: rest /\
    verb3 (c1 :: c2 :: c3 :: rest) = true /\
    Forall (fun c => calm c = true) (c2 :: c3 :: rest).
Proof.
  intros [[u [v [-> [Hu Hv]]]] | [u [v [-> [Hu Hv]]]]];
    apply lang_word in Hu;
    inversion Hu as [|? c1 ? u1 H1 Hu1]; subst;
    inversion Hu1 as [|? c2 ? u2 H2 Hu2]; subst;
    inversion Hu2 as [|? c3 ? u3 H3 Hu3]; subst;
    exists c1, c2, c3, (u3 ++ v); (split; [reflexivity |]); split.
  - simpl. now rewrite H1, H2, H3.
  - apply (lang_chars (Seq (lit "ave") (Opt (lit "d"))));
      [vm_compute; reflexivity |].
    exists (c2 :: c3 :: u3), v. split; [reflexivity |]. split; [| assumption].
    apply lang_word. now repeat constructor.
  - simpl. rewrite H1, H2, H3. apply orb_true_r.
  - apply (lang_chars (Seq (lit "educe") (Opt (lit "d"))));
      [vm_compute; reflexivity |].
    exists (c2 :: c3 :: u3), v. split; [reflexivity |]. split; [| assumption].
    apply lang_word. now repeat constructor.
Qed.

(** A time_savings match starts with its verb. *)
Lemma time_starts_with_verb (s : text) (st : mstate) :
  match_at time_savings_re s = Some st -> verb3 s = true.
Proof.
  intros H. apply match_at_grouped in H; [| reflexivity].
  destruct H as [v [n [u [-> [[vb [ws [-> [Hvb _]]]] _]]]]].
  destruct (saved_or_reduced_shape vb Hvb) as [c1 [c2 [c3 [rest [-> [H3 _]]]]]].
  exact H3.
Qed.

Lemma verb3_calm (c : ascii) (t : text) : calm c = true -> verb3 (c :: t) = false.
Proof.
  unfold calm. intros H. apply negb_true_iff, orb_false_iff in H as [Hs Hr].
  destruct t as [|c2 [|c3 t]]; simpl; try reflexivity. now rewrite Hs, Hr.
Qed.

Lemma verb3_skip_calm (l t : text) (j : nat) :
  Forall (fun c => calm c = true) l -> j < length l ->
  verb3 (skipn j (l ++ t)) = false.
Proof.
  intros Hl. revert j. induction Hl as [|c l Hc Hl IH]; intros j Hj.
  - simpl in Hj. lia.
  - destruct j as [|j].
    + simpl. now apply verb3_calm.
    + simpl. apply IH. simpl in Hj. lia.
Qed.

(** Inside "thousand" an s stands, followed by "and", not by "ave". *)
Lemma verb3_skip_thousand (mg t : text) (j : nat) :
  lang (lit "thousand") mg -> j < length mg ->
  verb3 (skipn j (mg ++ t)) = false.
Proof.
  intros H Hj. apply lang_word in H.
  repeat match goal with
         | H : Forall2 _ _ _ |- _ => inversion H; clear H; subst
         end.
  assert (Hc : forall x c, ci x c = true ->
                (x = "t" \/ x = "h" \/ x = "o" \/ x = "u" \/ x = "a" \/
                 x = "n" \/ x = "d")%char -> calm c = true).
  { intros x c Hx Hin. revert Hx.
    repeat (destruct Hin as [-> | Hin]);
      try subst x; apply ascii_implies; vm_compute; reflexivity. }
  simpl in Hj.
  do 4 (destruct j as [|j];
        [cbn [skipn app]; apply verb3_calm; eapply Hc; [eassumption | tauto] |]).
  destruct j as [|j].
  { cbn [skipn app verb3].
    match goal with
    | Hn : ci "n" ?c = true |- context [ci "v" ?c] =>
        rewrite (ascii_excludes (ci "n") (ci "v") eq_refl c Hn)
    end.
    match goal with
    | Hs : ci "s" ?c = true |- context [ci "r" ?c] =>
        rewrite (ascii_excludes (ci "s") (ci "r") eq_refl c Hs)
    end.
    now rewrite andb_false_r. }
  do 3 (destruct j as [|j];
        [cbn [skipn app]; apply verb3_calm; eapply Hc; [eassumption | tauto] |]).
  lia.
Qed.

Lemma verb3_skip_magnitude (mg t : text) (j : nat) :
  lang magnitude mg -> j < length mg ->
  verb3 (skipn j (mg ++ t)) = false.
Proof.
  intros [[H | [H | [H | H]]] | ->] Hj.
  - apply verb3_skip_calm; [| assumption].
    apply (lang_chars (lit "million")); [vm_compute; reflexivity | assumption].
  - apply verb3_skip_calm; [| assumption].
    apply (lang_chars (lit "billion")); [vm_compute; reflexivity | assumption].
  - apply verb3_skip_calm; [| assumption].
    apply (lang_chars (lit "k")); [vm_compute; reflexivity | assumption].
  - now apply verb3_skip_thousand.
  - simpl in Hj. lia.
Qed.

Lemma skipn_app_ge (l t : text) (j : nat) :
  length l <= j -> skipn j (l ++ t) = skipn (j - length l) t.
Proof.
  intros H. rewrite skipn_app.
  rewrite (skipn_all2 l) by assumption. reflexivity.
Qed.

(** Past its first character, a cost_savings match holds no place at which
    the verb of a time_savings match could start. *)
Lemma cost_no_verb_inside (w t : text) (i : nat) :
  lang cost_savings_re w -> 0 < i < length w ->
  verb3 (skipn i (w ++ t)) = false.
Proof.
  intros [pre [rest [-> [Hpre Hrest]]]] Hi.
  destruct Hpre as [vb [ws [-> [Hvb Hws]]]].
  destruct Hrest as [dl [rest2 [-> [Hdl Hrest2]]]].
  destruct Hrest2 as [am [rest3 [-> [Ham Hrest3]]]].
  destruct Hrest3 as [sp [mg [-> [Hsp Hmg]]]].
  destruct (saved_or_reduced_shape vb Hvb) as [c1 [c2 [c3 [vb' [-> [_ Hcalm]]]]]].
  set (body := (c2 :: c3 :: vb') ++ ws ++ dl ++ am ++ sp).
  assert (Hbody : Forall (fun c => calm c = true) body).
  { unfold body. rewrite !List.Forall_app. repeat split.
    - assumption.
    - apply (lang_chars spaces1); [vm_compute; reflexivity | assumption].
    - apply (lang_chars (Opt (lit "$"))); [vm_compute; reflexivity | assumption].
    - apply (lang_chars amount); [vm_compute; reflexivity | assumption].
    - apply (lang_chars spaces); [vm_compute; reflexivity | assumption]. }
  assert (Hw : (((c1 :: c2 :: c3 :: vb') ++ ws) ++ dl ++ am ++ sp ++ mg) ++ t
               = c1 :: body ++ mg ++ t).
  { unfold body. simpl. now rewrite <- !app_assoc. }
  assert (Hlen : length (((c1 :: c2 :: c3 :: vb') ++ ws) ++ dl ++ am ++ sp ++ mg)
                 = S (length body + length mg)).
  { unfold body. simpl. rewrite ?length_app. simpl. rewrite ?length_app. lia. }
  rewrite Hw. rewrite Hlen in Hi.
  destruct i as [|j]; [lia |].
  change (skipn (S j) (c1 :: body ++ mg ++ t)) with (skipn j (body ++ mg ++ t)).
  destruct (Nat.lt_ge_cases j (length body)) as [Hlt | Hge].
  - now apply verb3_skip_calm.
  - rewrite skipn_app_ge by assumption.
    apply verb3_skip_magnitude; [assumption | lia].
Qed.

(* ===================================================================== *)
(** ** The metric extractor: the specification's example, and the overlap
       of the time and cost patterns *)
(* ===================================================================== *)

Lemma in_metrics_of (ty : string) (pat : regex) (s : text) (m : Metric) :
  In m (metrics_of ty pat s) <->
  exists mo, In mo (finditer pat s) /\
             m = mkMetric ty (m_group1 mo) (firstn 200 s).
Proof.
  unfold metrics_of. rewrite in_map_iff. split.
  - intros [mo [<- Hin]]. eauto.
  - intros [mo [Hin ->]]. eauto.
Qed.

Lemma skipn_skipn_add (i q : nat) (s : text) :
  skipn i (skipn q s) = skipn (q + i) s.
Proof.
  revert s. induction q as [|q IH]; intros s; simpl.
  - reflexivity.
  - destruct s as [|c s]; [now rewrite skipn_nil | apply IH].
Qed.

(** At a position where the time_savings pattern matches, [finditer]
    lists a cost_savings match that starts there and has the same group. *)
Lemma finditer_cost_covers_time (s : text) (p : nat) (st : mstate) :
  match_at time_savings_re (skipn p s) = Some st ->
  exists mo', In mo' (finditer cost_savings_re s) /\
              m_start mo' = p /\ m_group1 mo' = group1 st.
Proof.
  intros Hat.
  assert (Hcmin : 1 <= minw cost_savings_re) by (vm_compute; lia).
  assert (Hp : p <= length s).
  { destruct (Nat.le_gt_cases p (length s)) as [Hle | Hgt]; [assumption |].
    rewrite skipn_all2 in Hat by lia.
    rewrite match_at_nil in Hat by (vm_compute; lia). discriminate. }
  pose proof (time_starts_with_verb _ _ Hat) as Hverb.
  pose proof Hat as Hat'.
  apply match_at_grouped in Hat'; [| reflexivity].
  destruct Hat' as [v [n [u [Hs [Lv [Ln [Lu Hn]]]]]]].
  destruct (cost_after_time v n u (ms_rest st) Lv Ln Lu) as [st2 [Hat2 Hg2]].
  rewrite <- Hs in Hat2.
  destruct (finditer_spec _ Hcmin s) as [_ Hcm Hcall].
  destruct (Hcall p) as [mo' [Hin' Hcover]]; [lia | congruence |].
  exists mo'. split; [assumption |].
  destruct (Hcm mo' Hin') as [Hb' [stq [Hatq [Hrq Hgq]]]].
  destruct (Nat.eq_dec (m_start mo') p) as [Heq | Hneq].
  - split; [assumption |]. rewrite Heq in Hatq. congruence.
  - exfalso.
    apply match_at_width in Hatq as [w [Hw [Lw Hwid]]].
    assert (Hlen : length w = m_end mo' - m_start mo').
    { apply (f_equal (@length ascii)) in Hw.
      rewrite length_app, Hrq, !length_skipn in Hw. lia. }
    pose proof (cost_no_verb_inside w (ms_rest stq) (p - m_start mo') Lw
                                    ltac:(lia)) as Hno.
    rewrite <- Hw, skipn_skipn_add in Hno.
    replace (m_start mo' + (p - m_start mo')) with p in Hno by lia.
    congruence.
Qed.

(** C9. Wherever in a text the time_savings pattern matches (a phrase such
    as "saved N hours"), [extract_metrics] returns a cost_savings Metric
    with the same number: the cost_savings pattern matches at the same
    place, its currency sign and magnitude being optional, and no earlier
    cost_savings match reaches over it.  So every time_savings Metric that
    is returned comes with a cost_savings Metric of the same value and
    context. *)
Theorem time_savings_is_also_cost_savings (s : text) :
  (forall p st,
      match_at time_savings_re (skipn p s) = Some st ->
      In (mkMetric "cost_savings" (group1 st) (firstn 200 s))
         (extract_metrics s))
  /\ (forall m,
        In m (extract_metrics s) ->
        metric_type m = "time_savings"%string ->
        In (mkMetric "cost_savings" (metric_value m) (metric_context m))
           (extract_metrics s)).
Proof.
  assert (Hpos : forall p st,
            match_at time_savings_re (skipn p s) = Some st ->
            In (mkMetric "cost_savings" (group1 st) (firstn 200 s))
               (extract_metrics s)).
  { intros p st Hat.
    destruct (finditer_cost_covers_time s p st Hat) as [mo' [Hin' [_ Hg]]].
    rewrite extract_metrics_by_type, !in_app_iff, !in_metrics_of.
    right. right. right. exists mo'. split; [assumption |]. now rewrite Hg. }
  split; [exact Hpos |].
  intros m Hin Hty.
  rewrite extract_metrics_by_type, !in_app_iff, !in_metrics_of in Hin.
  destruct Hin as [[mo [_ ->]] | [[mo [_ ->]] | [[mo [Hin ->]] | [mo [_ ->]]]]];
    try discriminate.
  assert (Htmin : 1 <= minw time_savings_re) by (vm_compute; lia).
  destruct (finditer_spec _ Htmin s) as [_ Htm _].
  destruct (Htm mo Hin) as [_ [st [Hat [_ Hg]]]].
  simpl. rewrite <- Hg. now apply (Hpos (m_start mo)).
Qed.

(** The specification's example: "saved 3 hours" is also a cost saving
    of 3. *)
Lemma time_savings_is_also_cost_savings_witness :
  In (mkMetric "cost_savings" (str "3") (firstn 200 sample_text))
     (extract_metrics sample_text).
Proof.
  apply (proj2 (time_savings_is_also_cost_savings sample_text)
               (mkMetric "time_savings" (str "3") (firstn 200 sample_text))).
  - vm_compute. tauto.
  - reflexivity.
Defined.

(** C1, as the code has it. For the example text [extract_metrics] returns
    a time_savings Metric with value "3" followed by a cost_savings Metric
    with value "3", each with the first 200 characters of the text as
    context, and nothing else: no percentage Metric, the word "latency"
    standing between "reduced" and "by 40%". *)
Theorem extract_metrics_sample :
  extract_metrics sample_text =
  [ mkMetric "time_savings" (str "3") (firstn 200 sample_text);
    mkMetric "cost_savings" (str "3") (firstn 200 sample_text) ].
Proof. vm_compute. reflexivity. Qed.

(** C1 as stated fails: the example text yields no percentage Metric. *)
Lemma extract_metrics_sample_no_percentage :
  List.filter (fun m => String.eqb (metric_type m) "percentage")
              (extract_metrics sample_text) = []
  /\ match_at percentage_re (skipn 3 sample_text) = None.
Proof. split; vm_compute; reflexivity. Qed.

(* ===================================================================== *)
(** ** The feed path *)
(* ===================================================================== *)

Lemma dict_get_absent (d : gmap string text) (key : string) (default : text) :
  d !! key = None -> dict_get d key default = default.
Proof. unfold dict_get. now intros ->. Qed.

(** C5. On the feed path an entry without summary and description gets the
    empty summary; the stripped text of a summary, when longer than 500
    characters, is cut to exactly 500; an entry without title is titled
    "Untitled"; an entry without link gets the empty link; and whatever is
    absent, each of the first ten entries of a feed yields its item. *)
Theorem feed_entry_item_defaults (get_text : text -> text)
        (now feed_title : text) (entry : gmap string text) :
  let item := feed_entry_item get_text now feed_title entry in
  (entry !! "summary" = None -> entry !! "description" = None ->
   summary item = [])
  /\ (forall raw,
        dict_get entry "summary" (dict_get entry "description" []) = raw ->
        raw <> [] -> 500 < length (get_text raw) ->
        summary item = firstn 500 (get_text raw) /\
        length (summary item) = 500)
  /\ (entry !! "title" = None -> title item = str "Untitled")
  /\ (entry !! "link" = None -> link item = [])
  /\ (forall parsed,
        bozo parsed = false ->
        In entry (firstn MAX_RSS_ITEMS_PER_FEED (entries parsed)) ->
        In (feed_entry_item get_text now
                            (dict_get (feed parsed) "title" (str "Unknown Feed"))
                            entry)
           (scan_feed get_text now (Some parsed))).
Proof.
  simpl. split; [| split; [| split; [| split]]].
  - intros Hs Hd. now rewrite !dict_get_absent.
  - intros raw Hraw Hne Hlen. rewrite Hraw.
    destruct raw; [congruence |]. split; [reflexivity |].
    rewrite length_firstn. lia.
  - intros Ht. now apply dict_get_absent.
  - intros Hl. now apply dict_get_absent.
  - intros parsed Hb Hin. unfold scan_feed. rewrite Hb.
    apply in_map_iff. eauto.
Qed.

(** An entry with no field at all, and one whose summary has 600
    characters. *)
Lemma feed_entry_item_defaults_witness :
  (summary (feed_entry_item (fun s => s) [] [] ∅) = [] /\
   title (feed_entry_item (fun s => s) [] [] ∅) = str "Untitled" /\
   link (feed_entry_item (fun s => s) [] [] ∅) = []) /\
  length (summary (feed_entry_item (fun s => s) [] []
                     {[ "summary"%string := repeat "a"%char 600 ]})) = 500.
Proof.
  pose proof (feed_entry_item_defaults (fun s => s) [] [] ∅) as H0.
  pose proof (feed_entry_item_defaults (fun s => s) [] []
                {[ "summary"%string := repeat "a"%char 600 ]}) as H1.
  simpl in H0, H1.
  destruct H0 as [Hs [_ [Ht [Hl _]]]]. destruct H1 as [_ [Hcut _]].
  split.
  - split; [| split].
    + apply Hs; apply lookup_empty.
    + apply Ht. apply lookup_empty.
    + apply Hl. apply lookup_empty.
  - apply (Hcut (repeat "a"%char 600)).
    + vm_compute. reflexivity.
    + discriminate.
    + vm_compute. lia.
Defined.

(* ===================================================================== *)
(** ** The page path *)
(* ===================================================================== *)

Lemma article_items_length (now url : text) (articles : list fragment) :
  length (article_items now url articles) <= length articles.
Proof.
  induction articles as [|a more IH]; simpl; [lia |].
  destruct (fragment_item now url a); simpl; lia.
Qed.

(** C8, as the code has it. On the page path a fragment without title
    element yields no item; only the first ten fragments of a page are
    looked at; a fragment with a title yields an item, whose link, when the
    extracted [href] does not start with "http", is the page's URL followed
    by it, and is the [href] as extracted when it starts with "http"; and
    whose summary is empty when there is no description element.  The test
    is on the first four characters, not on the link being an absolute URL
    (see [fragment_item_relative_link_kept]). *)
Theorem fragment_item_contract (now url : text) (article : fragment)
        (articles : list fragment) :
  (title_el article = None -> fragment_item now url article = None)
  /\ (length (page_items now url articles) <= 10 /\
      page_items now url articles = page_items now url (firstn 10 articles))
  /\ (forall t, title_el article = Some t ->
        exists item,
          fragment_item now url article = Some item /\
          title item = t /\
          (forall href, link_el article = Some (Some href) ->
                        startswith (str "http") href = false ->
                        link item = url ++ href) /\
          (forall href, link_el article = Some (Some href) ->
                        startswith (str "http") href = true ->
                        link item = href) /\
          (summary_el article = None -> summary item = [])).
Proof.
  split; [| split].
  - unfold fragment_item. now intros ->.
  - unfold page_items. split.
    + etransitivity; [apply article_items_length |]. apply firstn_le_length.
    + now rewrite firstn_firstn.
  - intros t Ht. unfold fragment_item. rewrite Ht. eexists. split; [reflexivity |].
    simpl. split; [reflexivity |]. split; [| split].
    + intros href -> ->. reflexivity.
    + intros href -> ->. reflexivity.
    + intros ->. reflexivity.
Qed.

(** A card with a title and a relative link, without description. *)
Lemma fragment_item_contract_witness :
  exists item,
    fragment_item [] (str "https://openai.com/customer-stories")
                  (mkFragment (Some (str "Acme")) (Some (Some (str "/acme")))
                              None) = Some item /\
    link item = str "https://openai.com/customer-stories/acme" /\
    summary item = [].
Proof.
  destruct (proj2 (proj2 (fragment_item_contract
                            [] (str "https://openai.com/customer-stories")
                            (mkFragment (Some (str "Acme"))
                                        (Some (Some (str "/acme"))) None) []))
                  (str "Acme") eq_refl)
    as [item [Hitem [_ [Hrel [_ Hsum]]]]].
  exists item. split; [exact Hitem |]. split.
  - apply (Hrel (str "/acme")); reflexivity.
  - apply Hsum. reflexivity.
Defined.

(** A relative link whose file name starts with "http" is not an absolute
    URL (it has no scheme), and yet is not resolved against the page's
    URL: the item carries it as extracted. *)
Lemma fragment_item_relative_link_kept :
  has_scheme (str "http-guide.html") = false
  /\ exists item,
       fragment_item [] (str "https://openai.com/customer-stories")
                     (mkFragment (Some (str "Guide"))
                                 (Some (Some (str "http-guide.html"))) None)
       = Some item /\
       link item = str "http-guide.html" /\
       link item <> str "https://openai.com/customer-stories" ++
                    str "http-guide.html".
Proof.
  split; [reflexivity |]. eexists. split; [reflexivity |].
  split; [reflexivity | discriminate].
Qed.

(* ===================================================================== *)
(** ** The mailbox sweep *)
(* ===================================================================== *)

Lemma str_inj (a b : string) : str a = str b -> a = b.
Proof.
  unfold str. intros H. apply (f_equal string_of_list_ascii) in H.
  now rewrite !string_of_list_ascii_of_string in H.
Qed.

Lemma link_of_inj (a b : string) : link_of a = link_of b -> a = b.
Proof.
  unfold link_of. intros H. apply app_inv_head in H. now apply str_inj.
Qed.

Section MailroomFacts.

Variable list_messages : string -> option (list string).
Variable get_message : string -> option message.
Variable download_attachment : string -> text -> text -> option text.
Variable extract_pdf_text : text -> text.
Variable now : text.

Lemma message_item_link (id : string) (item : EmailIntelligence) :
  message_item get_message download_attachment extract_pdf_text now id
  = Some item ->
  gmail_link item = link_of id.
Proof.
  unfold message_item. destruct (get_message id); [| discriminate].
  destruct (scan_parts _ _ _ _ _ _) as [[a p]|]; [| discriminate].
  intros H. injection H as <-. reflexivity.
Qed.

Lemma sweep_inv_init : sweep_inv (mkSweep [] ∅ []).
Proof.
  split; [constructor |]. split.
  - intros id. simpl. split; [set_solver | intros H; inversion H].
  - exists []. repeat split; [constructor | intros id H; inversion H].
Qed.

Lemma sweep_inv_fetch (st : sweep) (id : string) :
  sweep_inv st -> id ∉ seen_ids st ->
  sweep_inv (mkSweep (items st) ({[ id ]} ∪ seen_ids st) (fetched st ++ [id])).
Proof.
  intros [Hnd [Hseen [ids [Hmap [Hids Hsub]]]]] Hnew. split; [| split]; simpl.
  - apply NoDup_app. split; [assumption |]. split; [| apply NoDup_singleton].
    intros x Hx Hx'. apply list_elem_of_singleton in Hx'. subst x.
    apply Hnew. now apply Hseen.
  - intros x. rewrite elem_of_union, elem_of_singleton, elem_of_app,
      list_elem_of_singleton, Hseen. tauto.
  - exists ids. repeat split; try assumption.
    intros x Hx. apply elem_of_app. left. now apply Hsub.
Qed.

Lemma sweep_inv_emit (st : sweep) (id : string) (item : EmailIntelligence) :
  sweep_inv st -> id ∉ seen_ids st -> gmail_link item = link_of id ->
  sweep_inv (mkSweep (items st ++ [item]) ({[ id ]} ∪ seen_ids st)
                     (fetched st ++ [id])).
Proof.
  intros Hinv Hnew Hlink.
  destruct (sweep_inv_fetch st id Hinv Hnew) as [Hnd [Hseen _]].
  destruct Hinv as [_ [Hseen0 [ids [Hmap [Hids Hsub]]]]].
  split; [assumption |]. split; [assumption |]. simpl.
  exists (ids ++ [id]). split; [| split].
  - rewrite !map_app, Hmap. simpl. now rewrite Hlink.
  - apply NoDup_app. split; [assumption |]. split; [| apply NoDup_singleton].
    intros x Hx Hx'. apply list_elem_of_singleton in Hx'. subst x.
    apply Hnew. apply Hseen0. now apply Hsub.
  - intros x Hx. apply elem_of_app in Hx as [Hx | Hx]; apply elem_of_app.
    + left. now apply Hsub.
    + now right.
Qed.

Lemma scan_messages_inv (messages : list string) :
  forall st,
    sweep_inv st ->
    sweep_inv (scan_messages get_message download_attachment extract_pdf_text
                             now messages st).
Proof.
  induction messages as [|id more IH]; intros st Hinv; simpl.
  - assumption.
  - destruct (decide (id ∈ seen_ids st)) as [Hseen | Hnew].
    + now apply IH.
    + destruct (message_item _ _ _ _ id) as [item|] eqn:Hitem.
      * apply IH. apply sweep_inv_emit; try assumption.
        now apply message_item_link.
      * now apply sweep_inv_fetch.
Qed.

Lemma scan_queries_inv (queries : list string) :
  forall st,
    sweep_inv st ->
    sweep_inv (scan_queries list_messages get_message download_attachment
                            extract_pdf_text now queries st).
Proof.
  induction queries as [|q more IH]; intros st Hinv; simpl.
  - assumption.
  - destruct (list_messages q) as [messages|].
    + apply IH. now apply scan_messages_inv.
    + now apply IH.
Qed.

Lemma filter_NoDup_le_1 (A : Type) (P : A -> bool) (l : list A) :
  (forall x y, P x = true -> P y = true -> x = y) -> NoDup l ->
  length (List.filter P l) <= 1.
Proof.
  intros Huniq Hnd. induction Hnd as [|x l Hx Hnd IH]; simpl; [lia |].
  destruct (P x) eqn:Px; [| assumption]. simpl.
  destruct (List.filter P l) as [|y l'] eqn:Hf; [simpl; lia |].
  exfalso. apply Hx.
  assert (Hy : In y (List.filter P l)) by (rewrite Hf; now left).
  apply filter_In in Hy as [Hy Py].
  rewrite (Huniq x y Px Py). now apply list_elem_of_In.
Qed.

End MailroomFacts.

Lemma filter_map_swap (A B : Type) (f : A -> B) (P : B -> bool) (l : list A) :
  map f (List.filter (fun x => P (f x)) l) = List.filter P (map f l).
Proof.
  induction l as [|x l IH]; simpl; [reflexivity |].
  destruct (P (f x)); simpl; now rewrite IH.
Qed.

(** C6. In one sweep, whatever the queries return, at most one item is
    emitted for any message identifier: no two items carry the same link,
    every item's link is that of an identifier seen, no identifier is
    fetched twice, and the identifiers seen are exactly those fetched. *)
Theorem search_whitepapers_dedup
        (list_messages : string -> option (list string))
        (get_message : string -> option message)
        (download_attachment : string -> text -> text -> option text)
        (extract_pdf_text : text -> text) (now : text)
        (queries : list string) :
  let st := sweep_queries list_messages get_message download_attachment
                          extract_pdf_text now queries in
  (forall id,
      length (List.filter (fun item => text_eqb (gmail_link item) (link_of id))
                          (items st)) <= 1)
  /\ NoDup (map gmail_link (items st))
  /\ (forall item, In item (items st) ->
        exists id, id ∈ seen_ids st /\ gmail_link item = link_of id)
  /\ NoDup (fetched st)
  /\ (forall id, id ∈ seen_ids st <-> In id (fetched st)).
Proof.
  intros st.
  destruct (scan_queries_inv list_messages get_message download_attachment
              extract_pdf_text now queries _ sweep_inv_init)
    as [Hnd [Hseen [ids [Hmap [Hids Hsub]]]]].
  fold (sweep_queries list_messages get_message download_attachment
                      extract_pdf_text now queries) in *.
  fold st in Hnd, Hseen, Hmap, Hsub.
  assert (Hlinks : NoDup (map gmail_link (items st))).
  { rewrite Hmap. apply NoDup_fmap_2; [| assumption].
    intros a b. apply link_of_inj. }
  split; [| split; [| split; [| split]]].
  - intros id.
    rewrite <- (length_map gmail_link).
    assert (Hf : map gmail_link
                     (List.filter (fun item => text_eqb (gmail_link item) (link_of id))
                                  (items st))
                 = List.filter (fun l => text_eqb l (link_of id))
                               (map gmail_link (items st))).
    { apply (filter_map_swap _ _ gmail_link
                             (fun l => text_eqb l (link_of id))). }
    rewrite Hf. apply filter_NoDup_le_1; [| assumption].
    intros x y Hx Hy. apply text_eqb_true in Hx, Hy. congruence.
  - assumption.
  - intros item Hin.
    apply (in_map gmail_link) in Hin. rewrite Hmap in Hin.
    apply in_map_iff in Hin as [id [Hid Hin]].
    exists id. split; [| now symmetry].
    apply Hseen, Hsub. now apply list_elem_of_In.
  - assumption.
  - intros id. rewrite Hseen. apply list_elem_of_In.
Qed.

(** Two queries that both return the message "m1": one item. *)
Example search_whitepapers_same_id_twice :
  map gmail_link
      (search_whitepapers (fun _ => Some ["m1"; "m2"; "m1"]%string)
                          (fun _ => Some (mkMessage [] None None))
                          (fun _ _ _ => None) (fun p => p) []
                          ["q1"; "q2"]%string)
  = [link_of "m1"; link_of "m2"].
Proof. vm_compute. reflexivity. Qed.

(* ===================================================================== *)
(** ** json: what is written is read back *)
(* ===================================================================== *)

Section JsonInduction.

Variable P : json -> Prop.
Hypothesis P_null : P JNull.
Hypothesis P_bool : forall b, P (JBool b).
Hypothesis P_num : forall literal, P (JNum literal).
Hypothesis P_str : forall s, P (JStr s).
Hypothesis P_list : forall l, Forall P l -> P (JList l).
Hypothesis P_dict : forall d, Forall (fun kv => P (snd kv)) d -> P (JDict d).

Fixpoint json_nested_ind (v : json) : P v :=
  match v with
  | JNull => P_null
  | JBool b => P_bool b
  | JNum literal => P_num literal
  | JStr s => P_str s
  | JList l =>
      P_list l ((fix all (l : list json) : Forall P l :=
                   match l with
                   | [] => @List.Forall_nil _ P
                   | x :: l' => @List.Forall_cons _ P x l' (json_nested_ind x) (all l')
                   end) l)
  | JDict d =>
      P_dict d ((fix all (d : list (text * json))
                   : Forall (fun kv => P (snd kv)) d :=
                   match d with
                   | [] => @List.Forall_nil _ (fun kv => P (snd kv))
                   | kv :: d' =>
                       @List.Forall_cons _ (fun kv => P (snd kv)) kv d'
                                         (json_nested_ind (snd kv)) (all d')
                   end) d)
  end.

End JsonInduction.

Lemma scan_escape (c : ascii) (t acc : text) :
  scan_string (escape c ++ t) acc = scan_string t (acc ++ [c]).
Proof. destruct c as [[] [] [] [] [] [] [] []]; reflexivity. Qed.

Lemma scan_quoted (s rest acc : text) :
  scan_string (flat_map escape s ++ dquote :: rest) acc = Ok (acc ++ s, rest).
Proof.
  revert acc. induction s as [|c s IH]; intros acc; simpl.
  - now rewrite app_nil_r.
  - rewrite <- app_assoc, scan_escape, IH, <- app_assoc. reflexivity.
Qed.

Lemma skip_ws_newline_indent (level : nat) (s : text) :
  skip_ws (newline_indent level ++ s) = skip_ws s.
Proof.
  unfold newline_indent. generalize (2 * level). intros n.
  change (skip_ws (repeat " "%char n ++ s) = skip_ws s).
  induction n as [|n IH]; [reflexivity | exact IH].
Qed.

Lemma skip_ws_stop (c : ascii) (s : text) :
  is_json_ws c = false -> skip_ws (c :: s) = c :: s.
Proof. intros H. simpl. now rewrite H. Qed.

Lemma dict_set_new (d : list (text * json)) (key : text) (v : json) :
  existsb (text_eqb key) (map fst d) = false ->
  dict_set d key v = d ++ [(key, v)].
Proof.
  induction d as [|[k x] d IH]; simpl; [reflexivity |].
  intros H. apply orb_false_iff in H as [Hk Hd].
  assert (Hk' : text_eqb k key = false).
  { destruct (text_eqb k key) eqn:E; [| reflexivity].
    apply text_eqb_true in E. subst k.
    assert (Ht : text_eqb key key = true) by now apply text_eqb_true.
    congruence. }
  rewrite Hk'. now rewrite IH.
Qed.

(** A rendered value starts with a character that is no white space and
    closes nothing. *)
Lemma render_head (level : nat) (v : json) :
  plain v = true ->
  exists c t, render level v = c :: t /\ is_json_ws c = false /\
              (code c =? 93) = false /\ (code c =? 125) = false.
Proof.
  destruct v as [|[]|literal|s|[|x l]|[|[k x] d]]; simpl; intros Hp;
    try discriminate; eexists _, _; (split; [reflexivity |]);
    repeat split; reflexivity.
Qed.

Lemma newline_indent_length (level : nat) :
  length (newline_indent level) = S (2 * level).
Proof. unfold newline_indent. simpl length. now rewrite repeat_length. Qed.

Lemma render_length (level : nat) (v : json) :
  plain v = true -> jsize v <= length (render level v).
Proof.
  revert level. induction v as [|b|literal|s|l IH|d IH] using json_nested_ind;
    intros level Hp.
  - simpl. lia.
  - destruct b; simpl; lia.
  - discriminate.
  - simpl. lia.
  - destruct l as [|x l]; [simpl; lia |].
    simpl in Hp. apply andb_true_iff in Hp as [Hx Hl].
    inversion IH as [|? ? IHx IHl]; subst.
    cbn [render jsize map]. simpl list_sum. rewrite !length_app.
    specialize (IHx (S level) Hx).
    assert (Hrest : list_sum (map (fun y => S (jsize y)) l)
                    <= length (flat_map (fun y => str "," ++ newline_indent (S level)
                                                   ++ render (S level) y) l)).
    { clear -IHl Hl. induction IHl as [|y l IHy _ IHrec]; [simpl; lia |].
      simpl in Hl. apply andb_true_iff in Hl as [Hy Hl].
      cbn [map flat_map]. simpl list_sum. rewrite !length_app.
      specialize (IHy (S level) Hy). specialize (IHrec Hl).
      rewrite newline_indent_length. change (length (str ",")) with 1. lia. }
    rewrite !newline_indent_length. change (length (str "[")) with 1. lia.
  - destruct d as [|[k x] d]; [simpl; lia |].
    cbn [plain map fst snd] in Hp.
    apply andb_true_iff in Hp as [_ Hp]. cbn [forallb snd] in Hp.
    apply andb_true_iff in Hp as [Hx Hd].
    inversion IH as [|? ? IHx IHd]; subst. cbn [snd] in IHx.
    cbn [render jsize map snd]. simpl list_sum. rewrite !length_app.
    specialize (IHx (S level) Hx).
    assert (Hrest : list_sum (map (fun kv => S (jsize (snd kv))) d)
                    <= length (flat_map (fun kv => str "," ++ newline_indent (S level)
                                 ++ quote (fst kv) ++ str ": "
                                 ++ render (S level) (snd kv)) d)).
    { clear -IHd Hd. induction IHd as [|[k' y] d IHy _ IHrec]; [simpl; lia |].
      cbn [forallb snd] in Hd. apply andb_true_iff in Hd as [Hy Hd].
      cbn [snd] in IHy.
      cbn [map flat_map fst snd]. simpl list_sum. rewrite !length_app.
      specialize (IHy (S level) Hy). specialize (IHrec Hd).
      rewrite newline_indent_length. change (length (str ",")) with 1. lia. }
    rewrite !newline_indent_length. change (length (str "{")) with 1. lia.
Qed.

Lemma distinct_keys_NoDup (keys : list text) :
  distinct_keys keys = true -> List.NoDup keys.
Proof.
  induction keys as [|k more IH]; simpl; intros H; [constructor |].
  apply andb_true_iff in H as [Hk Hmore]. constructor; [| now apply IH].
  intros Hin. apply negb_true_iff in Hk.
  assert (existsb (text_eqb k) more = true); [| congruence].
  apply existsb_exists. exists k. split; [assumption | now apply text_eqb_true].
Qed.

Lemma not_in_existsb (k : text) (keys : list text) :
  ~ In k keys -> existsb (text_eqb k) keys = false.
Proof.
  intros H. destruct (existsb (text_eqb k) keys) eqn:E; [| reflexivity].
  apply existsb_exists in E as [k' [Hin Heq]]. apply text_eqb_true in Heq.
  subst k'. contradiction.
Qed.

Lemma parse_items_step (fuel : nat) (s rest : text) (v : json)
      (values : list json) :
  parse_value fuel s = Ok (v, rest) ->
  parse_items (S fuel) s values =
  match skip_ws rest with
  | c :: t =>
      if code c =? 93 then Ok (JList (values ++ [v]), t)
      else if code c =? 44
           then parse_items fuel (skip_ws t) (values ++ [v])
      else Err JSONDecodeError
  | [] => Err JSONDecodeError
  end.
Proof. intros H. simpl. rewrite H. reflexivity. Qed.

Lemma skip_ws_render (level : nat) (v : json) (rest : text) :
  plain v = true -> skip_ws (render level v ++ rest) = render level v ++ rest.
Proof.
  intros Hp. destruct (render_head level v Hp) as [c [t [-> [Hws _]]]].
  simpl app. now apply skip_ws_stop.
Qed.

Lemma parse_items_render (l : list json) :
  Forall reads_back l -> forallb plain l = true ->
  forall x values level rest fuel,
    reads_back x -> plain x = true ->
    S (jsize x) + list_sum (map (fun y => S (jsize y)) l) <= fuel ->
    parse_items fuel
      (render (S level) x ++
       flat_map (fun y => str "," ++ newline_indent (S level) ++
                          render (S level) y) l ++
       newline_indent level ++ str "]" ++ rest) values
    = Ok (JList (values ++ x :: l), rest).
Proof.
  intros HF. induction HF as [|y l Hy HF IH];
    intros Hl x values level rest fuel Hx Hpx Hfuel;
    (destruct fuel as [|fuel]; [lia |]).
  - erewrite parse_items_step; [| apply Hx; [assumption | simpl in Hfuel; lia]].
    cbn [flat_map app]. rewrite skip_ws_newline_indent. reflexivity.
  - simpl in Hl. apply andb_true_iff in Hl as [Hpy Hl].
    simpl list_sum in Hfuel. simpl map in Hfuel. simpl list_sum in Hfuel.
    erewrite parse_items_step; [| apply Hx; [assumption | lia]].
    cbn [flat_map]. rewrite <- !app_assoc.
    change (str "," ++ ?s) with (","%char :: s).
    cbn [skip_ws]. change (is_json_ws ","%char) with false. cbv iota.
    change (code ","%char =? 93) with false.
    change (code ","%char =? 44) with true. cbv iota.
    rewrite skip_ws_newline_indent, skip_ws_render by assumption.
    rewrite (IH Hl y (values ++ [x]) level rest fuel Hy Hpy) by lia.
    now rewrite <- app_assoc.
Qed.

Lemma parse_members_step (fuel : nat) (k s rest : text) (v : json)
      (pairs : list (text * json)) :
  parse_value fuel (skip_ws s) = Ok (v, rest) ->
  parse_members (S fuel) (flat_map escape k ++ dquote :: str ": " ++ s) pairs =
  match skip_ws rest with
  | c' :: t' =>
      if code c' =? 125 then Ok (JDict (dict_set pairs k v), t')
      else if code c' =? 44 then
        match skip_ws t' with
        | c'' :: t'' =>
            if code c'' =? 34
            then parse_members fuel t'' (dict_set pairs k v)
            else Err JSONDecodeError
        | [] => Err JSONDecodeError
        end
      else Err JSONDecodeError
  | [] => Err JSONDecodeError
  end.
Proof.
  intros H. cbn [parse_members]. rewrite scan_quoted.
  cbn [mbind result_bind app]. change (str ": " ++ s) with (":"%char :: " "%char :: s).
  cbn [skip_ws]. change (is_json_ws ":"%char) with false. cbv iota.
  change (code ":"%char =? 58) with true. cbv iota.
  change (skip_ws (" "%char :: s)) with (skip_ws s).
  rewrite H. reflexivity.
Qed.

Lemma parse_members_render (d : list (text * json)) :
  Forall (fun kv => reads_back (snd kv)) d ->
  forallb (fun kv => plain (snd kv)) d = true ->
  forall k x pairs level rest fuel,
    reads_back x -> plain x = true ->
    List.NoDup (map fst pairs ++ k :: map fst d) ->
    S (jsize x) + list_sum (map (fun kv => S (jsize (snd kv))) d) <= fuel ->
    parse_members fuel
      (flat_map escape k ++ dquote :: str ": " ++ render (S level) x ++
       flat_map (fun kv => str "," ++ newline_indent (S level) ++
                           quote (fst kv) ++ str ": " ++
                           render (S level) (snd kv)) d ++
       newline_indent level ++ str "}" ++ rest) pairs
    = Ok (JDict (pairs ++ (k, x) :: d), rest).
Proof.
  intros HF. induction HF as [|[k' y] d Hy HF IH];
    intros Hd k x pairs level rest fuel Hx Hpx Hkeys Hfuel;
    (destruct fuel as [|fuel]; [lia |]);
    (assert (Hset : dict_set pairs k x = pairs ++ [(k, x)]);
     [apply dict_set_new, not_in_existsb;
      apply List.NoDup_remove_2 in Hkeys; intros Hin; apply Hkeys;
      apply in_or_app; now left |]).
  - erewrite parse_members_step;
      [| rewrite skip_ws_render by assumption;
         apply Hx; [assumption | simpl in Hfuel; lia]].
    cbn [flat_map app]. rewrite skip_ws_newline_indent, Hset. reflexivity.
  - cbn [forallb snd] in Hd. apply andb_true_iff in Hd as [Hpy Hd].
    cbn [snd] in Hy.
    simpl map in Hfuel. simpl list_sum in Hfuel.
    erewrite parse_members_step;
      [| rewrite skip_ws_render by assumption; apply Hx; [assumption | lia]].
    cbn [flat_map fst snd]. rewrite <- !app_assoc.
    change (str "," ++ ?s) with (","%char :: s).
    cbn [skip_ws]. change (is_json_ws ","%char) with false. cbv iota.
    change (code ","%char =? 125) with false.
    change (code ","%char =? 44) with true. cbv iota.
    rewrite skip_ws_newline_indent.
    unfold quote at 1. cbn [app]. rewrite <- !app_assoc. cbn [app].
    cbn [skip_ws]. change (is_json_ws dquote) with false. cbv iota.
    change (code dquote =? 34) with true. cbv iota.
    rewrite Hset.
    rewrite (IH Hd k' y (pairs ++ [(k, x)]) level rest fuel Hy Hpy);
      [now rewrite <- app_assoc | | lia].
    rewrite map_app. cbn [map fst]. rewrite <- app_assoc. exact Hkeys.
Qed.

(** Every plain value is read back from its rendering. *)
Lemma parse_render (v : json) : reads_back v.
Proof.
  induction v as [|b|literal|s|l IH|d IH] using json_nested_ind;
    intros level rest fuel Hp Hfuel;
    (destruct fuel as [|fuel]; [simpl in Hfuel; lia |]).
  - reflexivity.
  - destruct b; reflexivity.
  - discriminate.
  - cbn [render]. unfold quote. cbn [app parse_value].
    change (code dquote =? 34) with true. cbv iota.
    rewrite <- app_assoc. cbn [app]. rewrite scan_quoted. reflexivity.
  - destruct l as [|x l]; [reflexivity |].
    simpl in Hp. apply andb_true_iff in Hp as [Hpx Hl].
    inversion IH as [|? ? Hx HF]; subst.
    cbn [render]. rewrite <- !app_assoc.
    change (str "[" ++ ?s) with ("["%char :: s).
    cbn [parse_value]. change (code "["%char =? 34) with false.
    change (code "["%char =? 123) with false.
    change (code "["%char =? 91) with true. cbv iota.
    rewrite skip_ws_newline_indent.
    destruct (render_head (S level) x Hpx) as [c [t [Hr [Hws [H93 _]]]]].
    rewrite skip_ws_render by assumption.
    rewrite Hr at 1. cbn [app]. rewrite H93.
    change (c :: t ++ ?s) with ((c :: t) ++ s). rewrite <- Hr.
    apply (parse_items_render l HF Hl x [] level rest fuel Hx Hpx).
    simpl in Hfuel. lia.
  - destruct d as [|[k x] d]; [reflexivity |].
    cbn [plain map fst snd] in Hp.
    apply andb_true_iff in Hp as [Hkeys Hp]. cbn [forallb snd] in Hp.
    apply andb_true_iff in Hp as [Hpx Hd].
    inversion IH as [|? ? Hx HF]; subst. cbn [snd] in Hx.
    cbn [render]. rewrite <- !app_assoc.
    change (str "{" ++ ?s) with ("{"%char :: s).
    cbn [parse_value]. change (code "{"%char =? 34) with false.
    change (code "{"%char =? 123) with true. cbv iota.
    rewrite skip_ws_newline_indent.
    unfold quote at 1. cbn [app]. rewrite <- !app_assoc. cbn [app].
    cbn [skip_ws]. change (is_json_ws dquote) with false. cbv iota.
    change (code dquote =? 125) with false.
    change (code dquote =? 34) with true. cbv iota.
    apply (parse_members_render d HF Hd k x [] level rest fuel Hx Hpx).
    + cbn [map app]. now apply distinct_keys_NoDup.
    + simpl in Hfuel. lia.
Qed.

Lemma json_loads_dumps (v : json) :
  plain v = true -> json_loads (json_dumps v) = Ok v.
Proof.
  intros Hp. unfold json_loads, json_dumps.
  rewrite <- (app_nil_r (render 0 v)) at 2.
  rewrite skip_ws_render by assumption.
  rewrite (parse_render v 0 [] _ Hp).
  - reflexivity.
  - pose proof (render_length 0 v Hp). lia.
Qed.

(* ===================================================================== *)
(** ** json.loads: the fuel is enough *)
(* ===================================================================== *)

Lemma skip_ws_length (s : text) : length (skip_ws s) <= length s.
Proof.
  induction s as [|c s IH]; simpl; [lia |].
  destruct (is_json_ws c); simpl; lia.
Qed.

Lemma scan_string_shorter (n : nat) :
  forall s acc x rest,
    length s <= n -> scan_string s acc = Ok (x, rest) ->
    length rest < length s.
Proof.
  induction n as [|n IH]; intros s acc x rest Hn H.
  - destruct s; [discriminate | simpl in Hn; lia].
  - destruct s as [|c t]; [discriminate |]. simpl in Hn.
    cbn [scan_string] in H.
    destruct (code c =? 34).
    { injection H as _ <-. simpl. lia. }
    destruct (code c =? 92).
    + destruct t as [|e t']; [discriminate |]. simpl in Hn.
      destruct (code e =? 117).
      * destruct t' as [|h1 [|h2 [|h3 [|h4 t'']]]]; try discriminate.
        destruct (hex4 h1 h2 h3 h4) as [k|]; [| discriminate].
        destruct (k <? 256); [| discriminate].
        apply IH in H; simpl in *; lia.
      * destruct (unescape e); [| discriminate].
        apply IH in H; simpl in *; lia.
    + destruct (code c <? 32); [discriminate |].
      apply IH in H; simpl in *; lia.
Qed.

Lemma match_at_shorter (r : regex) (s : text) (st : mstate) :
  match_at r s = Some st -> length (ms_rest st) + minw r <= length s.
Proof.
  intros H. apply match_at_width in H as [w [Hw [Lw _]]].
  apply lang_minw in Lw. apply (f_equal (@length ascii)) in Hw.
  rewrite length_app in Hw. lia.
Qed.

Lemma startswith_skipn (p s : text) :
  startswith p s = true -> length (skipn (length p) s) + length p = length s.
Proof.
  intros H. apply startswith_true in H as [t ->].
  rewrite skipn_app, skipn_all, Nat.sub_diag, !length_app.
  change (skipn 0 t) with t. simpl. lia.
Qed.

Lemma scan_atom_shorter (s : text) (v : json) (rest : text) :
  scan_atom s = Ok (v, rest) -> length rest < length s.
Proof.
  unfold scan_atom.
  destruct (startswith (str "null") s) eqn:E1.
  { intros H. injection H as _ <-. apply startswith_skipn in E1.
    simpl in E1. lia. }
  destruct (startswith (str "true") s) eqn:E2.
  { intros H. injection H as _ <-. apply startswith_skipn in E2.
    simpl in E2. lia. }
  destruct (startswith (str "false") s) eqn:E3.
  { intros H. injection H as _ <-. apply startswith_skipn in E3.
    simpl in E3. lia. }
  destruct (scan_number s) as [r|] eqn:En.
  - unfold scan_number in En.
    destruct (match_at int_re s) as [st|] eqn:Hi; [| discriminate].
    destruct (match_at frac_exp_re (ms_rest st)) as [st'|] eqn:Hf;
      [| discriminate].
    apply match_at_shorter in Hi. apply match_at_shorter in Hf.
    change (minw int_re) with 1 in Hi.
    intros H. subst r.
    destruct (consumed (ms_rest st) (ms_rest st')).
    + destruct (MAX_STR_DIGITS <? _); [discriminate |].
      injection En as _ <-. lia.
    + injection En as _ <-. lia.
  - destruct (startswith (str "NaN") s) eqn:E4.
    { intros H. injection H as _ <-. apply startswith_skipn in E4.
      simpl in E4. lia. }
    destruct (startswith (str "Infinity") s) eqn:E5.
    { intros H. injection H as _ <-. apply startswith_skipn in E5.
      simpl in E5. lia. }
    destruct (startswith (str "-Infinity") s) eqn:E6.
    { intros H. injection H as _ <-. apply startswith_skipn in E6.
      simpl in E6. lia. }
    discriminate.
Qed.

Lemma parse_value_S (fuel : nat) (c : ascii) (t : text) :
  parse_value (S fuel) (c :: t) =
  if code c =? 34 then
    '(x, rest) ← scan_string t []; Ok (JStr x, rest)
  else if code c =? 123 then
    match skip_ws t with
    | c' :: t' =>
        if code c' =? 125 then Ok (JDict [], t')
        else if code c' =? 34 then parse_members fuel t' []
        else Err JSONDecodeError
    | [] => Err JSONDecodeError
    end
  else if code c =? 91 then
    match skip_ws t with
    | c' :: t' =>
        if code c' =? 93 then Ok (JList [], t')
        else parse_items fuel (c' :: t') []
    | [] => Err JSONDecodeError
    end
  else scan_atom (c :: t).
Proof. reflexivity. Qed.

Lemma parse_items_S (fuel : nat) (s : text) (values : list json) :
  parse_items (S fuel) s values =
  '(value, rest) ← parse_value fuel s;
  match skip_ws rest with
  | c :: t =>
      if code c =? 93 then Ok (JList (values ++ [value]), t)
      else if code c =? 44
           then parse_items fuel (skip_ws t) (values ++ [value])
      else Err JSONDecodeError
  | [] => Err JSONDecodeError
  end.
Proof. reflexivity. Qed.

Lemma parse_members_S (fuel : nat) (s : text) (pairs : list (text * json)) :
  parse_members (S fuel) s pairs =
  '(key, rest) ← scan_string s [];
  match skip_ws rest with
  | c :: t =>
      if code c =? 58 then
        '(value, rest') ← parse_value fuel (skip_ws t);
        match skip_ws rest' with
        | c' :: t' =>
            if code c' =? 125 then Ok (JDict (dict_set pairs key value), t')
            else if code c' =? 44 then
              match skip_ws t' with
              | c'' :: t'' =>
                  if code c'' =? 34
                  then parse_members fuel t'' (dict_set pairs key value)
                  else Err JSONDecodeError
              | [] => Err JSONDecodeError
              end
            else Err JSONDecodeError
        | [] => Err JSONDecodeError
        end
      else Err JSONDecodeError
  | [] => Err JSONDecodeError
  end.
Proof. reflexivity. Qed.

Lemma skip_ws_cons_length (s : text) (c : ascii) (t : text) :
  skip_ws s = c :: t -> length t < length s.
Proof.
  intros H. pose proof (skip_ws_length s) as Hl. rewrite H in Hl.
  simpl in Hl. lia.
Qed.

(** Whatever the scanner reads, it reads at least one character. *)
Lemma parse_shorter (fuel : nat) :
  (forall s v r, parse_value fuel s = Ok (v, r) -> length r < length s) /\
  (forall s values v r,
      parse_items fuel s values = Ok (v, r) -> length r < length s) /\
  (forall s pairs v r,
      parse_members fuel s pairs = Ok (v, r) -> length r < length s).
Proof.
  induction fuel as [|fuel [IHv [IHi IHm]]].
  - repeat split; intros; discriminate.
  - assert (Hv : forall s v r, parse_value (S fuel) s = Ok (v, r) ->
                               length r < length s).
    { intros [|c t] v r H; [discriminate |]. rewrite parse_value_S in H.
      destruct (code c =? 34).
      { destruct (scan_string t []) as [[x rest]|] eqn:Hs; [| discriminate].
        cbn in H. injection H as _ <-.
        apply (scan_string_shorter (length t)) in Hs; simpl; lia. }
      destruct (code c =? 123).
      { destruct (skip_ws t) as [|c' t'] eqn:Hw; [discriminate |].
        apply skip_ws_cons_length in Hw.
        destruct (code c' =? 125).
        - injection H as _ <-. simpl. lia.
        - destruct (code c' =? 34); [| discriminate].
          apply IHm in H. simpl. lia. }
      destruct (code c =? 91).
      { destruct (skip_ws t) as [|c' t'] eqn:Hw; [discriminate |].
        apply skip_ws_cons_length in Hw.
        destruct (code c' =? 93).
        - injection H as _ <-. simpl. lia.
        - apply IHi in H. simpl in *. lia. }
      now apply scan_atom_shorter in H. }
    split; [exact Hv |]. split.
    + intros s values v r H. rewrite parse_items_S in H.
      destruct (parse_value fuel s) as [[value rest]|] eqn:Hp; [| discriminate].
      cbn in H. apply IHv in Hp.
      destruct (skip_ws rest) as [|c t] eqn:Hw; [discriminate |].
      apply skip_ws_cons_length in Hw.
      destruct (code c =? 93).
      * injection H as _ <-. lia.
      * destruct (code c =? 44); [| discriminate].
        apply IHi in H. pose proof (skip_ws_length t). lia.
    + intros s pairs v r H. rewrite parse_members_S in H.
      destruct (scan_string s []) as [[key rest]|] eqn:Hs; [| discriminate].
      cbn in H. apply (scan_string_shorter (length s)) in Hs; [| lia].
      destruct (skip_ws rest) as [|c t] eqn:Hw; [discriminate |].
      apply skip_ws_cons_length in Hw.
      destruct (code c =? 58); [| discriminate].
      destruct (parse_value fuel (skip_ws t)) as [[value rest']|] eqn:Hp;
        [| discriminate].
      cbn in H. apply IHv in Hp. pose proof (skip_ws_length t).
      destruct (skip_ws rest') as [|c' t'] eqn:Hw'; [discriminate |].
      apply skip_ws_cons_length in Hw'.
      destruct (code c' =? 125).
      * injection H as _ <-. lia.
      * destruct (code c' =? 44); [| discriminate].
        destruct (skip_ws t') as [|c'' t''] eqn:Hw''; [discriminate |].
        apply skip_ws_cons_length in Hw''.
        destruct (code c'' =? 34); [| discriminate].
        apply IHm in H. lia.
Qed.

(** With more fuel than twice the length of the text the scanner's answer
    no longer depends on the fuel. *)
Lemma parse_fuel_stable (n : nat) :
  (forall s f1 f2,
      length s <= n -> 2 * length s < f1 -> 2 * length s < f2 ->
      parse_value f1 s = parse_value f2 s) /\
  (forall s values f1 f2,
      length s <= n -> 2 * length s + 1 < f1 -> 2 * length s + 1 < f2 ->
      parse_items f1 s values = parse_items f2 s values) /\
  (forall s pairs f1 f2,
      length s <= n -> 2 * length s + 1 < f1 -> 2 * length s + 1 < f2 ->
      parse_members f1 s pairs = parse_members f2 s pairs).
Proof.
  induction n as [|n [IHv [IHi IHm]]].
  - repeat split.
    + intros [|c t] f1 f2 Hn H1 H2; [| simpl in Hn; lia].
      destruct f1, f2; try lia. reflexivity.
    + intros [|c t] values f1 f2 Hn H1 H2; [| simpl in Hn; lia].
      destruct f1 as [|[|f1]], f2 as [|[|f2]]; try (simpl in *; lia).
      reflexivity.
    + intros [|c t] pairs f1 f2 Hn H1 H2; [| simpl in Hn; lia].
      destruct f1, f2; try (simpl in *; lia). reflexivity.
  - assert (Hv : forall s f1 f2,
              length s <= S n -> 2 * length s < f1 -> 2 * length s < f2 ->
              parse_value f1 s = parse_value f2 s).
    { intros [|c t] f1 f2 Hn H1 H2.
      - destruct f1, f2; try lia. reflexivity.
      - simpl in Hn, H1, H2.
        destruct f1 as [|g1]; [lia |]. destruct f2 as [|g2]; [lia |].
        rewrite !parse_value_S.
        destruct (code c =? 34); [reflexivity |].
        destruct (code c =? 123).
        { destruct (skip_ws t) as [|c' t'] eqn:Hw; [reflexivity |].
          apply skip_ws_cons_length in Hw.
          destruct (code c' =? 125); [reflexivity |].
          destruct (code c' =? 34); [| reflexivity].
          apply IHm; lia. }
        destruct (code c =? 91); [| reflexivity].
        pose proof (skip_ws_length t) as Hl.
        destruct (skip_ws t) as [|c' t'] eqn:Hw; [reflexivity |].
        destruct (code c' =? 93); [reflexivity |].
        simpl in Hl. apply IHi; simpl; lia. }
    split; [exact Hv |]. split.
    + intros s values f1 f2 Hn H1 H2.
      destruct f1 as [|g1]; [lia |]. destruct f2 as [|g2]; [lia |].
      rewrite !parse_items_S.
      rewrite (Hv s g1 g2) by lia.
      destruct (parse_value g2 s) as [[value rest]|] eqn:Hp; [| reflexivity].
      cbn. apply (proj1 (parse_shorter g2)) in Hp.
      destruct (skip_ws rest) as [|c t] eqn:Hw; [reflexivity |].
      apply skip_ws_cons_length in Hw.
      destruct (code c =? 93); [reflexivity |].
      destruct (code c =? 44); [| reflexivity].
      pose proof (skip_ws_length t). apply IHi; lia.
    + intros s pairs f1 f2 Hn H1 H2.
      destruct f1 as [|g1]; [lia |]. destruct f2 as [|g2]; [lia |].
      rewrite !parse_members_S.
      destruct (scan_string s []) as [[key rest]|] eqn:Hs; [| reflexivity].
      cbn. apply (scan_string_shorter (length s)) in Hs; [| lia].
      destruct (skip_ws rest) as [|c t] eqn:Hw; [reflexivity |].
      apply skip_ws_cons_length in Hw.
      destruct (code c =? 58); [| reflexivity].
      pose proof (skip_ws_length t).
      rewrite (IHv (skip_ws t) g1 g2) by lia.
      destruct (parse_value g2 (skip_ws t)) as [[value rest']|] eqn:Hp;
        [| reflexivity].
      cbn. apply (proj1 (parse_shorter g2)) in Hp.
      destruct (skip_ws rest') as [|c' t'] eqn:Hw'; [reflexivity |].
      apply skip_ws_cons_length in Hw'.
      destruct (code c' =? 125); [reflexivity |].
      destruct (code c' =? 44); [| reflexivity].
      destruct (skip_ws t') as [|c'' t''] eqn:Hw''; [reflexivity |].
      apply skip_ws_cons_length in Hw''.
      destruct (code c'' =? 34); [| reflexivity].
      apply IHm; lia.
Qed.

(** [json_loads] is the scanner with any larger amount of fuel. *)
Lemma json_loads_fuel (s : text) (fuel : nat) :
  2 * length s < fuel ->
  json_loads s =
  '(v, rest) ← parse_value fuel (skip_ws s);
  match skip_ws rest with
  | [] => Ok v
  | _ :: _ => Err JSONDecodeError
  end.
Proof.
  intros H. unfold json_loads. pose proof (skip_ws_length s) as Hl.
  rewrite (proj1 (parse_fuel_stable (length (skip_ws s)))
                 (skip_ws s) (S (2 * length s)) fuel); [reflexivity | lia ..].
Qed.

(* ===================================================================== *)
(** ** The exchange document and the fallback report *)
(* ===================================================================== *)

Lemma plain_metrics (ms : list Metric) :
  forallb plain (map metric_json ms) = true.
Proof. induction ms as [|m ms IH]; [reflexivity | exact IH]. Qed.

Lemma plain_strs (l : list text) : forallb plain (map JStr l) = true.
Proof. induction l as [|s l IH]; [reflexivity | exact IH]. Qed.

Lemma plain_web_entry (item : IntelligenceItem) : plain (web_entry item) = true.
Proof.
  unfold web_entry. cbn [plain map fst snd forallb].
  rewrite plain_metrics. reflexivity.
Qed.

Lemma plain_email_entry (item : EmailIntelligence) :
  plain (email_entry item) = true.
Proof.
  unfold email_entry, pdf_excerpt. cbn [plain map fst snd forallb].
  rewrite plain_strs. destruct (pdf_content item) as [[|c s]|]; reflexivity.
Qed.

Lemma plain_intelligence_data (web_items : list IntelligenceItem)
      (email_items : list EmailIntelligence) :
  plain (intelligence_data web_items email_items) = true.
Proof.
  unfold intelligence_data. cbn [plain map fst snd forallb].
  assert (Hw : forallb plain (map web_entry web_items) = true).
  { induction web_items as [|i l IH]; [reflexivity |].
    cbn [map forallb]. now rewrite plain_web_entry. }
  assert (He : forallb plain (map email_entry email_items) = true).
  { induction email_items as [|i l IH]; [reflexivity |].
    cbn [map forallb]. now rewrite plain_email_entry. }
  rewrite Hw, He. reflexivity.
Qed.

(** C7. Parsing the exchange document gives back the structure that was
    written: the two lists mirror the items in order, a web entry carries
    the item's title, source, category, metrics, link and its summary cut
    to 500 characters, an email entry its subject, sender, snippet,
    attachments and the excerpt of its document cut to 1000 characters (or
    [None]). *)
Theorem exchange_document_round_trip (web_items : list IntelligenceItem)
        (email_items : list EmailIntelligence) :
  json_loads (prepare_intelligence_data web_items email_items)
  = Ok (JDict [ (str "web_intelligence", JList (map web_entry web_items));
                (str "email_intelligence",
                 JList (map email_entry email_items)) ])
  /\ (forall item,
        py_item (web_entry item) (str "title") = Ok (JStr (title item)) /\
        py_item (web_entry item) (str "source") = Ok (JStr (source item)) /\
        py_item (web_entry item) (str "category")
          = Ok (JStr (str (category item))) /\
        py_item (web_entry item) (str "metrics")
          = Ok (JList (map metric_json (metrics item))) /\
        py_item (web_entry item) (str "link") = Ok (JStr (link item)) /\
        py_item (web_entry item) (str "summary")
          = Ok (JStr (firstn 500 (summary item))))
  /\ (forall item,
        py_item (email_entry item) (str "subject") = Ok (JStr (subject item)) /\
        py_item (email_entry item) (str "sender") = Ok (JStr (sender item)) /\
        py_item (email_entry item) (str "snippet") = Ok (JStr (snippet item)) /\
        py_item (email_entry item) (str "attachments")
          = Ok (JList (map JStr (attachments item))) /\
        py_item (email_entry item) (str "pdf_excerpt")
          = Ok (match pdf_content item with
                | Some (c :: s) => JStr (firstn 1000 (c :: s))
                | _ => JNull
                end)).
Proof.
  split; [| split].
  - unfold prepare_intelligence_data.
    rewrite json_loads_dumps by apply plain_intelligence_data. reflexivity.
  - intros item. repeat split.
  - intros item. repeat split.
Qed.

Lemma text_eqb_str (a b : string) : text_eqb (str a) (str b) = String.eqb a b.
Proof.
  destruct (String.eqb a b) eqn:E.
  - apply String.eqb_eq in E. subst. now apply text_eqb_true.
  - destruct (text_eqb (str a) (str b)) eqn:E'; [| reflexivity].
    apply text_eqb_true, str_inj in E'. subst.
    rewrite String.eqb_refl in E. discriminate.
Qed.

Lemma select_category_web (name : string) (web_items : list IntelligenceItem) :
  select_category name (map web_entry web_items)
  = Ok (map web_entry (in_category name web_items)).
Proof.
  induction web_items as [|i l IH]; [reflexivity |].
  cbn [map select_category]. rewrite IH.
  change (py_get (web_entry i) (str "category") JNull)
    with (Ok (A := json) (JStr (str (category i)))).
  cbn [mbind result_bind is_str]. rewrite text_eqb_str.
  unfold in_category. cbn [List.filter].
  destruct (String.eqb (category i) name); reflexivity.
Qed.

Lemma lines_of_map (A : Type) (line : json -> result text) (f : A -> json)
      (g : A -> text) (l : list A) :
  (forall x, line (f x) = Ok (g x)) ->
  lines_of line (map f l) = Ok (flat_map g l).
Proof.
  intros H. induction l as [|x l IH]; [reflexivity |].
  cbn [map lines_of flat_map]. now rewrite H, IH.
Qed.

Lemma join_strs_map (l : list text) :
  join_strs (map JStr l) = Ok (join_texts l).
Proof.
  induction l as [|s [|s' l] IH]; try reflexivity.
  cbn [map join_strs join_texts] in *. now rewrite IH.
Qed.

Section Report.

Variable py_repr : json -> text.
Variable now : text.

Lemma breakthrough_line_web (item : IntelligenceItem) :
  breakthrough_line py_repr (web_entry item)
  = Ok (shown_breakthrough py_repr item).
Proof.
  unfold breakthrough_line, shown_breakthrough, web_entry.
  cbn [py_item py_get jget mbind result_bind py_format].
  repeat (rewrite text_eqb_str; cbn [String.eqb Ascii.eqb Bool.eqb andb]).
  destruct (metrics item) as [|m ms]; cbn [map truthy length Nat.eqb negb];
    cbn [mbind result_bind py_format]; now rewrite <- ?app_assoc.
Qed.

Lemma customer_line_web (item : IntelligenceItem) :
  customer_line py_repr (web_entry item) = Ok (shown_customer item).
Proof. reflexivity. Qed.

Lemma use_case_line_web (item : IntelligenceItem) :
  use_case_line py_repr (web_entry item) = Ok (shown_use_case item).
Proof. reflexivity. Qed.

Lemma white_paper_line_web (item : IntelligenceItem) :
  white_paper_line py_repr (web_entry item) = Ok (shown_white_paper item).
Proof. reflexivity. Qed.

Lemma email_line_entry (item : EmailIntelligence) :
  email_line py_repr (email_entry item) = Ok (shown_email item).
Proof.
  unfold email_line, shown_email, email_entry.
  cbn [py_item py_get jget mbind result_bind py_format py_slice].
  repeat (rewrite text_eqb_str; cbn [String.eqb Ascii.eqb Bool.eqb andb]).
  cbn [mbind result_bind py_format py_slice].
  destruct (attachments item) as [|a l] eqn:Ha;
    cbn [map truthy length Nat.eqb negb]; cbn [mbind result_bind py_iter].
  - reflexivity.
  - change (JStr a :: map JStr l) with (map JStr (a :: l)).
    rewrite join_strs_map. cbn [mbind result_bind].
    now rewrite <- ?app_assoc.
Qed.

(** The report of the exchange document of given items. *)
Lemma build_report_intelligence_data (web_items : list IntelligenceItem)
      (email_items : list EmailIntelligence) :
  build_report py_repr now (intelligence_data web_items email_items)
  = Ok (report_of py_repr now web_items email_items).
Proof.
  unfold build_report, intelligence_data.
  change (py_get (JDict _) (str "web_intelligence") (JList []))
    with (Ok (A := json) (JList (map web_entry web_items))).
  change (py_get (JDict _) (str "email_intelligence") (JList []))
    with (Ok (A := json) (JList (map email_entry email_items))).
  cbn [mbind result_bind py_iter py_len py_slice].
  rewrite !select_category_web. cbn [mbind result_bind].
  rewrite !length_map, !firstn_map.
  rewrite (lines_of_map _ (breakthrough_line py_repr) web_entry
                        (shown_breakthrough py_repr))
    by apply breakthrough_line_web.
  rewrite (lines_of_map _ (customer_line py_repr) web_entry shown_customer)
    by apply customer_line_web.
  rewrite (lines_of_map _ (use_case_line py_repr) web_entry shown_use_case)
    by apply use_case_line_web.
  rewrite (lines_of_map _ (white_paper_line py_repr) web_entry
                        shown_white_paper)
    by apply white_paper_line_web.
  rewrite (lines_of_map _ (email_line py_repr) email_entry shown_email)
    by apply email_line_entry.
  cbn [mbind result_bind]. unfold report_of. now rewrite <- ?app_assoc.
Qed.

Lemma fallback_synthesize_prepared (web_items : list IntelligenceItem)
      (email_items : list EmailIntelligence) :
  fallback_synthesize py_repr now
                      (prepare_intelligence_data web_items email_items)
  = Ok (report_of py_repr now web_items email_items).
Proof.
  unfold fallback_synthesize, prepare_intelligence_data.
  rewrite json_loads_dumps by apply plain_intelligence_data.
  apply build_report_intelligence_data.
Qed.

End Report.




(** C10. In the fallback report every section header shows the full size
    of its bucket (for White Papers: the bucket plus all email items),
    while the section lists at most 10 entries (White Papers: at most 5
    white papers and 5 email items); so for a bucket above the cap the
    header states more items than the section lists.  The report is given
    character by character: each header with the numeral it displays, each
    section with the entries it lists. *)
Theorem section_headers_uncapped (py_repr : json -> text) (now : text)
        (web_items : list IntelligenceItem)
        (email_items : list EmailIntelligence) :
  let breakthroughs := in_category "breakthrough" web_items in
  let use_cases := in_category "use_case" web_items in
  let customer_items := in_category "customer_improvement" web_items in
  let white_papers := in_category "white_paper" web_items in
  let listed_breakthroughs := firstn 10 breakthroughs in
  let listed_customer := firstn 10 customer_items in
  let listed_use_cases := firstn 10 use_cases in
  let listed_white_papers := firstn 5 white_papers in
  let listed_emails := firstn 5 email_items in
  fallback_synthesize py_repr now
    (prepare_intelligence_data web_items email_items)
  = Ok (str "# Sentinel Intelligence Report" ++ [newline] ++
        str "**Date**: " ++ now ++ [newline] ++
        str "**Items Analyzed**: " ++
        decimal (length web_items + length email_items) ++ [newline] ++
        str "**Mode**: Rule-Based Fallback (AI unavailable)" ++ [newline] ++
        [newline] ++
        str "## Executive Summary" ++ [newline] ++
        str "Processed " ++ decimal (length web_items) ++
        str " web intelligence items and " ++ decimal (length email_items) ++
        str " email items. " ++ [newline] ++
        str "This report was generated using keyword-based categorization." ++
        [newline] ++
        [newline] ++
        str "## Breakthroughs (" ++ decimal (length breakthroughs) ++
        str " items)" ++ [newline] ++
        flat_map (shown_breakthrough py_repr) listed_breakthroughs ++
        [newline] ++
        str "## Customer Improvements (" ++ decimal (length customer_items) ++
        str " items)" ++ [newline] ++
        flat_map shown_customer listed_customer ++
        [newline] ++
        str "## Use Cases (" ++ decimal (length use_cases) ++
        str " items)" ++ [newline] ++
        flat_map shown_use_case listed_use_cases ++
        [newline] ++
        str "## White Papers (" ++
        decimal (length white_papers + length email_items) ++
        str " items)" ++ [newline] ++
        flat_map shown_white_paper listed_white_papers ++
        flat_map shown_email listed_emails ++
        [newline] ++
        str "## Raw Signal Count" ++ [newline] ++
        str "- Total web items: " ++ decimal (length web_items) ++ [newline] ++
        str "- Total email items: " ++ decimal (length email_items) ++
        [newline] ++
        str "- Breakthroughs: " ++ decimal (length breakthroughs) ++
        [newline] ++
        str "- Customer Improvements: " ++ decimal (length customer_items) ++
        [newline] ++
        str "- Use Cases: " ++ decimal (length use_cases) ++ [newline] ++
        str "- White Papers: " ++ decimal (length white_papers) ++ [newline])
  /\ length listed_breakthroughs = Nat.min 10 (length breakthroughs)
  /\ length listed_customer = Nat.min 10 (length customer_items)
  /\ length listed_use_cases = Nat.min 10 (length use_cases)
  /\ length listed_white_papers + length listed_emails
     = Nat.min 5 (length white_papers) + Nat.min 5 (length email_items)
  /\ (10 < length breakthroughs ->
      length listed_breakthroughs < length breakthroughs)
  /\ (10 < length customer_items ->
      length listed_customer < length customer_items)
  /\ (10 < length use_cases ->
      length listed_use_cases < length use_cases)
  /\ (5 < length white_papers \/ 5 < length email_items ->
      length listed_white_papers + length listed_emails
      < length white_papers + length email_items).
Proof.
  cbv zeta. split.
  - rewrite fallback_synthesize_prepared. f_equal.
    unfold report_of, report_head, section_header, raw_signal_count.
    change dec with decimal.
    rewrite <- !app_assoc.
    repeat (first [ reflexivity
                  | apply (f_equal2 (@app ascii)); [reflexivity |] ]).
  - rewrite !length_firstn. repeat split; lia.
Qed.

(** Eleven breakthroughs and six email items: the Breakthroughs header
    says 11 and ten entries follow it; the White Papers header says 6 and
    five entries follow it. *)
Lemma section_headers_uncapped_witness :
  fallback_synthesize (fun _ => []) (str "2026-11-04 09:00")
    (prepare_intelligence_data
       (repeat (mkItem (str "T") (str "S") [] [] [] "breakthrough" [] None) 11)
       (repeat (mkEmail (str "R") (str "F") [] [] [] [] None) 6))
  = Ok (str "# Sentinel Intelligence Report" ++ [newline] ++
        str "**Date**: 2026-11-04 09:00" ++ [newline] ++
        str "**Items Analyzed**: 17" ++ [newline] ++
        str "**Mode**: Rule-Based Fallback (AI unavailable)" ++ [newline] ++
        [newline] ++
        str "## Executive Summary" ++ [newline] ++
        str "Processed 11 web intelligence items and 6 email items. " ++
        [newline] ++
        str "This report was generated using keyword-based categorization." ++
        [newline] ++
        [newline] ++
        str "## Breakthroughs (11 items)" ++ [newline] ++
        concat (repeat (str "- **T** (S)" ++ [newline]) 10) ++
        [newline] ++
        str "## Customer Improvements (0 items)" ++ [newline] ++
        [newline] ++
        str "## Use Cases (0 items)" ++ [newline] ++
        [newline] ++
        str "## White Papers (6 items)" ++ [newline] ++
        concat (repeat (str "- **R** (from: F)" ++ [newline]) 5) ++
        [newline] ++
        str "## Raw Signal Count" ++ [newline] ++
        str "- Total web items: 11" ++ [newline] ++
        str "- Total email items: 6" ++ [newline] ++
        str "- Breakthroughs: 11" ++ [newline] ++
        str "- Customer Improvements: 0" ++ [newline] ++
        str "- Use Cases: 0" ++ [newline] ++
        str "- White Papers: 0" ++ [newline]).
Proof.
  pose proof (section_headers_uncapped
                (fun _ => []) (str "2026-11-04 09:00")
                (repeat (mkItem (str "T") (str "S") [] [] [] "breakthrough"
                                [] None) 11)
                (repeat (mkEmail (str "R") (str "F") [] [] [] [] None) 6))
    as [H _].
  rewrite H. vm_compute. reflexivity.
Defined.

(* ===================================================================== *)
(** ** What a metric's value is *)
(* ===================================================================== *)

Section StarInvariant.

Variable body : mstate -> list mstate.
Variable I : mstate -> Prop.
Hypothesis body_inv : forall st st', I st -> In st' (body st) -> I st'.

Lemma star_loop_inv (fuel : nat) :
  forall st st', I st -> In st' (star_loop body fuel st) -> I st'.
Proof.
  induction fuel as [|fuel IH]; intros st st' Hst Hin; simpl in Hin.
  - now destruct Hin as [<- | []].
  - apply in_app_or in Hin as [Hin | [<- | []]]; [| assumption].
    apply in_flat_map in Hin as [st1 [H1 Hin]].
    destruct (advances st st1); [| destruct Hin].
    eapply IH; [| exact Hin]. eauto.
Qed.

End StarInvariant.

(** The group, once set, stays set. *)
Lemma paths_keep_group (r : regex) :
  forall st st', ms_group st <> None -> In st' (paths r st) ->
                 ms_group st' <> None.
Proof.
  induction r as [|p|a IHa b IHb|a IHa b IHb|a IHa|a IHa];
    simpl; intros st st' Hst Hin.
  - now destruct Hin as [<- | []].
  - destruct (ms_rest st) as [|c s']; [destruct Hin |].
    destruct (p c); [| destruct Hin]. now destruct Hin as [<- | []].
  - apply in_flat_map in Hin as [st1 [H1 H2]]. eauto.
  - apply in_app_or in Hin as [Hin | Hin]; eauto.
  - eapply (star_loop_inv (paths a) (fun st => ms_group st <> None));
      [| exact Hst | exact Hin].
    intros x y Hx Hy. eauto.
  - apply in_map_iff in Hin as [st1 [<- _]]. discriminate.
Qed.

Lemma paths_must_group (r : regex) :
  must_group r = true ->
  forall st st', In st' (paths r st) -> ms_group st' <> None.
Proof.
  induction r as [|p|a IHa b IHb|a IHa b IHb|a IHa|a IHa];
    simpl; intros Hm st st' Hin; try discriminate.
  - apply in_flat_map in Hin as [st1 [H1 H2]].
    destruct (must_group a) eqn:Ha.
    + eapply paths_keep_group; [| exact H2]. eauto.
    + simpl in Hm. eauto.
  - apply andb_true_iff in Hm as [Ha Hb].
    apply in_app_or in Hin as [Hin | Hin]; eauto.
  - apply in_map_iff in Hin as [st1 [<- _]]. discriminate.
Qed.

Lemma paths_group_inv (G : text -> Prop) (s0 : text) (r : regex) :
  groups_in G r ->
  forall st st', group_inv G s0 st -> In st' (paths r st) ->
                 group_inv G s0 st'.
Proof.
  induction r as [|p|a IHa b IHb|a IHa b IHb|a IHa|a IHa];
    simpl; intros HG st st' Hst Hin.
  - now destruct Hin as [<- | []].
  - destruct (ms_rest st) as [|c s'] eqn:Hs; [destruct Hin |].
    destruct (p c); [| destruct Hin]. destruct Hin as [<- | []].
    destruct Hst as [[pre Hpre] Hg]. split; [| exact Hg].
    exists (pre ++ [c]). simpl. rewrite Hpre, Hs, <- app_assoc. reflexivity.
  - destruct HG as [Ha Hb]. apply in_flat_map in Hin as [st1 [H1 H2]]. eauto.
  - destruct HG as [Ha Hb]. apply in_app_or in Hin as [Hin | Hin]; eauto.
  - eapply (star_loop_inv (paths a) (group_inv G s0)); [| exact Hst | exact Hin].
    intros x y Hx Hy. eauto.
  - destruct HG as [Hw Ha]. apply in_map_iff in Hin as [st1 [<- H1]].
    pose proof (IHa Ha _ _ Hst H1) as [Hrest _].
    apply paths_sound in H1 as [w [Hw1 Lw]].
    destruct Hst as [[pre Hpre] _].
    split; [exact Hrest |]. simpl. intros w' Hw'. injection Hw' as <-.
    rewrite Hw1, consumed_app. split; [now apply Hw |].
    exists pre, (ms_rest st1). now rewrite Hpre, Hw1.
Qed.

Lemma factor_skipn (w : text) (p : nat) (s : text) :
  factor w (skipn p s) -> factor w s.
Proof.
  intros [pre [post H]]. exists (firstn p s ++ pre), post.
  rewrite <- app_assoc, <- H. now rewrite firstn_skipn.
Qed.

(** The group of a match of a pattern that always goes through its group. *)
Lemma match_at_group (G : text -> Prop) (r : regex) (s : text) (st : mstate) :
  must_group r = true -> groups_in G r ->
  match_at r s = Some st ->
  G (group1 st) /\ factor (group1 st) s.
Proof.
  intros Hm HG H. apply (first_in _ (start_state s)) in H.
  pose proof (paths_must_group r Hm _ _ H) as Hsome.
  assert (H0 : group_inv G s (start_state s)).
  { split; [now exists [] | discriminate]. }
  destruct (paths_group_inv G s r HG _ _ H0 H) as [_ Hg].
  unfold group1. destruct (ms_group st) as [w|]; [| congruence].
  now apply Hg.
Qed.

Lemma METRIC_PATTERNS_group (ty : string) (pat : regex) :
  In (ty, pat) METRIC_PATTERNS ->
  must_group pat = true /\
  groups_in (fun w => if String.eqb ty "cost_savings" then lang amount w
                      else lang number w) pat.
Proof.
  simpl. intros [H | [H | [H | [H | []]]]]; injection H as <- <-;
    (split; [reflexivity |]); simpl; tauto.
Qed.

Lemma amount_shape (w : text) :
  lang amount w ->
  exists d rest, w = d :: rest /\ is_digit d = true /\
                 Forall (fun c => numeral_char c = true) rest.
Proof.
  intros H. pose proof (lang_first _ _ H) as Hf.
  assert (Hc : Forall (fun c => numeral_char c = true) w).
  { apply (lang_chars amount); [vm_compute; reflexivity | assumption]. }
  destruct w as [|d rest]; [vm_compute in Hf; discriminate |].
  exists d, rest. split; [reflexivity |]. split.
  - revert Hf. by_enumeration.
  - now inversion Hc.
Qed.

Lemma number_shape (w : text) :
  lang number w ->
  exists d rest, w = d :: rest /\ is_digit d = true /\
                 Forall (fun c => is_digit c || ascii_eqb c "." = true) rest.
Proof.
  intros H. destruct (number_starts_with_digit w H) as [d [rest [-> Hd]]].
  assert (Hc : Forall (fun c => is_digit c || ascii_eqb c "." = true)
                      (d :: rest)).
  { apply (lang_chars number); [vm_compute; reflexivity | assumption]. }
  exists d, rest. split; [reflexivity |]. split; [assumption |].
  now inversion Hc.
Qed.

(** Where a metric comes from. *)
Lemma extract_metrics_origin (s : text) (m : Metric) :
  In m (extract_metrics s) ->
  exists pat p st,
    In (metric_type m, pat) METRIC_PATTERNS /\
    p < length s /\
    match_at pat (skipn p s) = Some st /\
    metric_value m = group1 st /\
    metric_context m = firstn 200 s.
Proof.
  unfold extract_metrics. rewrite scan_patterns_app, app_nil_l.
  intros Hin. apply in_flat_map in Hin as [[ty pat] [Hpat Hin]].
  simpl in Hin. apply in_metrics_of in Hin as [mo [Hmo ->]].
  pose proof (METRIC_PATTERNS_advance ty pat Hpat) as Hmin.
  destruct (finditer_spec pat Hmin s) as [_ Hm _].
  destruct (Hm mo Hmo) as [Hb [st [Hat [_ Hg]]]].
  exists pat, (m_start mo), st. simpl. repeat split; auto; lia.
Qed.

(** X1. Every metric has one of the four types; its value is a part of the
    text that starts with a digit and is made of digits, points and, for
    cost_savings only, commas; its context has at most 200 characters. *)
Theorem extract_metrics_values (s : text) (m : Metric) :
  In m (extract_metrics s) ->
  In (metric_type m)
     [ "percentage"; "multiplier"; "time_savings"; "cost_savings" ]%string
  /\ factor (metric_value m) s
  /\ (exists d rest, metric_value m = d :: rest /\ is_digit d = true /\
                     Forall (fun c => numeral_char c = true) rest)
  /\ (metric_type m <> "cost_savings"%string ->
      Forall (fun c => is_digit c || ascii_eqb c "." = true) (metric_value m))
  /\ metric_context m = firstn 200 s
  /\ length (metric_context m) <= 200.
Proof.
  intros Hin.
  destruct (extract_metrics_origin s m Hin) as [pat [p [st [Hpat [Hp [Hat [Hv Hc]]]]]]].
  destruct (METRIC_PATTERNS_group _ _ Hpat) as [Hm HG].
  destruct (match_at_group _ pat _ st Hm HG Hat) as [Hw Hf].
  rewrite <- Hv in Hw, Hf. apply factor_skipn in Hf.
  split; [| split; [assumption | split; [| split; [| split]]]].
  - change [ "percentage"; "multiplier"; "time_savings"; "cost_savings" ]%string
      with (map fst METRIC_PATTERNS).
    apply (in_map fst) in Hpat. exact Hpat.
  - destruct (String.eqb (metric_type m) "cost_savings").
    + now apply amount_shape.
    + destruct (number_shape _ Hw) as [d [rest [E [Hd Hr]]]].
      exists d, rest. repeat split; try assumption.
      eapply List.Forall_impl; [| exact Hr]. simpl. intros c Hc'.
      unfold numeral_char. now rewrite Hc'.
  - intros Hne. destruct (String.eqb_spec (metric_type m) "cost_savings");
      [contradiction |].
    destruct (number_shape _ Hw) as [d [rest [E [Hd Hr]]]]. rewrite E.
    constructor; [now rewrite Hd | assumption].
  - assumption.
  - rewrite Hc. apply firstn_le_length.
Qed.

Lemma extract_metrics_values_witness :
  factor (str "3") sample_text /\
  Forall (fun c => is_digit c || ascii_eqb c "." = true) (str "3").
Proof.
  assert (Hin : In (mkMetric "time_savings" (str "3") (firstn 200 sample_text))
                   (extract_metrics sample_text)).
  { vm_compute. auto. }
  pose proof (extract_metrics_values _ _ Hin) as [_ [Hf [_ [Hd _]]]].
  split; [exact Hf |]. apply Hd. discriminate.
Defined.

(** X2. A text without a digit has no metric. *)
Theorem extract_metrics_needs_digit (s : text) :
  (forall c, In c s -> is_digit c = false) -> extract_metrics s = [].
Proof.
  intros Hno. destruct (extract_metrics s) as [|m ms] eqn:E; [reflexivity |].
  assert (Hin : In m (extract_metrics s)) by (rewrite E; now left).
  destruct (extract_metrics_origin s m Hin) as [pat [p [st [Hpat [Hp [Hat [Hv Hc]]]]]]].
  destruct (METRIC_PATTERNS_group _ _ Hpat) as [Hm HG].
  destruct (match_at_group _ pat _ st Hm HG Hat) as [Hw Hf].
  apply factor_skipn in Hf. destruct Hf as [pre [post Hs]].
  assert (Hd : exists d rest, group1 st = d :: rest /\ is_digit d = true).
  { destruct (String.eqb (metric_type m) "cost_savings").
    - destruct (amount_shape _ Hw) as [d [rest [E' [Hd _]]]]. eauto.
    - destruct (number_shape _ Hw) as [d [rest [E' [Hd _]]]]. eauto. }
  destruct Hd as [d [rest [E' Hd]]].
  rewrite (Hno d) in Hd; [discriminate |].
  rewrite Hs, E'. apply in_or_app. right. now left.
Qed.

Lemma extract_metrics_needs_digit_witness :
  extract_metrics (str "Costs were reduced by half, hours were saved") = [].
Proof.
  apply extract_metrics_needs_digit.
  intros c Hin. vm_compute in Hin.
  repeat (destruct Hin as [<- | Hin]; [reflexivity |]). destruct Hin.
Defined.
(* ===================================================================== *)
(** ** The patterns are applied without regard to case *)
(* ===================================================================== *)




























(* ===================================================================== *)
(** ** The categoriser on a longer text *)
(* ===================================================================== *)

Lemma contains_extend (kw pre s post : text) :
  contains kw s = true -> contains kw (pre ++ s ++ post) = true.
Proof.
  rewrite !contains_true. intros [a [b ->]].
  exists (pre ++ a), (b ++ post). now rewrite <- !app_assoc.
Qed.

Lemma any_keyword_extend (keywords : list string) (pre s post : text) :
  any_keyword keywords s = true ->
  any_keyword keywords (pre ++ s ++ post) = true.
Proof.
  induction keywords as [|kw more IH]; simpl; [discriminate |].
  destruct (contains (str kw) s) eqn:E.
  - intros _. now rewrite (contains_extend _ pre s post E).
  - intros H. destruct (contains (str kw) (pre ++ s ++ post)); auto.
Qed.

Lemma first_category_range (table : list (string * list string)) (s : text) :
  In (first_category table s) (map fst table ++ ["general"%string]).
Proof.
  induction table as [|[c kws] table IH]; simpl; [now left |].
  destruct (any_keyword kws s); [now left | now right].
Qed.

Lemma rank_in_first_category (table : list (string * list string))
      (pre s post : text) :
  List.NoDup (map fst table ++ ["general"%string]) ->
  rank_in (map fst table) (first_category table (pre ++ s ++ post))
  <= rank_in (map fst table) (first_category table s).
Proof.
  induction table as [|[c kws] table IH]; simpl; intros Hnd; [lia |].
  inversion Hnd as [|? ? Hc Hnd']; subst.
  destruct (any_keyword kws s) eqn:E.
  - rewrite (any_keyword_extend kws pre s post E). rewrite String.eqb_refl. lia.
  - destruct (any_keyword kws (pre ++ s ++ post)).
    + rewrite String.eqb_refl. lia.
    + destruct (String.eqb_spec c (first_category table (pre ++ s ++ post)))
        as [E1 | _]; [lia |].
      destruct (String.eqb_spec c (first_category table s)) as [E2 | _].
      * exfalso. apply Hc. rewrite E2. apply first_category_range.
      * apply le_n_S. now apply IH.
Qed.

(** X4. Text added before or behind never moves a text to a later category:
    the category of the longer text is that of the shorter one or one
    declared before it ("general" counting as the last). *)
Theorem categorize_content_extension (pre s post : text) :
  category_rank (categorize_content (pre ++ s ++ post))
  <= category_rank (categorize_content s)
  /\ category_rank "customer_improvement" = 0
  /\ category_rank "breakthrough" = 1
  /\ category_rank "use_case" = 2
  /\ category_rank "white_paper" = 3
  /\ category_rank "general" = 4
  /\ In (categorize_content s)
        [ "customer_improvement"; "breakthrough"; "use_case"; "white_paper";
          "general" ]%string.
Proof.
  split; [| repeat split; try reflexivity; apply first_category_range].
  unfold categorize_content, category_rank, text_lower.
  rewrite !map_app.
  apply (rank_in_first_category CATEGORY_KEYWORDS).
  simpl. repeat constructor; simpl; intuition discriminate.
Qed.
(* ===================================================================== *)
(** ** What the feed path and the page path hand over *)
(* ===================================================================== *)

Lemma flat_map_length_le (A B : Type) (f : A -> list B) (k : nat)
      (l : list A) :
  (forall x, length (f x) <= k) -> length (flat_map f l) <= k * length l.
Proof.
  intros H. induction l as [|x l IH]; simpl; [lia |].
  rewrite length_app. specialize (H x). lia.
Qed.

Lemma in_firstn (A : Type) (n : nat) (x : A) (l : list A) :
  In x (firstn n l) -> In x l.
Proof.
  intros H. rewrite <- (firstn_skipn n l). apply in_or_app. now left.
Qed.

Lemma categorize_content_range (s : text) :
  In (categorize_content s) category_names.
Proof. apply (first_category_range CATEGORY_KEYWORDS). Qed.

Lemma extract_metrics_context (s : text) :
  Forall (fun m => length (metric_context m) <= 200) (extract_metrics s).
Proof.
  apply List.Forall_forall. intros m Hin.
  destruct (extract_metrics_origin s m Hin) as [pat [p [st [_ [_ [_ [_ ->]]]]]]].
  apply firstn_le_length.
Qed.

Lemma feed_entry_item_wellformed (get_text : text -> text) (now t : text)
      (entry : gmap string text) :
  wellformed_item (feed_entry_item get_text now t entry).
Proof.
  unfold wellformed_item, feed_entry_item. cbn [summary category metrics raw_content].
  repeat split.
  - destruct (dict_get entry "summary" (dict_get entry "description" []));
      [simpl; lia | apply firstn_le_length].
  - apply categorize_content_range.
  - apply extract_metrics_context.
Qed.

Lemma fragment_item_wellformed (now url : text) (article : fragment)
      (item : IntelligenceItem) :
  fragment_item now url article = Some item -> wellformed_item item.
Proof.
  unfold fragment_item. destruct (title_el article) as [t|]; [| discriminate].
  intros H. injection H as <-. unfold wellformed_item.
  cbn [summary category metrics raw_content]. repeat split.
  - destruct (summary_el article); [apply firstn_le_length | simpl; lia].
  - apply categorize_content_range.
  - apply extract_metrics_context.
Qed.

Lemma article_items_in (now url : text) (articles : list fragment)
      (item : IntelligenceItem) :
  In item (article_items now url articles) ->
  exists article, In article articles /\
                  fragment_item now url article = Some item.
Proof.
  induction articles as [|a more IH]; simpl; [intros [] |].
  destruct (fragment_item now url a) as [i|] eqn:E.
  - intros [<- | Hin]; [eauto |]. destruct (IH Hin) as [x [Hx Hi]]. eauto.
  - intros Hin. destruct (IH Hin) as [x [Hx Hi]]. eauto.
Qed.

Lemma fetch_rss_in (get_text : text -> text) (now : text)
      (parse : text -> option parsed_feed) (feeds : list text)
      (item : IntelligenceItem) :
  In item (fetch_rss_intelligence get_text now parse feeds) ->
  exists url f entry,
    In url feeds /\ parse url = Some f /\ bozo f = false /\
    In entry (firstn 10 (entries f)) /\
    item = feed_entry_item get_text now
                           (dict_get (feed f) "title" (str "Unknown Feed"))
                           entry.
Proof.
  unfold fetch_rss_intelligence. intros Hin.
  apply in_flat_map in Hin as [url [Hurl Hin]].
  unfold scan_feed in Hin. destruct (parse url) as [f|] eqn:Ef; [| destruct Hin].
  destruct (bozo f) eqn:Eb; [destruct Hin |].
  apply in_map_iff in Hin as [entry [<- Hentry]].
  exists url, f, entry. auto.
Qed.

Lemma fetch_deep_web_in (now : text) (avail : bool)
      (render : text -> option (list fragment)) (targets : list text)
      (item : IntelligenceItem) :
  In item (fetch_deep_web_intelligence now avail render targets) ->
  avail = true /\
  exists url articles article,
    In url (firstn 5 targets) /\ render url = Some articles /\
    In article (firstn 10 articles) /\
    fragment_item now url article = Some item.
Proof.
  unfold fetch_deep_web_intelligence. destruct avail; [| intros []].
  intros Hin. split; [reflexivity |].
  apply in_flat_map in Hin as [url [Hurl Hin]].
  destruct (render url) as [articles|] eqn:Er; [| destruct Hin].
  apply article_items_in in Hin as [article [Ha Hi]].
  exists url, articles, article. auto.
Qed.


(** X6. Every item of the feed path and of the page path has a summary of at
    most 500 characters, one of the five categories (never the default
    "uncategorized" of the record), metrics whose context has at most 200
    characters, and no raw content; so the cut that
    [prepare_intelligence_data] applies to the summary leaves it whole. *)
Theorem watchtower_items_wellformed (get_text : text -> text) (now : text)
        (parse : text -> option parsed_feed) (feeds : list text)
        (avail : bool) (render : text -> option (list fragment))
        (targets : list text) (item : IntelligenceItem) :
  In item (fetch_rss_intelligence get_text now parse feeds ++
           fetch_deep_web_intelligence now avail render targets) ->
  length (summary item) <= 500
  /\ In (category item)
        [ "customer_improvement"; "breakthrough"; "use_case"; "white_paper";
          "general" ]%string
  /\ category item <> "uncategorized"%string
  /\ Forall (fun m => length (metric_context m) <= 200) (metrics item)
  /\ raw_content item = None
  /\ py_item (web_entry item) (str "summary") = Ok (JStr (summary item)).
Proof.
  intros Hin.
  assert (Hw : wellformed_item item).
  { apply in_app_or in Hin as [Hin | Hin].
    - apply fetch_rss_in in Hin as [url [f [entry [_ [_ [_ [_ ->]]]]]]].
      apply feed_entry_item_wellformed.
    - apply fetch_deep_web_in in Hin as [_ [url [arts [art [_ [_ [_ Hi]]]]]]].
      eapply fragment_item_wellformed. exact Hi. }
  destruct Hw as [Hs [Hc [Hm Hr]]].
  split; [exact Hs |]. split; [exact Hc |]. split; [| split; [exact Hm |]].
  - intros E. rewrite E in Hc. simpl in Hc. intuition discriminate.
  - split; [exact Hr |].
    change (py_item (web_entry item) (str "summary"))
      with (Ok (A := json) (JStr (firstn 500 (summary item)))).
    now rewrite firstn_all2.
Qed.

Lemma watchtower_items_wellformed_witness :
  length (summary (feed_entry_item (fun s => s) [] (str "Feed")
                     {[ "summary"%string := repeat "a"%char 600 ]})) <= 500.
Proof.
  refine (proj1 (watchtower_items_wellformed
                   (fun s => s) []
                   (fun _ => Some (mkFeed false {[ "title"%string := str "Feed" ]}
                                    [ {[ "summary"%string := repeat "a"%char 600 ]} ]))
                   [ str "https://venturebeat.com/category/ai/feed/" ]
                   false (fun _ => None) []
                   (feed_entry_item (fun s => s) [] (str "Feed")
                      {[ "summary"%string := repeat "a"%char 600 ]})
                   _)).
  vm_compute. left. reflexivity.
Defined.

(** X7. The page path: without the browser library nothing is fetched; only the
    first five targets are rendered and each gives at most ten items; an
    item's source is "Deep Web: " and the first 30 characters of its page's
    URL; its link starts with "http" or with that URL, so for targets
    that start with "http" every link does. *)
Theorem fetch_deep_web_intelligence_links (now : text) (avail : bool)
        (render : text -> option (list fragment)) (targets : list text) :
  fetch_deep_web_intelligence now false render targets = []
  /\ length (fetch_deep_web_intelligence now avail render targets)
     <= 10 * Nat.min 5 (length targets)
  /\ fetch_deep_web_intelligence now avail render targets
     = fetch_deep_web_intelligence now avail render (firstn 5 targets)
  /\ (forall item,
        In item (fetch_deep_web_intelligence now avail render targets) ->
        exists url,
          In url (firstn 5 targets) /\
          source item = str "Deep Web: " ++ firstn 30 url /\
          timestamp item = now /\
          (startswith (str "http") (link item) = true \/
           exists rel, link item = url ++ rel))
  /\ (Forall (fun url => startswith (str "http") url = true) targets ->
      forall item,
        In item (fetch_deep_web_intelligence now avail render targets) ->
        startswith (str "http") (link item) = true).
Proof.
  assert (Hitem : forall item,
            In item (fetch_deep_web_intelligence now avail render targets) ->
            exists url,
              In url (firstn 5 targets) /\
              source item = str "Deep Web: " ++ firstn 30 url /\
              timestamp item = now /\
              (startswith (str "http") (link item) = true \/
               exists rel, link item = url ++ rel)).
  { intros item Hin.
    apply fetch_deep_web_in in Hin as [_ [url [arts [art [Hu [_ [_ Hi]]]]]]].
    exists url. split; [exact Hu |].
    unfold fragment_item in Hi. destruct (title_el art) as [t|]; [| discriminate].
    apply (inj Some) in Hi. rewrite <- Hi. cbn [source timestamp link].
    split; [reflexivity |]. split; [reflexivity |].
    match goal with
    | |- context [if startswith (str "http") ?l then _ else _] =>
        destruct (startswith (str "http") l) eqn:E
    end.
    - left. exact E.
    - right. eexists. reflexivity. }
  split; [reflexivity |]. split; [| split; [| split; [exact Hitem |]]].
  - unfold fetch_deep_web_intelligence. destruct avail; [| simpl; lia].
    rewrite <- (length_firstn 5 targets).
    change MAX_DEEP_WEB_PAGES with 5.
    apply flat_map_length_le. intros url.
    destruct (render url) as [arts|]; [| simpl; lia].
    unfold page_items. etransitivity; [apply article_items_length |].
    rewrite length_firstn. lia.
  - unfold fetch_deep_web_intelligence. change MAX_DEEP_WEB_PAGES with 5.
    now rewrite firstn_firstn.
  - intros Hall item Hin. destruct (Hitem item Hin) as [url [Hu [_ [_ Hl]]]].
    destruct Hl as [Hl | [rel Hl]]; [exact Hl |].
    rewrite Hl. apply startswith_true.
    assert (Hurl : startswith (str "http") url = true).
    { rewrite List.Forall_forall in Hall. apply Hall.
      eapply in_firstn. exact Hu. }
    apply startswith_true in Hurl as [t ->]. exists (t ++ rel).
    now rewrite <- app_assoc.
Qed.

Lemma fetch_deep_web_intelligence_links_witness :
  Forall (fun item => startswith (str "http") (link item) = true)
         (fetch_deep_web_intelligence
            [] true
            (fun _ => Some [mkFragment (Some (str "Acme"))
                                       (Some (Some (str "/acme"))) None])
            [str "https://openai.com/customer-stories"]).
Proof.
  apply List.Forall_forall.
  apply (proj2 (proj2 (proj2 (proj2
           (fetch_deep_web_intelligence_links
              [] true
              (fun _ => Some [mkFragment (Some (str "Acme"))
                                         (Some (Some (str "/acme"))) None])
              [str "https://openai.com/customer-stories"]))))).
  repeat constructor.
Defined.
(* ===================================================================== *)
(** ** More on the mailbox sweep *)
(* ===================================================================== *)

Lemma last_of_app (A : Type) (l : list A) (x : A) : last_of (l ++ [x]) = Some x.
Proof.
  induction l as [|y l IH]; [reflexivity |].
  simpl. rewrite IH. destruct (l ++ [x]) eqn:E; [| reflexivity].
  now destruct l.
Qed.

Lemma last_of_cons (A : Type) (x : A) (l : list A) :
  exists y, last_of (x :: l) = Some y.
Proof.
  revert x. induction l as [|z l IH]; intros x; [now exists x |].
  destruct (IH z) as [y Hy]. exists y. exact Hy.
Qed.

Lemma in_omap (A B : Type) (f : A -> option B) (l : list A) (y : B) :
  In y (omap f l) -> exists x, In x l /\ f x = Some y.
Proof.
  induction l as [|x l IH]; [intros [] |].
  cbn [omap list_omap]. destruct (f x) as [z|] eqn:E.
  - intros [<- | H]; [exists x; split; [now left | exact E] |].
    destruct (IH H) as [x' [Hx Hf]]. exists x'. split; [now right | exact Hf].
  - intros H. destruct (IH H) as [x' [Hx Hf]]. exists x'.
    split; [now right | exact Hf].
Qed.

Lemma omap_length_le (A B : Type) (f : A -> option B) (l : list A) :
  length (omap f l) <= length l.
Proof.
  induction l as [|x l IH]; [reflexivity |].
  cbn [omap list_omap length]. destruct (f x); cbn [length]; lia.
Qed.

Section MailroomMore.

Variable list_messages : string -> option (list string).
Variable get_message : string -> option message.
Variable download_attachment : string -> text -> text -> option text.
Variable extract_pdf_text : text -> text.
Variable now : text.

Lemma scan_parts_step (id : string) (p : part) (more : list part)
      (attachments : list text) (pdf_content : option text)
      (r : list text * option text) :
  scan_parts download_attachment extract_pdf_text id (p :: more)
             attachments pdf_content = Some r ->
  match saved_document download_attachment id p with
  | Some (name, path) =>
      scan_parts download_attachment extract_pdf_text id more
                 (attachments ++ [name]) (Some (extract_pdf_text path))
      = Some r
  | None =>
      scan_parts download_attachment extract_pdf_text id more
                 attachments pdf_content = Some r
  end.
Proof.
  intros H. cbn [scan_parts] in H. unfold saved_document.
  destruct (part_filename p) as [name|].
  - destruct (endswith (str ".pdf") name); [| exact H].
    destruct (part_body p) as [[aid|]|]; [| exact H | discriminate].
    destruct aid as [|c aid]; [exact H |].
    destruct (download_attachment id (c :: aid) name) as [[|d path]|];
      exact H.
  - exact H.
Qed.

(** The loop over the parts, all at once. *)
Lemma scan_parts_saved (id : string) (parts : list part) :
  forall attachments pdf_content attachments' pdf_content',
    scan_parts download_attachment extract_pdf_text id parts
               attachments pdf_content
    = Some (attachments', pdf_content') ->
    let saved := omap (saved_document download_attachment id) parts in
    attachments' = attachments ++ map fst saved /\
    pdf_content' = match last_of saved with
                   | Some (_, path) => Some (extract_pdf_text path)
                   | None => pdf_content
                   end.
Proof.
  induction parts as [|p more IH]; intros atts pdf atts' pdf' H; cbv zeta.
  - simpl in H. injection H as <- <-. simpl. now rewrite app_nil_r.
  - apply scan_parts_step in H. cbn [omap list_omap].
    destruct (saved_document download_attachment id p) as [[name path]|].
    + apply IH in H. cbv zeta in H. destruct H as [-> ->].
      cbn [map fst]. split; [now rewrite <- app_assoc |].
      cbn [last_of].
      destruct (omap (saved_document download_attachment id) more)
        as [|x l]; [reflexivity |].
      destruct (last_of_cons _ x l) as [[n' p'] ->]. reflexivity.
    + apply IH in H. exact H.
Qed.

(** X8. The attachments of an email item are the names of the parts whose
    document was saved, in the order of the parts; the item has a document
    text exactly when it has an attachment, and the text is that of the
    part saved last; every attachment's name ends with ".pdf". *)
Theorem message_item_attachments (id : string) (item : EmailIntelligence) :
  message_item get_message download_attachment extract_pdf_text now id
  = Some item ->
  exists msg,
    get_message id = Some msg /\
    let parts := match msg_parts msg with Some ps => ps | None => [] end in
    let saved := omap (saved_document download_attachment id) parts in
    attachments item = map fst saved
    /\ pdf_content item
       = match last_of saved with
         | Some (_, path) => Some (extract_pdf_text path)
         | None => None
         end
    /\ (attachments item = [] <-> pdf_content item = None)
    /\ Forall (fun name => endswith (str ".pdf") name = true)
              (attachments item)
    /\ length (attachments item) <= length parts.
Proof.
  unfold message_item. destruct (get_message id) as [msg|]; [| discriminate].
  destruct (scan_parts _ _ _ _ _ _) as [[atts pdf]|] eqn:E; [| discriminate].
  intros H. apply (inj Some) in H. subst item. exists msg.
  split; [reflexivity |]. cbv zeta. cbn [attachments pdf_content].
  apply scan_parts_saved in E. cbv zeta in E. destruct E as [-> ->].
  set (parts := match msg_parts msg with Some ps => ps | None => [] end).
  set (saved := omap (saved_document download_attachment id) parts).
  cbn [app]. split; [reflexivity |]. split; [reflexivity |]. split; [| split].
  - destruct saved as [|[n p] l] eqn:Es; [split; reflexivity |].
    split; [discriminate |].
    destruct (last_of_cons _ (n, p) l) as [[n' p'] ->]. discriminate.
  - apply List.Forall_forall. intros name Hin.
    apply in_map_iff in Hin as [[n path] [<- Hin]].
    unfold saved in Hin. apply in_omap in Hin as [p [_ Hp]].
    unfold saved_document in Hp.
    destruct (part_filename p) as [name|]; [| discriminate].
    destruct (endswith (str ".pdf") name) eqn:Ee; [| discriminate].
    destruct (part_body p) as [[[|c aid]|]|]; try discriminate.
    destruct (download_attachment id (c :: aid) name) as [[|d pth]|];
      try discriminate.
    injection Hp as <- _. exact Ee.
  - rewrite length_map. apply omap_length_le.
Qed.

(** Of several headers of one name the last one counts. *)
Lemma header_get_last (headers : list (text * text)) (name default : text) :
  header_get headers name default
  = match last_header headers name with
    | Some v => v
    | None => default
    end.
Proof.
  revert default. induction headers as [|[n v] more IH]; intros default;
    [reflexivity |].
  cbn [header_get last_header]. rewrite IH.
  destruct (last_header more name); [reflexivity |].
  now destruct (text_eqb n name).
Qed.

(** X9. The subject, the sender and the date of an email item are the
    values of the last header named Subject, From and Date (names compared
    letter by letter, case included); "No Subject", "Unknown" and the
    current time stand in where there is no such header; the snippet is
    the message's, or empty; the link is that of the identifier. *)
Theorem message_item_headers (id : string) (item : EmailIntelligence) :
  message_item get_message download_attachment extract_pdf_text now id
  = Some item ->
  exists msg,
    get_message id = Some msg
    /\ subject item = match last_header (msg_headers msg) (str "Subject") with
                      | Some v => v
                      | None => str "No Subject"
                      end
    /\ sender item = match last_header (msg_headers msg) (str "From") with
                     | Some v => v
                     | None => str "Unknown"
                     end
    /\ email_timestamp item
       = match last_header (msg_headers msg) (str "Date") with
         | Some v => v
         | None => now
         end
    /\ snippet item = match msg_snippet msg with Some s => s | None => [] end
    /\ gmail_link item
       = str "https://mail.google.com/mail/u/0/#inbox/" ++ str id.
Proof.
  unfold message_item. destruct (get_message id) as [msg|]; [| discriminate].
  destruct (scan_parts _ _ _ _ _ _) as [[atts pdf]|]; [| discriminate].
  intros H. apply (inj Some) in H. subst item. exists msg.
  cbn [subject sender email_timestamp snippet gmail_link].
  rewrite !header_get_last. repeat split; reflexivity.
Qed.

(** What a sweep adds to the items: each is the item of a message of the
    list, and there are no more of them than messages. *)
Lemma scan_messages_items (messages : list string) :
  forall st,
    exists more,
      items (scan_messages get_message download_attachment extract_pdf_text
                           now messages st) = items st ++ more /\
      length more <= length messages /\
      Forall (fun item =>
                exists id, In id messages /\
                  message_item get_message download_attachment
                               extract_pdf_text now id = Some item) more.
Proof.
  induction messages as [|id rest IH]; intros st.
  - exists []. simpl. rewrite app_nil_r. repeat split; [lia | constructor].
  - cbn [scan_messages]. destruct (decide (id ∈ seen_ids st)).
    + destruct (IH st) as [more [E [L F]]]. exists more.
      split; [exact E |]. split; [simpl; lia |].
      eapply List.Forall_impl; [| exact F]. simpl.
      intros item [x [Hx Hi]]. eauto.
    + destruct (message_item _ _ _ _ id) as [item|] eqn:Ei.
      * destruct (IH (mkSweep (items st ++ [item]) ({[id]} ∪ seen_ids st)
                              (fetched st ++ [id]))) as [more [E [L F]]].
        exists (item :: more). rewrite E. cbn [items].
        split; [now rewrite <- app_assoc |]. split; [simpl; lia |].
        constructor; [exists id; split; [now left | exact Ei] |].
        eapply List.Forall_impl; [| exact F]. simpl.
        intros it [x [Hx Hi]]. eauto.
      * exists []. cbn [items]. rewrite app_nil_r.
        repeat split; [simpl; lia | constructor].
Qed.

Lemma scan_queries_items (queries : list string) :
  forall st,
    exists more,
      items (scan_queries list_messages get_message download_attachment
                          extract_pdf_text now queries st)
      = items st ++ more /\
      length more <= length (flat_map (listed list_messages) queries) /\
      Forall (fun item =>
                exists q ids id,
                  In q queries /\ list_messages q = Some ids /\ In id ids /\
                  message_item get_message download_attachment
                               extract_pdf_text now id = Some item) more.
Proof.
  induction queries as [|q rest IH]; intros st.
  - exists []. simpl. rewrite app_nil_r. repeat split; [lia | constructor].
  - cbn [scan_queries flat_map]. unfold listed at 1.
    destruct (list_messages q) as [ids|] eqn:Eq.
    + destruct (scan_messages_items ids st) as [m1 [E1 [L1 F1]]].
      destruct (IH (scan_messages get_message download_attachment
                                  extract_pdf_text now ids st))
        as [m2 [E2 [L2 F2]]].
      exists (m1 ++ m2). rewrite E2, E1, <- app_assoc.
      split; [reflexivity |]. split; [rewrite !length_app; lia |].
      apply List.Forall_app. split.
      * eapply List.Forall_impl; [| exact F1]. simpl.
        intros item [id [Hid Hi]]. exists q, ids, id.
        repeat split; simpl; auto.
      * eapply List.Forall_impl; [| exact F2]. simpl.
        intros item [q' [ids' [id [Hq [Hl [Hid Hi]]]]]].
        exists q', ids', id. repeat split; simpl; auto.
    + destruct (IH st) as [more [E [L F]]]. exists more.
      split; [exact E |]. split; [simpl; lia |].
      eapply List.Forall_impl; [| exact F]. simpl.
      intros item [q' [ids' [id [Hq [Hl [Hid Hi]]]]]].
      exists q', ids', id. repeat split; simpl; auto.
Qed.

Lemma scan_queries_app (qs1 qs2 : list string) (st : sweep) :
  scan_queries list_messages get_message download_attachment extract_pdf_text
               now (qs1 ++ qs2) st
  = scan_queries list_messages get_message download_attachment
                 extract_pdf_text now qs2
      (scan_queries list_messages get_message download_attachment
                    extract_pdf_text now qs1 st).
Proof.
  revert st. induction qs1 as [|q qs1 IH]; intros st; [reflexivity |].
  cbn [app scan_queries]. destruct (list_messages q); apply IH.
Qed.

(** X10. A sweep only ever adds items: what is found for the first
    queries stays, in place, whatever the later queries do; a query whose
    listing raises adds nothing; every item is the item of a message that
    some query listed, and there are no more items than listed
    identifiers. *)
Theorem search_whitepapers_grows (qs1 qs2 : list string) :
  (exists more,
      search_whitepapers list_messages get_message download_attachment
                         extract_pdf_text now (qs1 ++ qs2)
      = search_whitepapers list_messages get_message download_attachment
                           extract_pdf_text now qs1 ++ more)
  /\ (forall q, list_messages q = None ->
        search_whitepapers list_messages get_message download_attachment
                           extract_pdf_text now (qs1 ++ [q])
        = search_whitepapers list_messages get_message download_attachment
                             extract_pdf_text now qs1)
  /\ length (search_whitepapers list_messages get_message download_attachment
                                extract_pdf_text now qs1)
     <= length (flat_map (listed list_messages) qs1)
  /\ Forall (fun item =>
               exists q ids id,
                 In q qs1 /\ list_messages q = Some ids /\ In id ids /\
                 message_item get_message download_attachment
                              extract_pdf_text now id = Some item)
            (search_whitepapers list_messages get_message download_attachment
                                extract_pdf_text now qs1).
Proof.
  unfold search_whitepapers, sweep_queries. split; [| split].
  - rewrite scan_queries_app.
    destruct (scan_queries_items qs2
                (scan_queries list_messages get_message download_attachment
                              extract_pdf_text now qs1 (mkSweep [] ∅ [])))
      as [more [E _]].
    exists more. exact E.
  - intros q Hq. rewrite scan_queries_app. cbn [scan_queries]. now rewrite Hq.
  - destruct (scan_queries_items qs1 (mkSweep [] ∅ [])) as [more [E [L F]]].
    rewrite E. cbn [items app]. split; [exact L | exact F].
Qed.

Lemma existsb_eqb_In (id : string) (seen : list string) :
  existsb (String.eqb id) seen = true <-> In id seen.
Proof.
  rewrite existsb_exists. split.
  - intros [x [Hx E]]. apply String.eqb_eq in E. now subst.
  - intros H. exists id. split; [exact H | apply String.eqb_refl].
Qed.

Lemma first_occurrences_ext (ids s1 s2 : list string) :
  (forall x, In x s1 <-> In x s2) ->
  first_occurrences s1 ids = first_occurrences s2 ids.
Proof.
  revert s1 s2. induction ids as [|id ids IH]; intros s1 s2 H; [reflexivity |].
  cbn [first_occurrences].
  assert (E : existsb (String.eqb id) s1 = existsb (String.eqb id) s2).
  { apply eq_true_iff_eq. rewrite !existsb_eqb_In. apply H. }
  rewrite E. destruct (existsb (String.eqb id) s2); [now apply IH |].
  f_equal. apply IH. intros x. simpl. rewrite H. reflexivity.
Qed.

Lemma first_occurrences_app (l1 l2 seen : list string) :
  first_occurrences seen (l1 ++ l2)
  = first_occurrences seen l1 ++ first_occurrences (rev l1 ++ seen) l2.
Proof.
  revert seen. induction l1 as [|id l1 IH]; intros seen; [reflexivity |].
  cbn [app first_occurrences].
  destruct (existsb (String.eqb id) seen) eqn:E.
  - rewrite IH. f_equal. apply first_occurrences_ext. intros x.
    simpl. rewrite !in_app_iff. simpl. apply existsb_eqb_In in E.
    split; [tauto |]. intros [[H | [<- | []]] | H]; auto.
  - cbn [app]. f_equal. rewrite IH. f_equal.
    simpl. now rewrite <- app_assoc.
Qed.

Lemma scan_messages_complete (messages : list string) :
  forall st seen,
    (forall x, x ∈ seen_ids st <-> In x seen) ->
    (forall id, In id messages ->
       message_item get_message download_attachment extract_pdf_text now id
       <> None) ->
    let st' := scan_messages get_message download_attachment extract_pdf_text
                             now messages st in
    map gmail_link (items st')
    = map gmail_link (items st) ++ map link_of (first_occurrences seen messages)
    /\ (forall x, x ∈ seen_ids st' <-> In x (rev messages ++ seen)).
Proof.
  induction messages as [|id rest IH]; intros st seen Hseen Hok; cbv zeta.
  - simpl. rewrite app_nil_r. split; [reflexivity | exact Hseen].
  - cbn [scan_messages first_occurrences].
    destruct (decide (id ∈ seen_ids st)) as [Hin | Hnew].
    + assert (E : existsb (String.eqb id) seen = true).
      { apply existsb_eqb_In. now apply Hseen. }
      rewrite E.
      destruct (IH st seen Hseen) as [Hl Hs].
      { intros x Hx. apply Hok. now right. }
      split; [exact Hl |]. intros x. rewrite Hs. simpl.
      rewrite !in_app_iff. simpl. apply Hseen in Hin.
      split; [tauto |]. intros [[H | [<- | []]] | H]; auto.
    + assert (E : existsb (String.eqb id) seen = false).
      { apply not_true_is_false. rewrite existsb_eqb_In.
        intros H. apply Hnew. now apply Hseen. }
      rewrite E.
      destruct (message_item get_message download_attachment extract_pdf_text
                             now id) as [item|] eqn:Ei;
        [| exfalso; apply (Hok id); [now left | exact Ei]].
      destruct (IH (mkSweep (items st ++ [item]) ({[id]} ∪ seen_ids st)
                            (fetched st ++ [id])) (id :: seen)) as [Hl Hs].
      { intros x. cbn [seen_ids]. rewrite elem_of_union, elem_of_singleton.
        simpl. rewrite Hseen. split; intros [H | H]; auto. }
      { intros x Hx. apply Hok. now right. }
      split.
      * rewrite Hl. cbn [items]. rewrite map_app. cbn [map].
        rewrite (message_item_link get_message download_attachment
                                   extract_pdf_text now id item Ei).
        now rewrite <- app_assoc.
      * intros x. rewrite Hs. simpl. rewrite !in_app_iff. simpl. tauto.
Qed.

Lemma scan_queries_complete (queries : list string) :
  forall st seen,
    (forall x, x ∈ seen_ids st <-> In x seen) ->
    (forall q, In q queries -> list_messages q <> None) ->
    (forall id, In id (flat_map (listed list_messages) queries) ->
       message_item get_message download_attachment extract_pdf_text now id
       <> None) ->
    map gmail_link
        (items (scan_queries list_messages get_message download_attachment
                             extract_pdf_text now queries st))
    = map gmail_link (items st) ++
      map link_of
          (first_occurrences seen (flat_map (listed list_messages) queries)).
Proof.
  induction queries as [|q rest IH]; intros st seen Hseen Hq Hok.
  - simpl. now rewrite app_nil_r.
  - cbn [scan_queries flat_map] in *. unfold listed at 1.
    unfold listed at 1 in Hok.
    destruct (list_messages q) as [ids|] eqn:Eq;
      [| exfalso; apply (Hq q); [now left | exact Eq]].
    destruct (scan_messages_complete ids st seen Hseen) as [Hl Hs].
    { intros id Hid. apply Hok. apply in_or_app. now left. }
    rewrite (IH _ (rev ids ++ seen) Hs).
    + rewrite Hl, first_occurrences_app, map_app, <- app_assoc. reflexivity.
    + intros q' Hq'. apply Hq. now right.
    + intros id Hid. apply Hok. apply in_or_app. now right.
Qed.

(** X11. When no call raises, the sweep emits exactly one item for every
    identifier that some query lists, in the order in which the
    identifiers are listed first. *)
Theorem search_whitepapers_complete (queries : list string) :
  (forall q, In q queries -> list_messages q <> None) ->
  (forall id, In id (flat_map (listed list_messages) queries) ->
     message_item get_message download_attachment extract_pdf_text now id
     <> None) ->
  map gmail_link
      (search_whitepapers list_messages get_message download_attachment
                          extract_pdf_text now queries)
  = map link_of
        (first_occurrences [] (flat_map (listed list_messages) queries)).
Proof.
  intros Hq Hok. unfold search_whitepapers, sweep_queries.
  rewrite (scan_queries_complete queries (mkSweep [] ∅ []) []); auto.
  intros x. simpl. split; [set_solver | tauto].
Qed.

End MailroomMore.

Lemma message_item_attachments_witness :
  exists item,
    message_item
      (fun _ => Some (mkMessage []
                        None
                        (Some [ mkPart (Some (str "a.pdf"))
                                       (Some (Some (str "att1")));
                                mkPart (Some (str "logo.png"))
                                       (Some (Some (str "att2")));
                                mkPart (Some (str "b.pdf"))
                                       (Some (Some (str "att3"))) ])))
      (fun _ _ name => Some (str "./docs/" ++ name))
      (fun path => str "text of " ++ path) [] "m1"
    = Some item /\
    attachments item = [str "a.pdf"; str "b.pdf"] /\
    pdf_content item = Some (str "text of ./docs/b.pdf").
Proof.
  eexists. split; [reflexivity |].
  destruct (message_item_attachments
              (fun _ => Some (mkMessage []
                                None
                                (Some [ mkPart (Some (str "a.pdf"))
                                               (Some (Some (str "att1")));
                                        mkPart (Some (str "logo.png"))
                                               (Some (Some (str "att2")));
                                        mkPart (Some (str "b.pdf"))
                                               (Some (Some (str "att3"))) ])))
              (fun _ _ name => Some (str "./docs/" ++ name))
              (fun path => str "text of " ++ path) [] "m1" _ eq_refl)
    as [msg [Hmsg [Ha [Hp _]]]].
  apply (inj Some) in Hmsg. subst msg. split.
  - rewrite Ha. reflexivity.
  - rewrite Hp. reflexivity.
Defined.

Lemma message_item_headers_witness :
  exists item,
    message_item
      (fun _ => Some (mkMessage [ (str "Subject", str "Old");
                                  (str "subject", str "lower");
                                  (str "Subject", str "New") ]
                                None None))
      (fun _ _ _ => None) (fun path => path) (str "2026-11-05T09:00:00") "m1"
    = Some item /\
    subject item = str "New" /\
    sender item = str "Unknown" /\
    email_timestamp item = str "2026-11-05T09:00:00".
Proof.
  eexists. split; [reflexivity |].
  destruct (message_item_headers
              (fun _ => Some (mkMessage [ (str "Subject", str "Old");
                                          (str "subject", str "lower");
                                          (str "Subject", str "New") ]
                                        None None))
              (fun _ _ _ => None) (fun path => path)
              (str "2026-11-05T09:00:00") "m1" _ eq_refl)
    as [msg [Hmsg [Hs [Hf [Hd _]]]]].
  apply (inj Some) in Hmsg. subst msg.
  rewrite Hs, Hf, Hd. repeat split; reflexivity.
Defined.

Lemma search_whitepapers_grows_witness :
  search_whitepapers
    (fun q => if String.eqb q "q2" then None else Some ["m1"]%string)
    (fun _ => Some (mkMessage [] None None))
    (fun _ _ _ => None) (fun path => path) []
    (["q1"%string] ++ ["q2"%string])
  = search_whitepapers
      (fun q => if String.eqb q "q2" then None else Some ["m1"]%string)
      (fun _ => Some (mkMessage [] None None))
      (fun _ _ _ => None) (fun path => path) [] ["q1"]%string.
Proof.
  apply (proj1 (proj2 (search_whitepapers_grows
           (fun q => if String.eqb q "q2" then None else Some ["m1"]%string)
           (fun _ => Some (mkMessage [] None None))
           (fun _ _ _ => None) (fun path => path) []
           ["q1"]%string []))).
  reflexivity.
Defined.

Lemma search_whitepapers_complete_witness :
  map gmail_link
      (search_whitepapers
         (fun q => if String.eqb q "q1" then Some ["m1"; "m2"]%string
                   else Some ["m2"; "m3"; "m1"]%string)
         (fun _ => Some (mkMessage [] None None))
         (fun _ _ _ => None) (fun path => path) [] ["q1"; "q2"]%string)
  = map link_of ["m1"; "m2"; "m3"]%string.
Proof.
  apply (search_whitepapers_complete
           (fun q => if String.eqb q "q1" then Some ["m1"; "m2"]%string
                     else Some ["m2"; "m3"; "m1"]%string)
           (fun _ => Some (mkMessage [] None None))
           (fun _ _ _ => None) (fun path => path) [] ["q1"; "q2"]%string).
  - intros q _. destruct (String.eqb q "q1"); discriminate.
  - intros id _. discriminate.
Defined.
